(** * Xonix: a shallow embedding of the simulation engine (xonix.ts)

    The TypeScript classes [XY], [Entity], [Player], [Enemy], [Destroyer],
    [XonixField], [XonixLevel], [XonixLevelBuilder], [XonixTimer] and the
    per-tick entity loop of [XonixGame] are embedded as Rocq modules of the
    same names.  Objects are records threaded explicitly through the calls.
    The game object of [XonixGame], with the timeouts and the listeners
    that the browser holds for it, is the module [Game].

    Numbers.  A JavaScript [number] that only ever holds a cell index, a cell
    coordinate, a counter or a number of seconds is a [Z]; positions,
    directions and speeds, which may be fractional, are [Q] and [Math.floor]
    is [Qfloor].  A division whose result may be [NaN] returns a [JsNumber].

    Arrays.  A JavaScript array is a [JsArray]: its [length] and the finite
    map of the integer-keyed properties it holds.  Reading a missing key is
    [None] ([undefined]); writing at or past [length] grows the array.

    Notifications.  What the subjects of a level emit is recorded in the
    level, in order; subscribers are outside the engine.

    Loops.  A [for] loop over an index range is a fold over that range; the
    one [while] loop, the stack loop of [startScan], carries an explicit
    bound on its iterations, and is shown below never to reach it. *)

From Stdlib Require Import ZArith QArith Qround Lia String Ascii.
From stdpp Require Import base option list gmap fin_maps.

Local Open Scope Z_scope.

(** ** JavaScript values *)

(** The result of a floating division: a finite value, or one of the special
    values that [x / 0] produces. *)
Inductive JsNumber :=
  | Num (q : Q)
  | NaN
  | PosInfinity
  | NegInfinity.

(** [a / b] on integer operands. *)
Definition js_div (a b : Z) : JsNumber :=
  if decide (b = 0) then
    (if decide (a = 0) then NaN
     else if decide (0 < a) then PosInfinity else NegInfinity)
  else Num (Qmake a 1 / Qmake b 1)%Q.

(** [a > b]; every comparison with [NaN] is false. *)
Definition js_gt (a : JsNumber) (b : Q) : bool :=
  match a with
  | Num q => negb (Qle_bool q b)
  | PosInfinity => true
  | NaN | NegInfinity => false
  end.

(** [lo <= a && a <= hi]. *)
Definition js_between (lo hi : Q) (a : JsNumber) : bool :=
  match a with
  | Num q => Qle_bool lo q && Qle_bool q hi
  | _ => false
  end.

(** [Math.floor(a)]. *)
Definition js_floor (a : JsNumber) : JsNumber :=
  match a with
  | Num q => Num (inject_Z (Qfloor q))
  | other => other
  end.

(** [a % b] on integer operands: the remainder has the sign of [a], and
    [a % 0] is [NaN]. *)
Definition js_rem (a b : Z) : JsNumber :=
  if decide (b = 0) then NaN else Num (inject_Z (Z.rem a b)).

(** The array index a number denotes when it is used as a property key:
    an integer is its own index, a fraction names a property no array of
    this program ever holds. *)
Definition as_index (q : Q) : option Z :=
  if Qeq_bool q (inject_Z (Qfloor q)) then Some (Qfloor q) else None.

Record JsArray (A : Type) := mkArray {
  arr_length : Z;
  arr_items : gmap Z A
}.
Arguments mkArray {A} _ _.
Arguments arr_length {A} _.
Arguments arr_items {A} _.

(** [new Array(n)]: [n] holes. *)
Definition arr_new {A} (n : Z) : JsArray A := mkArray n ∅.

(** [a[i]]. *)
Definition arr_get {A} (a : JsArray A) (i : Z) : option A := arr_items a !! i.

(** [a[i] = v]: a non-negative [i] is an index and extends [length] to
    [i + 1] when needed; a negative [i] is an ordinary property. *)
Definition arr_set {A} (a : JsArray A) (i : Z) (v : A) : JsArray A :=
  mkArray (if decide (0 ≤ i) then Z.max (arr_length a) (i + 1) else arr_length a)
          (<[i := v]> (arr_items a)).

(** Truthiness of a possibly missing boolean. *)
Definition truthy (b : option bool) : bool := default false b.

(** [a || b] on possibly undefined objects. *)
Definition or_else {A} (a b : option A) : option A :=
  match a with Some _ => a | None => b end.

(** ** enum CellState *)

Inductive CellState := OUT_OF_BOUNDS | UNCLAIMED | CLAIMED | CLAIMING.

Global Instance CellState_eq_dec : EqDecision CellState.
Proof. solve_decision. Defined.

(** ** class XY *)

Module XY.
Record t := mk { x : Q; y : Q }.

Definition new : t := mk 0 0.

Definition set (_ : t) (x y : Q) : t := mk x y.

Definition setFrom (_ : t) (xy : t) : t := mk (x xy) (y xy).

Definition xRounded (p : t) : Z := Qfloor (x p).

Definition yRounded (p : t) : Z := Qfloor (y p).

(** Called with integer cell coordinates only. *)
Definition differRounded (p : t) (x y : Z) : bool :=
  negb (x =? xRounded p) || negb (y =? yRounded p).
End XY.

(** ** The data of the entity classes

    [color] is only read by the renderer and is left out. *)

Module Entity.
Record t := mk {
  position : XY.t;
  direction : XY.t;
  speed : Q
}.

Definition new : t := mk XY.new XY.new 0.

Definition with_position (e : t) (p : XY.t) : t := mk p (direction e) (speed e).
Definition with_direction (e : t) (d : XY.t) : t := mk (position e) d (speed e).
Definition with_speed (e : t) (s : Q) : t := mk (position e) (direction e) s.
End Entity.

Module Player.
Record t := mk {
  entity : Entity.t;
  lives : Z;
  claiming : bool
}.

Definition new : t := mk Entity.new 0 false.

Definition with_entity (p : t) (e : Entity.t) : t := mk e (lives p) (claiming p).
Definition with_lives (p : t) (n : Z) : t := mk (entity p) n (claiming p).
Definition with_claiming (p : t) (b : bool) : t := mk (entity p) (lives p) b.
End Player.

Module Enemy.
(** The dynamic class of an object stored in [enemies]. *)
Inductive Class := IsEnemy | IsDestroyer.

Record t := mk {
  entity : Entity.t;
  class : Class
}.

Definition with_entity (e : t) (en : Entity.t) : t := mk en (class e).
End Enemy.

(** An entity of a level, by identity: the player object or the object at
    index [i] of [enemies]. *)
Inductive EntityRef := ThePlayer | TheEnemy (i : nat).

Global Instance EntityRef_eq_dec : EqDecision EntityRef.
Proof. solve_decision. Defined.

(** ** interface Collision *)

Record Collision := mkCollision {
  col_x : Z;
  col_y : Z;
  currentCellState : option CellState;
  collidedCellState : option CellState;
  collidedEntity : option EntityRef
}.

(** ** class XonixField *)

Module XonixField.

(** [cellCount]: one counter per enum value.  ([cellCount[undefined]--]
    only creates a property named "undefined"; it is not a counter.) *)
Record CellCount := mkCount {
  n_out : Z;
  n_unclaimed : Z;
  n_claimed : Z;
  n_claiming : Z
}.

Definition count_get (c : CellCount) (s : CellState) : Z :=
  match s with
  | OUT_OF_BOUNDS => n_out c
  | UNCLAIMED => n_unclaimed c
  | CLAIMED => n_claimed c
  | CLAIMING => n_claiming c
  end.

Definition count_add (c : CellCount) (s : CellState) (d : Z) : CellCount :=
  match s with
  | OUT_OF_BOUNDS => mkCount (n_out c + d) (n_unclaimed c) (n_claimed c) (n_claiming c)
  | UNCLAIMED => mkCount (n_out c) (n_unclaimed c + d) (n_claimed c) (n_claiming c)
  | CLAIMED => mkCount (n_out c) (n_unclaimed c) (n_claimed c + d) (n_claiming c)
  | CLAIMING => mkCount (n_out c) (n_unclaimed c) (n_claimed c) (n_claiming c + d)
  end.

Record t := mk {
  cells : JsArray CellState;
  couldClaim : JsArray bool;
  cellCount : CellCount;
  width : Z;
  height : Z
}.

Definition with_couldClaim (f : t) (cc : JsArray bool) : t :=
  mk (cells f) cc (cellCount f) (width f) (height f).

Definition setCellDirect (value : CellState) (i : Z) (f : t) : t :=
  let prevState := arr_get (cells f) i in
  let c1 := match prevState with
            | Some s => count_add (cellCount f) s (-1)
            | None => cellCount f
            end in
  let c2 := count_add c1 value 1 in
  mk (arr_set (cells f) i value) (couldClaim f) c2 (width f) (height f).

Definition efficientIndex (f : t) (x y : Z) : Z := y * width f + x.

Definition setCellByXY (value : CellState) (x y : Z) (f : t) : t :=
  setCellDirect value (efficientIndex f x y) f.

Definition isOut (f : t) (x y : Z) : bool :=
  (x <? 0) || (width f <=? x) || (y <? 0) || (height f <=? y).

(** The result is [None] when the array has a hole at that index. *)
Definition getCell (f : t) (x y : Z) : option CellState :=
  if isOut f x y then Some OUT_OF_BOUNDS
  else arr_get (cells f) (efficientIndex f x y).

(** The constructor.  The dimensions are naturals: [new Array(n)] rejects
    a negative or fractional [n]. *)
Definition new (w h : nat) : t :=
  let n := Z.of_nat w * Z.of_nat h in
  foldl (fun f i => setCellDirect UNCLAIMED i f)
        (mk (arr_new n) (arr_new n) (mkCount 0 0 0 0) (Z.of_nat w) (Z.of_nat h))
        (seqZ 0 n).

(** The first loop of [claim]: the trail is sealed. *)
Definition claimTrail (f : t) : t :=
  foldl (fun f i =>
           if decide (arr_get (cells f) i = Some CLAIMING)
           then setCellDirect CLAIMED i f else f)
        f (seqZ 0 (arr_length (cells f))).

(** The second loop of [claim]: every flag is raised. *)
Definition resetCouldClaim (f : t) : t :=
  foldl (fun f i => with_couldClaim f (arr_set (couldClaim f) i true))
        f (seqZ 0 (arr_length (couldClaim f))).

Definition shouldStopScan (f : t) (index : Z) : bool :=
  bool_decide (arr_get (cells f) index = Some CLAIMED)
  || negb (truthy (arr_get (couldClaim f) index)).

Definition mark (f : t) (i : Z) : t :=
  with_couldClaim f (arr_set (couldClaim f) i false).

(** [for (; lx >= rowStart; lx--)]: [n] is [lx - rowStart + 1], the number
    of cells from [lx] down to [rowStart], so [lx >= rowStart] is [n > 0].
    Returns the field and the final [lx]. *)
Fixpoint scanLeft (n : nat) (f : t) (lx : Z) : t * Z :=
  match n with
  | O => (f, lx)
  | S n' =>
      if shouldStopScan f lx then (f, lx)
      else scanLeft n' (mark f lx) (lx - 1)
  end.

(** [for (; rx <= rowEnd; rx++)]: [n] is [rowEnd - rx + 1]. *)
Fixpoint scanRight (n : nat) (f : t) (rx : Z) : t * Z :=
  match n with
  | O => (f, rx)
  | S n' =>
      if shouldStopScan f rx then (f, rx)
      else scanRight n' (mark f rx) (rx + 1)
  end.

(** The stack of [startScan], top first: [push] is [cons]. *)
Definition pushUnlessStop (f : t) (index : Z) (stack : list Z) : list Z :=
  if shouldStopScan f index then stack else index :: stack.

(** [for (let i = lx + 1; i < rx; i++)] over [span = lx+1 .. rx-1]. *)
Definition pushNeighbours (f : t) (span : list Z) (stack : list Z) : list Z :=
  foldl (fun stack i =>
           pushUnlessStop f (i + width f) (pushUnlessStop f (i - width f) stack))
        stack span.

(** The body of the [while] loop for a popped [cellIndex] that does not
    stop the scan.  With [width = 0] the row bounds are [NaN]: no loop
    condition holds, nothing is marked and nothing is pushed. *)
Definition scanRow (f : t) (cellIndex : Z) (stack : list Z) : t * list Z :=
  if decide (width f = 0) then (f, stack)
  else
    let y := cellIndex / width f in
    let rowStart := efficientIndex f 0 y in
    let rowEnd := efficientIndex f (width f - 1) y in
    let '(f1, lx) := scanLeft (Z.to_nat (cellIndex - rowStart + 1)) f cellIndex in
    let '(f2, rx) := scanRight (Z.to_nat (rowEnd - cellIndex)) f1 (cellIndex + 1) in
    (f2, pushNeighbours f2 (seqZ (lx + 1) (rx - lx - 1)) stack).

(** [while (stack.length)], with an explicit bound on the number of
    iterations: [None] when the bound is reached before the stack is
    empty. *)
Fixpoint scanLoop (fuel : nat) (f : t) (stack : list Z) {struct fuel} : option t :=
  match stack with
  | [] => Some f
  | cellIndex :: stack' =>
      match fuel with
      | O => None
      | S fuel' =>
          if shouldStopScan f cellIndex then scanLoop fuel' f stack'
          else let '(f', stack'') := scanRow f cellIndex stack' in
               scanLoop fuel' f' stack''
      end
  end.

(** The number of raised flags. *)
Definition raised (f : t) : nat :=
  size (filter (fun kv : Z * bool => kv.2 = true) (arr_items (couldClaim f))).

(** Iterations that [scanLoop] is given: every iteration pops one index,
    lowers some [k] flags and pushes at most [2 k] indices. *)
Definition scanBound (f : t) (stack : list Z) : nat :=
  (length stack + 3 * raised f)%nat.

(** [startScan(startX, startY)].  The seed index is computed from the
    numbers as they are; a fractional index reads [undefined] from both
    arrays, so [shouldStopScan] holds and the stack empties at once. *)
Definition startScan (f : t) (startX startY : Q) : option t :=
  match as_index (startY * inject_Z (width f) + startX)%Q with
  | None => Some f
  | Some cellIndex => scanLoop (scanBound f [cellIndex]) f [cellIndex]
  end.

(** The last loop of [claim]. *)
Definition claimRaised (f : t) : t :=
  foldl (fun f i =>
           if truthy (arr_get (couldClaim f) i)
           then setCellDirect CLAIMED i f else f)
        f (seqZ 0 (arr_length (couldClaim f))).

(** [for (const enemy of enemies) startScan(x, y)]. *)
Fixpoint scanEnemies (f : t) (enemies : list Enemy.t) : option t :=
  match enemies with
  | [] => Some f
  | enemy :: rest =>
      let p := Entity.position (Enemy.entity enemy) in
      f' ← startScan f (XY.x p) (XY.y p);
      scanEnemies f' rest
  end.

Definition claim (enemies : list Enemy.t) (f : t) : option t :=
  f' ← scanEnemies (resetCouldClaim (claimTrail f)) enemies;
  Some (claimRaised f').

Definition clearClaiming (f : t) : t :=
  foldl (fun f i =>
           if decide (arr_get (cells f) i = Some CLAIMING)
           then setCellDirect UNCLAIMED i f else f)
        f (seqZ 0 (arr_length (cells f))).

Definition claimedRatio (f : t) : JsNumber :=
  js_div (count_get (cellCount f) CLAIMED) (arr_length (cells f)).

(** [forEachCell(cellIterator)]: the calls made to the iterator, in order,
    each as its arguments [(x, y, state)]. *)
Definition forEachCell (f : t) : list (JsNumber * JsNumber * option CellState) :=
  map (fun i => (js_rem i (width f), js_floor (js_div i (width f)), arr_get (cells f) i))
      (seqZ 0 (arr_length (cells f))).

End XonixField.

(** ** class XonixTimer *)

Module XonixTimer.

(** A live [setInterval] schedule and what its callback captured. *)
Record Interval := mkInterval {
  countdown : bool;
  increment : Z
}.

(** [interval] is [None] when no schedule is live (never set, or cleared). *)
Record t := mk {
  seconds : Z;
  interval : option Interval;
  paused : bool
}.

Definition new : t := mk 0 None false.

Definition resume (tm : t) : t := mk (seconds tm) (interval tm) false.

Definition pause (tm : t) : t := mk (seconds tm) (interval tm) true.

Definition stop (tm : t) : t := mk 0 None (paused tm).

Definition start (countdown : bool) (startSeconds : Z) (tm : t) : t :=
  if paused tm then resume tm
  else
    let tm := stop tm in
    let increment := if countdown then -1 else 1 in
    mk startSeconds (Some (mkInterval countdown increment)) (paused tm).

(** The callback given to [setInterval]; the boolean tells whether
    [_onTimeUp.next()] was called. *)
Definition callback (iv : Interval) (tm : t) : t * bool :=
  if paused tm then (tm, false)
  else
    let tm := mk (seconds tm + increment iv) (interval tm) (paused tm) in
    if countdown iv && (seconds tm <? 0) then (pause tm, true)
    else (tm, false).

(** One second passes: the live schedule, if any, runs its callback. *)
Definition tick (tm : t) : t * bool :=
  match interval tm with
  | Some iv => callback iv tm
  | None => (tm, false)
  end.

(** [n] seconds pass; the number of time-up notifications is counted. *)
Fixpoint ticks (n : nat) (tm : t) : t * nat :=
  match n with
  | O => (tm, O)
  | S n' =>
      let '(tm1, fired) := tick tm in
      let '(tm2, k) := ticks n' tm1 in
      (tm2, ((if fired then 1 else 0) + k)%nat)
  end.

(** The number handed to [formatDate]. *)
Definition shownMillis (tm : t) : Z := Z.max 0 (seconds tm) * 1000.

Definition digit (n : Z) : ascii := ascii_of_nat (48 + Z.to_nat n).

Definition twoDigits (n : Z) : string :=
  String (digit (n / 10)) (String (digit (n mod 10)) EmptyString).

(** Modelled from the spec: Angular's [formatDate(ms, "mm:ss", "en")], which
    is not part of this repository, taken in a time zone whose offset is
    a whole number of hours: minutes and seconds of the instant, two
    digits each. *)
Definition formatDate_mmss (ms : Z) : string :=
  (twoDigits ((ms / 60000) mod 60) ++ ":" ++ twoDigits ((ms / 1000) mod 60))%string.

Definition toString (tm : t) : string := formatDate_mmss (shownMillis tm).

End XonixTimer.

(** ** class XonixLevel *)

(** What the three subjects [_win], [_die] and [_lose] emit. *)
Inductive Notification := Won | Died | Lost.

Global Instance Notification_eq_dec : EqDecision Notification.
Proof. solve_decision. Defined.

Module XonixLevel.

(** [emitted] lists the notifications in the order they were fired, the
    latest first.  The colours and the background are left out. *)
Record t := mk {
  field : XonixField.t;
  enemies : list Enemy.t;
  player : Player.t;
  claimRatioWin : Q;
  defaultPlayerPosition : XY.t;
  countdownTime : option Z;
  timer : XonixTimer.t;
  emitted : list Notification
}.

Definition with_field (l : t) (f : XonixField.t) : t :=
  mk f (enemies l) (player l) (claimRatioWin l) (defaultPlayerPosition l)
     (countdownTime l) (timer l) (emitted l).
Definition with_enemies (l : t) (es : list Enemy.t) : t :=
  mk (field l) es (player l) (claimRatioWin l) (defaultPlayerPosition l)
     (countdownTime l) (timer l) (emitted l).
Definition with_player (l : t) (p : Player.t) : t :=
  mk (field l) (enemies l) p (claimRatioWin l) (defaultPlayerPosition l)
     (countdownTime l) (timer l) (emitted l).
Definition with_timer (l : t) (tm : XonixTimer.t) : t :=
  mk (field l) (enemies l) (player l) (claimRatioWin l) (defaultPlayerPosition l)
     (countdownTime l) tm (emitted l).
Definition next (n : Notification) (l : t) : t :=
  mk (field l) (enemies l) (player l) (claimRatioWin l) (defaultPlayerPosition l)
     (countdownTime l) (timer l) (n :: emitted l).

(** The constructor; [claimRatioWin] is 0.8. *)
Definition new (f : XonixField.t) (es : list Enemy.t) (p : Player.t) : t :=
  mk f es p (4 # 5) XY.new None XonixTimer.new [].

Definition empty : t := new (XonixField.new 0 0) [] Player.new.

(** [get entities()]: the player, then the enemies. *)
Definition entities (l : t) : list EntityRef :=
  ThePlayer :: map TheEnemy (seq 0 (length (enemies l))).

Definition win (l : t) : t := next Won l.

Definition lose (l : t) : t := next Lost l.

Definition die (l : t) : t :=
  let l := with_player l (Player.with_lives (player l) (Player.lives (player l) - 1)) in
  let l := next Died l in
  let l := with_player l
             (Player.with_entity (player l)
                (Entity.with_speed (Player.entity (player l)) 0)) in
  let l := with_player l
             (Player.with_entity (player l)
                (Entity.with_position (Player.entity (player l))
                   (XY.setFrom (Entity.position (Player.entity (player l)))
                               (defaultPlayerPosition l)))) in
  let l := with_field l (XonixField.clearClaiming (field l)) in
  if Player.lives (player l) <? 0 then lose l else l.

Definition claim (l : t) : option t :=
  f ← XonixField.claim (enemies l) (field l);
  let l := with_field l f in
  let claimRatio := XonixField.claimedRatio (field l) in
  Some (if js_gt claimRatio (claimRatioWin l) then win l else l).

(** The subscription made in the constructor: a second of the level's
    timer passes, and a time-up makes the level [lose]. *)
Definition timerTick (l : t) : t :=
  let '(tm, fired) := XonixTimer.tick (timer l) in
  let l := with_timer l tm in
  if fired then lose l else l.

(** [getColor(cellState)], given the three colour fields that the record
    above leaves out; [None] is the thrown [Error]. *)
Definition getColor (unclaimedColor claimedColor claimingColor : string)
    (cellState : option CellState) : option string :=
  match cellState with
  | Some UNCLAIMED => Some unclaimedColor
  | Some CLAIMED => Some claimedColor
  | Some CLAIMING => Some claimingColor
  | Some OUT_OF_BOUNDS | None => None
  end.

End XonixLevel.

(** ** The methods of the entity classes

    A method of an entity reads and writes its receiver inside the level it
    is given; the receiver is named by an [EntityRef]. *)

Module EntityMethods.

Definition get (level : XonixLevel.t) (r : EntityRef) : option Entity.t :=
  match r with
  | ThePlayer => Some (Player.entity (XonixLevel.player level))
  | TheEnemy i => Enemy.entity <$> XonixLevel.enemies level !! i
  end.

Definition put (level : XonixLevel.t) (r : EntityRef) (e : Entity.t) : XonixLevel.t :=
  match r with
  | ThePlayer =>
      XonixLevel.with_player level (Player.with_entity (XonixLevel.player level) e)
  | TheEnemy i =>
      XonixLevel.with_enemies level
        (alter (fun en => Enemy.with_entity en e) i (XonixLevel.enemies level))
  end.

(** [entity => !entity.position.differRounded(x, y)] *)
Definition standsAt (level : XonixLevel.t) (x y : Z) (r : EntityRef) : bool :=
  match get level r with
  | Some e => negb (XY.differRounded (Entity.position e) x y)
  | None => false
  end.

Definition checkCollisionForPosition {T : Type}
    (provider : Z -> Z -> T) (predicate : T -> bool)
    (collisionFactory : T -> Collision -> Collision)
    (currentCellState : option CellState) (x y : Z) : option Collision :=
  let nextCell := provider x y in
  if predicate nextCell
  then Some (collisionFactory nextCell (mkCollision x y currentCellState None None))
  else None.

Definition checkCollisions {T : Type}
    (provider : Z -> Z -> T) (predicate : T -> bool)
    (collisionFactory : T -> Collision -> Collision)
    (currentCellState : option CellState)
    (currX currY nextX nextY : Z) : option Collision :=
  or_else
    (checkCollisionForPosition provider predicate collisionFactory currentCellState
       nextX currY)
    (or_else
       (checkCollisionForPosition provider predicate collisionFactory currentCellState
          currX nextY)
       (checkCollisionForPosition provider predicate collisionFactory currentCellState
          nextX nextY)).

(** The three arguments of the first call in [checkCollision]. *)
Definition cellProvider (level : XonixLevel.t) (x y : Z) : option CellState :=
  XonixField.getCell (XonixLevel.field level) x y.
Definition cellPredicate (currCell item : option CellState) : bool :=
  negb (bool_decide (currCell = item)).
Definition cellFactory (item : option CellState) (c : Collision) : Collision :=
  mkCollision (col_x c) (col_y c) (currentCellState c) item (collidedEntity c).

(** The three arguments of the second call. *)
Definition entityProvider (level : XonixLevel.t) (x y : Z) : option EntityRef :=
  List.find (standsAt level x y) (XonixLevel.entities level).
Definition entityPredicate (this : EntityRef) (item : option EntityRef) : bool :=
  match item with
  | Some r => negb (bool_decide (r = this))
  | None => false
  end.
Definition entityFactory (item : option EntityRef) (c : Collision) : Collision :=
  mkCollision (col_x c) (col_y c) (currentCellState c) (collidedCellState c) item.

Definition checkCollision (level : XonixLevel.t) (this : EntityRef)
    (currX currY nextX nextY : Z) : option Collision :=
  let currCell := XonixField.getCell (XonixLevel.field level) currX currY in
  or_else
    (checkCollisions (cellProvider level) (cellPredicate currCell) cellFactory
       currCell currX currY nextX nextY)
    (checkCollisions (entityProvider level) (entityPredicate this) entityFactory
       currCell currX currY nextX nextY).

(** [update(delta, level)]; [onCollision] is the receiver's own.  The
    result is [None] only when a [claim] made on the way exhausts its
    iteration bound.  A reference to no object leaves the level as it is. *)
Definition update (this : EntityRef)
    (onCollision : XonixLevel.t -> Collision -> option XonixLevel.t)
    (delta : Q) (level : XonixLevel.t) : option XonixLevel.t :=
  match get level this with
  | None => Some level
  | Some e =>
      let deltaSpeed := (Entity.speed e * delta)%Q in
      let currX := XY.x (Entity.position e) in
      let currY := XY.y (Entity.position e) in
      let nextX := (currX + XY.x (Entity.direction e) * deltaSpeed)%Q in
      let nextY := (currY + XY.y (Entity.direction e) * deltaSpeed)%Q in
      match checkCollision level this
              (Qfloor currX) (Qfloor currY) (Qfloor nextX) (Qfloor nextY) with
      | Some collision => onCollision level collision
      | None => Some (put level this (Entity.with_position e (XY.mk nextX nextY)))
      end
  end.

End EntityMethods.

Module PlayerMethods.

Definition this_position (level : XonixLevel.t) : XY.t :=
  Entity.position (Player.entity (XonixLevel.player level)).

Definition set_position (level : XonixLevel.t) (x y : Z) : XonixLevel.t :=
  let p := XonixLevel.player level in
  XonixLevel.with_player level
    (Player.with_entity p
       (Entity.with_position (Player.entity p)
          (XY.set (Entity.position (Player.entity p)) (inject_Z x) (inject_Z y)))).

Definition set_claiming (level : XonixLevel.t) (b : bool) : XonixLevel.t :=
  XonixLevel.with_player level (Player.with_claiming (XonixLevel.player level) b).

Definition onCollision (level : XonixLevel.t) (collision : Collision)
    : option XonixLevel.t :=
  let x := col_x collision in
  let y := col_y collision in
  match collidedCellState collision with
  | Some OUT_OF_BOUNDS =>
      let p := XonixLevel.player level in
      Some (XonixLevel.with_player level
              (Player.with_entity p (Entity.with_speed (Player.entity p) 0)))
  | Some UNCLAIMED =>
      Some (set_claiming (set_position level x y) true)
  | Some CLAIMED =>
      let level :=
        XonixLevel.with_field level
          (XonixField.setCellByXY CLAIMING
             (XY.xRounded (this_position level)) (XY.yRounded (this_position level))
             (XonixLevel.field level)) in
      let level := set_position level x y in
      level ← XonixLevel.claim level;
      Some (set_claiming level false)
  | Some CLAIMING =>
      Some (XonixLevel.die (set_claiming level false))
  | None => Some level
  end.

Definition update (delta : Q) (level : XonixLevel.t) : option XonixLevel.t :=
  let prevX := XY.xRounded (this_position level) in
  let prevY := XY.yRounded (this_position level) in
  level ← EntityMethods.update ThePlayer onCollision delta level;
  if Player.claiming (XonixLevel.player level)
     && XY.differRounded (this_position level) prevX prevY
     && negb (bool_decide
                (XonixField.getCell (XonixLevel.field level) prevX prevY = Some CLAIMED))
  then Some (XonixLevel.with_field level
               (XonixField.setCellByXY CLAIMING prevX prevY (XonixLevel.field level)))
  else Some level.

End PlayerMethods.

Module EnemyMethods.

(** [Enemy.onCollision] for the enemy at index [i]. *)
Definition onCollision (i : nat) (level : XonixLevel.t) (collision : Collision)
    : XonixLevel.t :=
  match EntityMethods.get level (TheEnemy i) with
  | None => level
  | Some e =>
      let x := col_x collision in
      let y := col_y collision in
      let collidedState := collidedCellState collision in
      let playerCollided := bool_decide (collidedEntity collision = Some ThePlayer) in
      let notVerticalCollide := negb (x =? XY.xRounded (Entity.position e)) in
      let notHorizontalCollide := negb (y =? XY.yRounded (Entity.position e)) in
      let d := Entity.direction e in
      let d := if notVerticalCollide then XY.mk (XY.x d * -1)%Q (XY.y d) else d in
      let d := if notHorizontalCollide then XY.mk (XY.x d) (XY.y d * -1)%Q else d in
      let level := EntityMethods.put level (TheEnemy i) (Entity.with_direction e d) in
      if bool_decide (collidedState = Some CLAIMING) || playerCollided
      then XonixLevel.die level
      else level
  end.

End EnemyMethods.

Module DestroyerMethods.

Definition onCollision (i : nat) (level : XonixLevel.t) (collision : Collision)
    : XonixLevel.t :=
  let level := EnemyMethods.onCollision i level collision in
  if bool_decide (collidedCellState collision = Some CLAIMED)
  then XonixLevel.with_field level
         (XonixField.setCellByXY UNCLAIMED (col_x collision) (col_y collision)
            (XonixLevel.field level))
  else level.

End DestroyerMethods.

(** ** class XonixGame: the entity loop of a tick *)

Module XonixGame.

(** The [onCollision] that the object at index [i] of [enemies] inherits
    or overrides. *)
Definition enemyOnCollision (i : nat) (level : XonixLevel.t) (collision : Collision)
    : option XonixLevel.t :=
  match Enemy.class <$> XonixLevel.enemies level !! i with
  | Some Enemy.IsDestroyer => Some (DestroyerMethods.onCollision i level collision)
  | _ => Some (EnemyMethods.onCollision i level collision)
  end.

(** [entity.update(delta, this.level)] by the class of the entity. *)
Definition updateEntity (delta : Q) (level : XonixLevel.t) (r : EntityRef)
    : option XonixLevel.t :=
  match r with
  | ThePlayer => PlayerMethods.update delta level
  | TheEnemy i => EntityMethods.update (TheEnemy i) (enemyOnCollision i) delta level
  end.

Fixpoint forEach (delta : Q) (rs : list EntityRef) (level : XonixLevel.t)
    : option XonixLevel.t :=
  match rs with
  | [] => Some level
  | r :: rs' => level' ← updateEntity delta level r; forEach delta rs' level'
  end.

Definition update (delta : Q) (level : XonixLevel.t) : option XonixLevel.t :=
  forEach delta (XonixLevel.entities level) level.

(** [tick()] with a canvas attached: [delta] is the constant 1. *)
Definition tick (level : XonixLevel.t) : option XonixLevel.t := update 1 level.

(** The timer call of [start(level)]:
    [timer.start(!!level.countdownTime, level.countdownTime)]; a missing
    [countdownTime] leaves [startSeconds] at its default 0. *)
Definition startTimer (level : XonixLevel.t) : XonixLevel.t :=
  let countdownTime := XonixLevel.countdownTime level in
  XonixLevel.with_timer level
    (XonixTimer.start
       (match countdownTime with Some n => negb (n =? 0) | None => false end)
       (default 0 countdownTime)
       (XonixLevel.timer level)).

(** [createArrowListener(xDirection, yDirection)], run on a key press. *)
Definition arrowListener (xDirection yDirection : Q) (level : XonixLevel.t)
    : XonixLevel.t :=
  let p := XonixLevel.player level in
  XonixLevel.with_player level
    (Player.with_entity p
       (Entity.with_speed
          (Entity.with_direction (Player.entity p)
             (XY.set (Entity.direction (Player.entity p)) xDirection yDirection))
          1)).

End XonixGame.

(** ** class XonixGame: the game object

    The object with what the browser holds for it: the timeouts that
    were set and have neither fired nor been cleared, and the number of
    [keydown] listeners added to the document.  A timeout handle is a
    positive number, so a handle is always truthy.  [ctx] tells whether a
    canvas context is attached; what is painted on it is left out, apart
    from whether painting throws.  The level is the object the game
    holds; [start] may be handed that same object or another one. *)

Module Game.

Record t := mk {
  level : XonixLevel.t;
  ctx : bool;
  nextUpdate : option nat;
  paused : bool;
  timeouts : list nat;
  handles : nat;
  listeners : nat
}.

(** [new XonixGame()]. *)
Definition new : t := mk XonixLevel.empty false None false [] 0 0.

Definition with_level (g : t) (l : XonixLevel.t) : t :=
  mk l (ctx g) (nextUpdate g) (paused g) (timeouts g) (handles g) (listeners g).
Definition with_paused (g : t) (b : bool) : t :=
  mk (level g) (ctx g) (nextUpdate g) b (timeouts g) (handles g) (listeners g).

Definition isRunning (g : t) : bool :=
  match nextUpdate g with Some _ => true | None => false end.

Definition isPaused (g : t) : bool := paused g.

Definition isStopped (g : t) : bool := negb (isRunning g) && negb (isPaused g).

(** [clearTimeout(handle)] on the timeouts that are set. *)
Definition clearTimeout (handle : option nat) (timeouts : list nat) : list nat :=
  match handle with
  | Some h => filter (fun h' => h' ≠ h) timeouts
  | None => timeouts
  end.

(** How a call ends: the game after it returned, or after it threw. *)
Inductive Outcome := Returned (g : t) | Threw (g : t).

Definition after (o : Outcome) : t :=
  match o with Returned g | Threw g => g end.

(** [draw(ctx)] returns: [drawField] asks [getColor] for the colour of
    every state that [forEachCell] passes, and [getColor] throws for a
    state that has none.  The colours themselves are left out. *)
Definition draws (l : XonixLevel.t) : bool :=
  forallb (fun visit =>
             match XonixLevel.getColor EmptyString EmptyString EmptyString visit.2 with
             | Some _ => true
             | None => false
             end)
          (XonixField.forEachCell (XonixLevel.field l)).

(** The private [tick()].  The result is [None] only when a [claim] made
    on the way exhausts its iteration bound. *)
Definition tick (g : t) : option Outcome :=
  if ctx g then
    l ← XonixGame.update 1 (level g);
    let g := with_level g l in
    Some (if draws l then Returned g else Threw g)
  else Some (Returned g).

(** [this.nextUpdate = setTimeout(tick, this.updateInterval)]. *)
Definition schedule (g : t) : t :=
  mk (level g) (ctx g) (Some (S (handles g))) (paused g)
     (timeouts g ++ [S (handles g)]) (S (handles g)) (listeners g).

(** The closure [tick] of [run]:
    [try { this.tick() } finally { this.nextUpdate = setTimeout(...) }]. *)
Definition tickThenSchedule (g : t) : option Outcome :=
  o ← tick g;
  Some (match o with
        | Returned g => Returned (schedule g)
        | Threw g => Threw (schedule g)
        end).

Definition run (g : t) : option Outcome := tickThenSchedule (with_paused g false).

Definition pause (g : t) : t :=
  mk (XonixLevel.with_timer (level g) (XonixTimer.pause (XonixLevel.timer (level g))))
     (ctx g) None true (clearTimeout (nextUpdate g) (timeouts g))
     (handles g) (listeners g).

(** The level object the game held, as [stop()] leaves it. *)
Definition stopped (g : t) : XonixLevel.t :=
  XonixLevel.with_timer (level g) (XonixTimer.stop (XonixLevel.timer (level g))).

Definition stop (g : t) : t :=
  mk XonixLevel.empty (ctx g) None (paused g)
     (clearTimeout (nextUpdate g) (timeouts g)) (handles g) (listeners g).

(** The argument of [start]: the level object the game holds already, or
    another object. *)
Inductive LevelArg := Held | Other (level : XonixLevel.t).

(** [start(level)]; [setup()] throws without a canvas and adds a
    [keydown] listener with one. *)
Definition start (arg : LevelArg) (g : t) : option Outcome :=
  let stopping := negb (isStopped g) in
  let held := if stopping then stopped g else level g in
  let g := if stopping then stop g else g in
  let g := with_level g (match arg with Held => held | Other level => level end) in
  if ctx g then
    let g := mk (level g) (ctx g) (nextUpdate g) (paused g) (timeouts g)
                (handles g) (S (listeners g)) in
    let g := with_level g (XonixGame.startTimer (level g)) in
    run g
  else Some (Threw g).

(** A timeout fires: nothing when it was cleared or has fired already. *)
Definition timeout (h : nat) (g : t) : option Outcome :=
  if decide (h ∈ timeouts g) then
    tickThenSchedule
      (mk (level g) (ctx g) (nextUpdate g) (paused g)
          (filter (fun h' => h' ≠ h) (timeouts g)) (handles g) (listeners g))
  else Some (Returned g).

(** [e.code] of a [keydown] event. *)
Inductive KeyCode := ArrowLeft | ArrowRight | ArrowUp | ArrowDown | AnotherKey.

(** The table [listeners] of [setupListeners]. *)
Definition arrowOf (code : KeyCode) : option (Q * Q) :=
  match code with
  | ArrowLeft => Some (-1, 0)%Q
  | ArrowRight => Some (1, 0)%Q
  | ArrowUp => Some (0, -1)%Q
  | ArrowDown => Some (0, 1)%Q
  | AnotherKey => None
  end.

(** A [keydown] event: every listener added so far runs. *)
Definition keydown (code : KeyCode) (g : t) : t :=
  match arrowOf code with
  | Some (xDirection, yDirection) =>
      with_level g
        (Nat.iter (listeners g) (XonixGame.arrowListener xDirection yDirection) (level g))
  | None => g
  end.

(** A second of the timer of the level the game holds. *)
Definition second (g : t) : t := with_level g (XonixLevel.timerTick (level g)).

End Game.

(** ** class XonixLevelBuilder *)

Module XonixLevelBuilder.

Record t := mk {
  field : XonixField.t;
  defaultPlayerPosition : XY.t;
  enemies : list Enemy.t;
  player : Player.t
}.

Definition new : t := mk (XonixField.new 0 0) XY.new [] Player.new.

Definition setDefaultPlayerPosition (x y : Q) (b : t) : t :=
  mk (field b) (XY.set (defaultPlayerPosition b) x y) (enemies b) (player b).

Definition resize (fieldWidth fieldHeight : nat) (b : t) : t :=
  mk (XonixField.new fieldWidth fieldHeight) (defaultPlayerPosition b)
     (enemies b) (player b).

Definition claimBorder (width : Z) (b : t) : t :=
  let fieldWidth := XonixField.width (field b) in
  let fieldHeight := XonixField.height (field b) in
  let f :=
    foldl (fun f x =>
             foldl (fun f i =>
                      XonixField.setCellByXY CLAIMED x (fieldHeight - i - 1)
                        (XonixField.setCellByXY CLAIMED x i f))
                   f (seqZ 0 width))
          (field b) (seqZ 0 fieldWidth) in
  let f :=
    foldl (fun f y =>
             foldl (fun f i =>
                      XonixField.setCellByXY CLAIMED (fieldWidth - i - 1) y
                        (XonixField.setCellByXY CLAIMED i y f))
                   f (seqZ 0 width))
          f (seqZ 0 fieldHeight) in
  mk f (defaultPlayerPosition b) (enemies b) (player b).

Definition spawn (c : Enemy.Class) (x y : Q) : Enemy.t :=
  Enemy.mk (Entity.mk (XY.mk x y) (XY.mk 1 1) 1) c.

Definition addEnemy (x y : Q) (b : t) : t :=
  mk (field b) (defaultPlayerPosition b)
     (enemies b ++ [spawn Enemy.IsEnemy x y]) (player b).

Definition addDestroyer (x y : Q) (b : t) : t :=
  mk (field b) (defaultPlayerPosition b)
     (enemies b ++ [spawn Enemy.IsDestroyer x y]) (player b).

Definition build (b : t) : XonixLevel.t :=
  let level := XonixLevel.new (field b) (enemies b) (player b) in
  let p := XonixLevel.player level in
  let level :=
    XonixLevel.with_player level
      (Player.with_entity p
         (Entity.with_position (Player.entity p)
            (XY.setFrom (Entity.position (Player.entity p)) (defaultPlayerPosition b)))) in
  XonixLevel.mk (XonixLevel.field level) (XonixLevel.enemies level)
    (XonixLevel.player level) (XonixLevel.claimRatioWin level)
    (defaultPlayerPosition b) (XonixLevel.countdownTime level)
    (XonixLevel.timer level) (XonixLevel.emitted level).

End XonixLevelBuilder.

(** * Vocabulary of the properties *)

Module FieldProps.
Import XonixField.

Definition cellAt (f : t) (i : Z) : option CellState := arr_get (cells f) i.
Definition flagAt (f : t) (i : Z) : option bool := arr_get (couldClaim f) i.
Definition area (f : t) : Z := width f * height f.

(** [(x, y)] is a cell of the grid. *)
Definition inside (f : t) (x y : Z) : Prop :=
  0 ≤ x < width f ∧ 0 ≤ y < height f.

(** The states a cell can hold; [OUT_OF_BOUNDS] is only ever returned. *)
Definition storable (s : CellState) : Prop := s ≠ OUT_OF_BOUNDS.

(** The shape every field built by the constructor and changed by writes
    inside the grid has: both arrays cover the grid exactly and every
    cell holds a storable state. *)
Record well_formed (f : t) : Prop := {
  wf_width : 0 ≤ width f;
  wf_height : 0 ≤ height f;
  wf_cells_length : arr_length (cells f) = area f;
  wf_flags_length : arr_length (couldClaim f) = area f;
  wf_cells : ∀ i, 0 ≤ i < area f → ∃ s, cellAt f i = Some s ∧ storable s;
  wf_flags : ∀ i, is_Some (flagAt f i) → 0 ≤ i < area f
}.

(** How many elements of [cells] hold [s]. *)
Definition occurrences (f : t) (s : CellState) : Z :=
  Z.of_nat (length (filter (fun i => cellAt f i = Some s)
                           (seqZ 0 (arr_length (cells f))))).

Definition counts_match (f : t) : Prop :=
  ∀ s, count_get (cellCount f) s = occurrences f s.

(** The three counters of the storable states add up to the grid. *)
Definition counts_total (f : t) : Prop :=
  count_get (cellCount f) CLAIMED + count_get (cellCount f) UNCLAIMED
  + count_get (cellCount f) CLAIMING = area f.

Record consistent (f : t) : Prop := {
  cons_wf : well_formed f;
  cons_match : counts_match f;
  cons_total : counts_total f
}.

(** The fields that arise from the constructor by writes inside the grid
    of a storable state, [claim] and [clearClaiming]. *)
Inductive arises : t → Prop :=
  | arises_new w h : arises (new w h)
  | arises_set f s x y :
      arises f → storable s → isOut f x y = false →
      arises (setCellByXY s x y f)
  | arises_claim f enemies f' :
      arises f → claim enemies f = Some f' → arises f'
  | arises_clearClaiming f : arises f → arises (clearClaiming f).

(** 4-neighbourhood. *)
Definition adjacent (x y x' y' : Z) : Prop :=
  (x' = x ∧ (y' = y + 1 ∨ y' = y - 1)) ∨ (y' = y ∧ (x' = x + 1 ∨ x' = x - 1)).

(** [(x, y)] is reached from [(sx, sy)] by a 4-connected path, all of
    whose cells, both ends included, are passable. *)
Inductive connected (pass : Z → Z → Prop) (sx sy : Z) : Z → Z → Prop :=
  | connected_seed : pass sx sy → connected pass sx sy sx sy
  | connected_step x y x' y' :
      connected pass sx sy x y → adjacent x y x' y' → pass x' y' →
      connected pass sx sy x' y'.

(** Not Claimed, as the grid stands. *)
Definition unclaimed_or_claiming (f : t) (x y : Z) : Prop :=
  getCell f x y = Some UNCLAIMED ∨ getCell f x y = Some CLAIMING.

(** Not Claimed once the trail has been sealed. *)
Definition unclaimed (f : t) (x y : Z) : Prop := getCell f x y = Some UNCLAIMED.

Definition roundedPosition (e : Enemy.t) : Z * Z :=
  (XY.xRounded (Entity.position (Enemy.entity e)),
   XY.yRounded (Entity.position (Enemy.entity e))).

(** Some enemy's rounded position is connected to [(x, y)]. *)
Definition reached (pass : Z → Z → Prop) (enemies : list Enemy.t) (x y : Z) : Prop :=
  ∃ e, e ∈ enemies ∧ connected pass (roundedPosition e).1 (roundedPosition e).2 x y.

Definition integral (q : Q) : Prop := (inject_Z (Qfloor q) == q)%Q.

(** The enemy stands exactly on a cell of the grid. *)
Definition on_a_cell (f : t) (e : Enemy.t) : Prop :=
  integral (XY.x (Entity.position (Enemy.entity e)))
  ∧ integral (XY.y (Entity.position (Enemy.entity e)))
  ∧ inside f (roundedPosition e).1 (roundedPosition e).2.

(** The flood property read on the grid as it stands before the call:
    whatever is not Claimed and connected to an enemy through cells that
    are not Claimed is not Claimed afterwards. *)
Definition keeps_reached_unsealed (enemies : list Enemy.t) (f : t) : Prop :=
  ∀ f', claim enemies f = Some f' →
  ∀ x y, unclaimed_or_claiming f x y →
         reached (unclaimed_or_claiming f) enemies x y →
         getCell f' x y ≠ Some CLAIMED.

(** *** The scan, index by index *)

(** Only the flags differ. *)
Definition same_cells (f f' : t) : Prop :=
  cells f' = cells f ∧ cellCount f' = cellCount f
  ∧ width f' = width f ∧ height f' = height f.

(** The flag of [i] has been lowered by a scan. *)
Definition lowered (f : t) (i : Z) : Prop := flagAt f i = Some false.

(** [i] is a cell of the grid that does not bound a fill. *)
Definition open (f : t) (i : Z) : Prop :=
  0 ≤ i < area f ∧ cellAt f i ≠ Some CLAIMED.

(** The four neighbours of a cell, as indices: the rows above and below,
    and the cells next to it in its own row. *)
Definition neighbours (f : t) (i j : Z) : Prop :=
  j = i + width f ∨ j = i - width f
  ∨ ((j = i + 1 ∨ j = i - 1) ∧ i / width f = j / width f).

(** The open cells connected to an open seed. *)
Inductive flooded (f : t) (seeds : list Z) : Z → Prop :=
  | flooded_seed s : s ∈ seeds → open f s → flooded f seeds s
  | flooded_step i j :
      flooded f seeds i → neighbours f i j → open f j → flooded f seeds j.

(** The index at which [claim] seeds the scan of an enemy, if any. *)
Definition seedIndex (f : t) (e : Enemy.t) : option Z :=
  as_index (XY.y (Entity.position (Enemy.entity e)) * inject_Z (width f)
            + XY.x (Entity.position (Enemy.entity e)))%Q.

(** The state of the scan loop: what has been lowered is flooded, and
    what is flooded next to it is lowered or waits on the stack. *)
Record scanning (g : t) (seeds : list Z) (f : t) (stack : list Z) : Prop := {
  scan_wf : well_formed f;
  scan_cells : same_cells g f;
  scan_flags : ∀ i, 0 ≤ i < area g → is_Some (flagAt f i);
  scan_sound : ∀ i, lowered f i → flooded g seeds i;
  scan_stack : ∀ j, j ∈ stack → open g j → flooded g seeds j;
  scan_closed : ∀ i j, lowered f i → neighbours g i j → open g j →
                       lowered f j ∨ j ∈ stack;
  scan_seeds : ∀ s, s ∈ seeds → open g s → lowered f s ∨ s ∈ stack
}.

(** The cells of [f] as a list of rows, for fields given in full. *)
Definition rows (f : t) : list (list (option CellState)) :=
  map (fun y => map (fun x => getCell f x y) (seqZ 0 (width f))) (seqZ 0 (height f)).

End FieldProps.

Module CollisionProps.
Import EntityMethods.

(** What the first call of [checkCollision] reports at one candidate. *)
Definition cellHit (level : XonixLevel.t) (currCell : option CellState) (x y : Z)
    : option Collision :=
  checkCollisionForPosition (cellProvider level) (cellPredicate currCell)
    cellFactory currCell x y.

(** What the second call reports at one candidate. *)
Definition entityHit (level : XonixLevel.t) (this : EntityRef)
    (currCell : option CellState) (x y : Z) : option Collision :=
  checkCollisionForPosition (entityProvider level) (entityPredicate this)
    entityFactory currCell x y.

(** The first report of a list of probes. *)
Definition firstOf (probes : list (option Collision)) : option Collision :=
  foldr or_else None probes.

(** Candidate by candidate, both providers at each. *)
Definition candidateMajor (level : XonixLevel.t) (this : EntityRef)
    (currX currY nextX nextY : Z) : option Collision :=
  let currCell := XonixField.getCell (XonixLevel.field level) currX currY in
  firstOf [ cellHit level currCell nextX currY; entityHit level this currCell nextX currY;
            cellHit level currCell currX nextY; entityHit level this currCell currX nextY;
            cellHit level currCell nextX nextY; entityHit level this currCell nextX nextY ].

(** Provider by provider, the three candidates for each. *)
Definition providerMajor (level : XonixLevel.t) (this : EntityRef)
    (currX currY nextX nextY : Z) : option Collision :=
  let currCell := XonixField.getCell (XonixLevel.field level) currX currY in
  firstOf [ cellHit level currCell nextX currY; cellHit level currCell currX nextY;
            cellHit level currCell nextX nextY;
            entityHit level this currCell nextX currY;
            entityHit level this currCell currX nextY;
            entityHit level this currCell nextX nextY ].

(** The arguments [update] passes to [checkCollision]. *)
Definition probeOf (e : Entity.t) (delta : Q) : Z * Z * Z * Z :=
  let deltaSpeed := (Entity.speed e * delta)%Q in
  let currX := XY.x (Entity.position e) in
  let currY := XY.y (Entity.position e) in
  (Qfloor currX, Qfloor currY,
   Qfloor (currX + XY.x (Entity.direction e) * deltaSpeed)%Q,
   Qfloor (currY + XY.y (Entity.direction e) * deltaSpeed)%Q).

(** Another entity of the level stands at [(x, y)]. *)
Definition otherStandsAt (level : XonixLevel.t) (this : EntityRef) (x y : Z) : Prop :=
  ∃ r, r ∈ XonixLevel.entities level ∧ r ≠ this ∧ standsAt level x y r = true.

End CollisionProps.

Module LevelProps.

(** How many times [n] was fired. *)
Definition fired (n : Notification) (l : XonixLevel.t) : nat :=
  length (filter (fun m => m = n) (XonixLevel.emitted l)).

(** The calls a level receives during its lifetime. *)
Inductive Call := Tick | Die | Claim | TimerTick.

Definition perform (c : Call) (l : XonixLevel.t) : option XonixLevel.t :=
  match c with
  | Tick => XonixGame.tick l
  | Die => Some (XonixLevel.die l)
  | Claim => XonixLevel.claim l
  | TimerTick => Some (XonixLevel.timerTick l)
  end.

Fixpoint performAll (cs : list Call) (l : XonixLevel.t) : option XonixLevel.t :=
  match cs with
  | [] => Some l
  | c :: cs' => l' ← perform c l; performAll cs' l'
  end.

(** From [l] to [l'] at most [won] "won" and [lost] "lost" notifications
    were fired, and no enemy was added or removed. *)
Definition adds (won lost : nat) (l l' : XonixLevel.t) : Prop :=
  (fired Won l' ≤ fired Won l + won)%nat
  ∧ (fired Lost l' ≤ fired Lost l + lost)%nat
  ∧ length (XonixLevel.enemies l') = length (XonixLevel.enemies l).

(** The property read on whole lifetimes. *)
Definition fires_at_most_once (n : Notification) (l : XonixLevel.t) : Prop :=
  ∀ cs l', performAll cs l = Some l' → (fired n l' ≤ fired n l + 1)%nat.

(** What one call can add: a tick runs [claim] at most once, from the
    player, and [die] at most once per entity. *)
Definition wonBudget (c : Call) : nat :=
  match c with Tick | Claim => 1 | Die | TimerTick => 0 end.

Definition lostBudget (l : XonixLevel.t) (c : Call) : nat :=
  match c with
  | Tick => S (length (XonixLevel.enemies l))
  | Die | TimerTick => 1
  | Claim => 0
  end.

(** The budget of a sequence of calls. *)
Fixpoint budget (f : Call → nat) (cs : list Call) : nat :=
  match cs with
  | [] => O
  | c :: cs' => (f c + budget f cs')%nat
  end.

End LevelProps.

Module ShapeProps.

(** The rounded position lies on a cell of the grid. *)
Definition stands_inside (f : XonixField.t) (p : XY.t) : Prop :=
  FieldProps.inside f (XY.xRounded p) (XY.yRounded p).

(** A level in good shape: its field is consistent and the player, the
    default position and every enemy are on the grid. *)
Record shipshape (l : XonixLevel.t) : Prop := {
  shape_field : FieldProps.consistent (XonixLevel.field l);
  shape_player :
    stands_inside (XonixLevel.field l)
      (Entity.position (Player.entity (XonixLevel.player l)));
  shape_spawn :
    stands_inside (XonixLevel.field l) (XonixLevel.defaultPlayerPosition l);
  shape_enemies :
    Forall (fun e => stands_inside (XonixLevel.field l)
                       (Entity.position (Enemy.entity e)))
           (XonixLevel.enemies l)
}.

(** A collision that reports the cell state it names. *)
Definition names_its_cell (level : XonixLevel.t) (c : Collision) : Prop :=
  ∀ s, collidedCellState c = Some s →
       XonixField.getCell (XonixLevel.field level) (col_x c) (col_y c) = Some s.

(** The arguments of the iterator calls of [forEachCell] on a grid of
    [w] columns and [h] rows, row by row. *)
Definition rowMajor (f : XonixField.t) : list (JsNumber * JsNumber * option CellState) :=
  flat_map (fun y => map (fun x => (Num (inject_Z x), Num (inject_Z y),
                                    XonixField.getCell f x y))
                         (seqZ 0 (XonixField.width f)))
           (seqZ 0 (XonixField.height f)).

(** [n] seconds of the level's timer. *)
Fixpoint timerTicks (n : nat) (l : XonixLevel.t) : XonixLevel.t :=
  match n with
  | O => l
  | S n' => timerTicks n' (XonixLevel.timerTick l)
  end.

(** The cells within [k] of an edge of the grid. *)
Definition onBorder (f : XonixField.t) (k x y : Z) : Prop :=
  x < k ∨ XonixField.width f - k ≤ x ∨ y < k ∨ XonixField.height f - k ≤ y.

(** From [l] to [l'] the level stays in good shape and its grid keeps
    its size. *)
Definition kept (l l' : XonixLevel.t) : Prop :=
  shipshape l'
  ∧ XonixField.width (XonixLevel.field l') = XonixField.width (XonixLevel.field l)
  ∧ XonixField.height (XonixLevel.field l') = XonixField.height (XonixLevel.field l).

(** What happens to a level while it is played: the calls of its
    lifetime, the arrow keys and the start of its timer. *)
Inductive Event :=
  | Call (c : LevelProps.Call)
  | ArrowKey (xDirection yDirection : Q)
  | Started.

Definition happen (e : Event) (l : XonixLevel.t) : option XonixLevel.t :=
  match e with
  | Call c => LevelProps.perform c l
  | ArrowKey xDirection yDirection => Some (XonixGame.arrowListener xDirection yDirection l)
  | Started => Some (XonixGame.startTimer l)
  end.

Fixpoint happenAll (es : list Event) (l : XonixLevel.t) : option XonixLevel.t :=
  match es with
  | [] => Some l
  | e :: es' => l' ← happen e l; happenAll es' l'
  end.

(** No cell of the grid reads Claiming. *)
Definition no_trail (f : XonixField.t) : Prop :=
  ∀ x y, XonixField.getCell f x y ≠ Some CLAIMING.

(** The trail is where it belongs: never under the player, and nowhere
    at all unless the player is claiming. *)
Definition trail_behind (l : XonixLevel.t) : Prop :=
  XonixField.getCell (XonixLevel.field l)
    (XY.xRounded (Entity.position (Player.entity (XonixLevel.player l))))
    (XY.yRounded (Entity.position (Player.entity (XonixLevel.player l))))
  ≠ Some CLAIMING
  ∧ (Player.claiming (XonixLevel.player l) = false → no_trail (XonixLevel.field l)).

Definition tidy (l : XonixLevel.t) : Prop := shipshape l ∧ trail_behind l.

(** The calls made on a builder inside [apply]. *)
Inductive BuilderCall :=
  | Resize (fieldWidth fieldHeight : nat)
  | ClaimBorder (width : Z)
  | SetDefaultPlayerPosition (x y : Q)
  | AddEnemy (x y : Q)
  | AddDestroyer (x y : Q).

Definition callBuilder (c : BuilderCall) (b : XonixLevelBuilder.t) : XonixLevelBuilder.t :=
  match c with
  | Resize fieldWidth fieldHeight => XonixLevelBuilder.resize fieldWidth fieldHeight b
  | ClaimBorder width => XonixLevelBuilder.claimBorder width b
  | SetDefaultPlayerPosition x y => XonixLevelBuilder.setDefaultPlayerPosition x y b
  | AddEnemy x y => XonixLevelBuilder.addEnemy x y b
  | AddDestroyer x y => XonixLevelBuilder.addDestroyer x y b
  end.

Fixpoint callAll (cs : list BuilderCall) (b : XonixLevelBuilder.t) : XonixLevelBuilder.t :=
  match cs with
  | [] => b
  | c :: cs' => callAll cs' (callBuilder c b)
  end.

(** The arguments of a call suit the builder it is made on: a border no
    wider than the grid, an enemy placed on the grid, and a grid resized
    around the enemies already placed. *)
Definition fits (b : XonixLevelBuilder.t) (c : BuilderCall) : Prop :=
  match c with
  | Resize fieldWidth fieldHeight =>
      Forall (fun e => 0 ≤ XY.xRounded (Entity.position (Enemy.entity e)) < Z.of_nat fieldWidth
                       ∧ 0 ≤ XY.yRounded (Entity.position (Enemy.entity e)) < Z.of_nat fieldHeight)
             (XonixLevelBuilder.enemies b)
  | ClaimBorder width =>
      width ≤ XonixField.width (XonixLevelBuilder.field b)
      ∧ width ≤ XonixField.height (XonixLevelBuilder.field b)
  | SetDefaultPlayerPosition _ _ => True
  | AddEnemy x y | AddDestroyer x y =>
      FieldProps.inside (XonixLevelBuilder.field b) (Qfloor x) (Qfloor y)
  end.

Fixpoint fitsAll (cs : list BuilderCall) (b : XonixLevelBuilder.t) : Prop :=
  match cs with
  | [] => True
  | c :: cs' => fits b c ∧ fitsAll cs' (callBuilder c b)
  end.

(** A builder whose level will be in good shape wherever the default
    position is put on the grid. *)
Definition sound (b : XonixLevelBuilder.t) : Prop :=
  FieldProps.consistent (XonixLevelBuilder.field b)
  ∧ no_trail (XonixLevelBuilder.field b)
  ∧ Forall (fun e => stands_inside (XonixLevelBuilder.field b)
                       (Entity.position (Enemy.entity e)))
           (XonixLevelBuilder.enemies b).

End ShapeProps.

Module GameProps.
Import ShapeProps.

(** The level [XonixLevel.empty()] and what becomes of it: no grid, no
    enemy, and a player that is not claiming. *)
Definition vacant (l : XonixLevel.t) : Prop :=
  XonixLevel.field l = XonixField.new 0 0
  ∧ XonixLevel.enemies l = []
  ∧ Player.claiming (XonixLevel.player l) = false.

Definition playable (l : XonixLevel.t) : Prop := shipshape l ∨ vacant l.

(** What happens to a game object. *)
Inductive GameEvent :=
  | Start (arg : Game.LevelArg)
  | Pause
  | Stop
  | Run
  | Timeout (h : nat)
  | Keydown (code : Game.KeyCode)
  | Second.

Definition occur (e : GameEvent) (g : Game.t) : option Game.Outcome :=
  match e with
  | Start arg => Game.start arg g
  | Pause => Some (Game.Returned (Game.pause g))
  | Stop => Some (Game.Returned (Game.stop g))
  | Run => Game.run g
  | Timeout h => Game.timeout h g
  | Keydown code => Some (Game.Returned (Game.keydown code g))
  | Second => Some (Game.Returned (Game.second g))
  end.

Definition threw (o : Game.Outcome) : bool :=
  match o with Game.Returned _ => false | Game.Threw _ => true end.

(** A sequence of events; the game goes on after a call that threw.  The
    boolean tells whether any call threw. *)
Fixpoint occurAll (es : list GameEvent) (g : Game.t) : option (Game.t * bool) :=
  match es with
  | [] => Some (g, false)
  | e :: es' =>
      o ← occur e g;
      r ← occurAll es' (Game.after o);
      Some (r.1, threw o || r.2)
  end.

(** Every level handed to [start] is in good shape. *)
Definition startsPlayable (e : GameEvent) : Prop :=
  match e with
  | Start (Game.Other l) => shipshape l
  | _ => True
  end.

(** The one chain of ticks: the only timeout set is the one [nextUpdate]
    names. *)
Definition single_chain (g : Game.t) : Prop :=
  Game.timeouts g = match Game.nextUpdate g with Some h => [h] | None => [] end
  ∧ ∀ h, h ∈ Game.timeouts g → (h ≤ Game.handles g)%nat.

(** [run()] is only called on a game that is not running. *)
Fixpoint orderly (es : list GameEvent) (g : Game.t) : Prop :=
  match es with
  | [] => True
  | e :: es' =>
      (e = Run → Game.isRunning g = false)
      ∧ match occur e g with
        | Some o => orderly es' (Game.after o)
        | None => True
        end
  end.

End GameProps.

(** * The timer *)

Module TimerFacts.
Import XonixTimer.

Lemma start_fresh (cd : bool) (n : Z) (tm : t) :
  paused tm = false →
  start cd n tm = mk n (Some (mkInterval cd (if cd then -1 else 1))) false.
Proof. intros Hp. unfold start. rewrite Hp. simpl. by rewrite Hp. Qed.

Lemma tick_paused (tm : t) : paused tm = true → tick tm = (tm, false).
Proof.
  intros Hp. unfold tick. destruct (interval tm) as [iv|]; [|done].
  unfold callback. by rewrite Hp.
Qed.

Lemma ticks_paused (n : nat) (tm : t) : paused tm = true → ticks n tm = (tm, O).
Proof.
  intros Hp. induction n as [|n IH]; [done|].
  simpl. rewrite (tick_paused _ Hp), IH. done.
Qed.

Lemma tick_countdown (s : Z) :
  tick (mk s (Some (mkInterval true (-1))) false)
  = if s - 1 <? 0
    then (mk (s - 1) (Some (mkInterval true (-1))) true, true)
    else (mk (s - 1) (Some (mkInterval true (-1))) false, false).
Proof.
  unfold tick, callback. simpl. replace (s + -1) with (s - 1) by lia.
  by destruct (s - 1 <? 0).
Qed.

(** C7.  A timer that is not paused and is started with
    [start(true, 3)]: after each of the first three seconds it has counted
    down by one, is at 0 after the third, and no time-up was fired; the
    fourth second takes it to -1, fires the time-up and pauses it, and
    however many more seconds pass that time-up remains the only one.
    [toString] formats [max(0, seconds)], never a negative duration:
    minutes and seconds are each between 0 and 59. *)
Theorem countdown_from_three (tm : t) :
  paused tm = false →
  let started := start true 3 tm in
  (∀ n, (n ≤ 3)%nat →
        ticks n started = (mk (3 - Z.of_nat n) (interval started) false, O))
  ∧ seconds (ticks 3 started).1 = 0
  ∧ (ticks 3 started).2 = O
  ∧ tick (ticks 3 started).1 = (mk (-1) (interval started) true, true)
  ∧ (∀ n, (4 ≤ n)%nat →
          ticks n started = (mk (-1) (interval started) true, 1%nat))
  ∧ (∀ any : t,
       0 ≤ shownMillis any
       ∧ ∃ m s, 0 ≤ m < 60 ∧ 0 ≤ s < 60
                ∧ m * 60 + s = Z.max 0 (seconds any) mod 3600
                ∧ toString any = (twoDigits m ++ ":" ++ twoDigits s)%string).
Proof.
  intros Hp started. unfold started. rewrite (start_fresh _ _ _ Hp). simpl interval.
  assert (H3 : ∀ n, (n ≤ 3)%nat →
             ticks n (mk 3 (Some (mkInterval true (-1))) false)
             = (mk (3 - Z.of_nat n) (Some (mkInterval true (-1))) false, O)).
  { intros n Hn.
    destruct n as [|[|[|[|n]]]]; [reflexivity..|lia]. }
  split; [exact H3|].
  split; [reflexivity|]. split; [reflexivity|]. split; [reflexivity|].
  split.
  - intros n Hn. destruct n as [|[|[|[|n]]]]; [lia..|].
    change (S (S (S (S n)))) with (4 + n)%nat.
    cbn [Nat.add ticks].
    rewrite !tick_countdown. simpl.
    rewrite ticks_paused by done. done.
  - intros any. split.
    + unfold shownMillis. lia.
    + unfold toString, formatDate_mmss, shownMillis.
      set (d := Z.max 0 (seconds any)).
      assert (0 ≤ d) by (unfold d; lia).
      exists ((d * 1000 / 60000) mod 60), ((d * 1000 / 1000) mod 60).
      split; [apply Z.mod_pos_bound; lia|].
      split; [apply Z.mod_pos_bound; lia|].
      split; [|done].
      rewrite Z.div_mul by lia.
      replace (d * 1000 / 60000) with (d / 60).
      2:{ replace 60000 with (60 * 1000) by lia.
          rewrite Z.div_mul_cancel_r by lia. done. }
      assert (Hq := Z.div_mod d 60 ltac:(lia)).
      assert (Hr := Z.mod_pos_bound d 60 ltac:(lia)).
      assert (Hq2 := Z.div_mod (d / 60) 60 ltac:(lia)).
      assert (Hr2 := Z.mod_pos_bound (d / 60) 60 ltac:(lia)).
      apply Z.mod_unique with (q := d / 60 / 60); lia.
Qed.

Lemma countdown_from_three_witness :
  paused new = false ∧ (ticks 4 (start true 3 new)).2 = 1%nat.
Proof.
  split; [reflexivity|].
  destruct (countdown_from_three new eq_refl) as (_ & _ & _ & _ & H & _).
  by rewrite (H 4%nat).
Defined.

End TimerFacts.

(** * The field: writes, sweeps and the occupancy counts *)

Module FieldFacts.
Import XonixField FieldProps.

Lemma cellAt_setCellDirect v i f j :
  cellAt (setCellDirect v i f) j = if decide (i = j) then Some v else cellAt f j.
Proof. unfold cellAt, setCellDirect, arr_get, arr_set. simpl. apply lookup_insert. Qed.

Lemma flagAt_setCellDirect v i f j : flagAt (setCellDirect v i f) j = flagAt f j.
Proof. done. Qed.

Lemma length_setCellDirect v i f :
  0 ≤ i < arr_length (cells f) →
  arr_length (cells (setCellDirect v i f)) = arr_length (cells f).
Proof. intros Hi. unfold setCellDirect, arr_set. simpl. case_decide; lia. Qed.

Lemma area_setCellDirect v i f : area (setCellDirect v i f) = area f.
Proof. done. Qed.

(** A loop over indices that writes [v] where a test holds. *)
Section Sweep.
Context (step : t → Z → t) (c : t → Z → bool) (v : CellState).
Hypothesis step_eq : ∀ f i, step f i = if c f i then setCellDirect v i f else f.
Hypothesis c_local : ∀ f j v' i, j ≠ i → c (setCellDirect v' j f) i = c f i.

Lemma sweep_frame (ixs : list Z) (f : t) :
  couldClaim (foldl step f ixs) = couldClaim f
  ∧ width (foldl step f ixs) = width f
  ∧ height (foldl step f ixs) = height f.
Proof.
  revert f. induction ixs as [|a ixs IH]; intros f; [done|].
  simpl. destruct (IH (step f a)) as (-> & -> & ->).
  rewrite step_eq. by destruct (c f a).
Qed.

Lemma sweep_length (ixs : list Z) (f : t) :
  (∀ i, i ∈ ixs → 0 ≤ i < arr_length (cells f)) →
  arr_length (cells (foldl step f ixs)) = arr_length (cells f).
Proof.
  revert f. induction ixs as [|a ixs IH]; intros f Hin; [done|].
  simpl.
  assert (Ha : arr_length (cells (step f a)) = arr_length (cells f)).
  { rewrite step_eq. destruct (c f a); [|done].
    apply length_setCellDirect, Hin. apply elem_of_cons; by left. }
  rewrite IH, Ha; [done|]. intros i Hi. rewrite Ha. apply Hin. apply elem_of_cons; by right.
Qed.

Lemma sweep_cellAt (ixs : list Z) (f : t) (i : Z) :
  NoDup ixs →
  cellAt (foldl step f ixs) i
  = if decide (i ∈ ixs) then (if c f i then Some v else cellAt f i) else cellAt f i.
Proof.
  revert f. induction ixs as [|a ixs IH]; intros f Hnd.
  { simpl. destruct (decide (i ∈ [])) as [H|H]; [|done]. by apply not_elem_of_nil in H. }
  apply NoDup_cons in Hnd as [Ha Hnd]. simpl. rewrite (IH _ Hnd).
  rewrite (step_eq f a).
  destruct (decide (i = a)) as [->|Hne].
  - rewrite decide_False by done. rewrite decide_True by (apply elem_of_cons; by left).
    destruct (c f a); [|done]. rewrite cellAt_setCellDirect. by rewrite decide_True.
  - destruct (decide (i ∈ ixs)) as [Hi|Hi].
    + rewrite decide_True by (apply elem_of_cons; by right).
      destruct (c f a); [|done].
      rewrite c_local by done. rewrite cellAt_setCellDirect.
      by rewrite decide_False.
    + rewrite decide_False.
      2:{ intros [?|?]%elem_of_cons; done. }
      destruct (c f a); [|done]. rewrite cellAt_setCellDirect.
      by rewrite decide_False.
Qed.
End Sweep.

Lemma elem_of_seqZ_0 (n i : Z) : i ∈ seqZ 0 n ↔ 0 ≤ i < n.
Proof. rewrite elem_of_seqZ. lia. Qed.

(** The three loops that [claim] and [clearClaiming] make over [cells]. *)

Lemma claimTrail_frame f :
  couldClaim (claimTrail f) = couldClaim f
  ∧ width (claimTrail f) = width f ∧ height (claimTrail f) = height f
  ∧ arr_length (cells (claimTrail f)) = arr_length (cells f).
Proof.
  unfold claimTrail.
  set (c := fun f i => bool_decide (arr_get (cells f) i = Some CLAIMING)).
  assert (Hs : ∀ f i, (if decide (arr_get (cells f) i = Some CLAIMING)
                       then setCellDirect CLAIMED i f else f)
                      = if c f i then setCellDirect CLAIMED i f else f).
  { intros g i. unfold c. by case_decide; [rewrite bool_decide_true|rewrite bool_decide_false]. }
  destruct (sweep_frame _ c CLAIMED Hs (seqZ 0 (arr_length (cells f))) f) as (-> & -> & ->).
  rewrite (sweep_length _ c CLAIMED Hs); [done|].
  intros i. by rewrite elem_of_seqZ_0.
Qed.

Lemma cellAt_claimTrail f i :
  cellAt (claimTrail f) i
  = if decide (0 ≤ i < arr_length (cells f) ∧ cellAt f i = Some CLAIMING)
    then Some CLAIMED else cellAt f i.
Proof.
  unfold claimTrail.
  set (c := fun f i => bool_decide (arr_get (cells f) i = Some CLAIMING)).
  rewrite (sweep_cellAt _ c CLAIMED).
  - unfold c, cellAt. repeat case_decide; try case_bool_decide; try done.
    + rewrite elem_of_seqZ_0 in *. tauto.
    + rewrite elem_of_seqZ_0 in *. tauto.
    + rewrite elem_of_seqZ_0 in *. tauto.
  - intros g j. unfold c. by case_decide; [rewrite bool_decide_true|rewrite bool_decide_false].
  - intros g j v' k Hne. unfold c.
    change (arr_get (cells ?g) ?k) with (cellAt g k).
    rewrite cellAt_setCellDirect. by rewrite decide_False.
  - apply NoDup_seqZ.
Qed.

Lemma clearClaiming_frame f :
  couldClaim (clearClaiming f) = couldClaim f
  ∧ width (clearClaiming f) = width f ∧ height (clearClaiming f) = height f
  ∧ arr_length (cells (clearClaiming f)) = arr_length (cells f).
Proof.
  unfold clearClaiming.
  set (c := fun f i => bool_decide (arr_get (cells f) i = Some CLAIMING)).
  assert (Hs : ∀ f i, (if decide (arr_get (cells f) i = Some CLAIMING)
                       then setCellDirect UNCLAIMED i f else f)
                      = if c f i then setCellDirect UNCLAIMED i f else f).
  { intros g i. unfold c. by case_decide; [rewrite bool_decide_true|rewrite bool_decide_false]. }
  destruct (sweep_frame _ c UNCLAIMED Hs (seqZ 0 (arr_length (cells f))) f) as (-> & -> & ->).
  rewrite (sweep_length _ c UNCLAIMED Hs); [done|].
  intros i. by rewrite elem_of_seqZ_0.
Qed.

Lemma cellAt_clearClaiming f i :
  cellAt (clearClaiming f) i
  = if decide (0 ≤ i < arr_length (cells f) ∧ cellAt f i = Some CLAIMING)
    then Some UNCLAIMED else cellAt f i.
Proof.
  unfold clearClaiming.
  set (c := fun f i => bool_decide (arr_get (cells f) i = Some CLAIMING)).
  rewrite (sweep_cellAt _ c UNCLAIMED).
  - unfold c, cellAt. repeat case_decide; try case_bool_decide; try done.
    + rewrite elem_of_seqZ_0 in *. tauto.
    + rewrite elem_of_seqZ_0 in *. tauto.
    + rewrite elem_of_seqZ_0 in *. tauto.
  - intros g j. unfold c. by case_decide; [rewrite bool_decide_true|rewrite bool_decide_false].
  - intros g j v' k Hne. unfold c.
    change (arr_get (cells ?g) ?k) with (cellAt g k).
    rewrite cellAt_setCellDirect. by rewrite decide_False.
  - apply NoDup_seqZ.
Qed.

Lemma claimRaised_frame f :
  arr_length (couldClaim f) ≤ arr_length (cells f) →
  couldClaim (claimRaised f) = couldClaim f
  ∧ width (claimRaised f) = width f ∧ height (claimRaised f) = height f
  ∧ arr_length (cells (claimRaised f)) = arr_length (cells f).
Proof.
  intros Hlen. unfold claimRaised.
  set (c := fun f i => truthy (arr_get (couldClaim f) i)).
  assert (Hs : ∀ f i, (if truthy (arr_get (couldClaim f) i)
                       then setCellDirect CLAIMED i f else f)
                      = if c f i then setCellDirect CLAIMED i f else f) by done.
  destruct (sweep_frame _ c CLAIMED Hs (seqZ 0 (arr_length (couldClaim f))) f) as (-> & -> & ->).
  rewrite (sweep_length _ c CLAIMED Hs); [done|].
  intros i. rewrite elem_of_seqZ_0. lia.
Qed.

Lemma cellAt_claimRaised f i :
  cellAt (claimRaised f) i
  = if decide (0 ≤ i < arr_length (couldClaim f) ∧ flagAt f i = Some true)
    then Some CLAIMED else cellAt f i.
Proof.
  unfold claimRaised.
  set (c := fun f i => truthy (arr_get (couldClaim f) i)).
  rewrite (sweep_cellAt _ c CLAIMED); [|done|done|apply NoDup_seqZ].
  unfold c, flagAt.
  destruct (decide (i ∈ seqZ 0 (arr_length (couldClaim f)))) as [Hi|Hi];
    rewrite elem_of_seqZ_0 in Hi.
  - destruct (arr_get (couldClaim f) i) as [[]|]; simpl.
    + by rewrite decide_True.
    + rewrite decide_False; [done|]. by intros [_ ?].
    + rewrite decide_False; [done|]. by intros [_ ?].
  - rewrite decide_False; [done|]. by intros [? _].
Qed.

(** ** The occupancy counts *)

Lemma count_get_add c s d s' :
  count_get (count_add c s d) s' = count_get c s' + (if decide (s = s') then d else 0).
Proof. destruct s, s'; simpl; lia. Qed.

Lemma length_filter_ext (P R : Z → Prop) `{!∀ x, Decision (P x)} `{!∀ x, Decision (R x)}
    (l : list Z) :
  (∀ j, j ∈ l → P j ↔ R j) → length (filter R l) = length (filter P l).
Proof.
  induction l as [|a l IH]; intros Hext; [done|].
  rewrite !filter_cons.
  assert (Ha : P a ↔ R a) by (apply Hext, elem_of_cons; by left).
  assert (Hl : length (filter R l) = length (filter P l)).
  { apply IH. intros j Hj. apply Hext, elem_of_cons. by right. }
  destruct (decide (R a)), (decide (P a)); simpl; first [by rewrite Hl | exfalso; tauto].
Qed.

Lemma length_filter_flip (P R : Z → Prop) `{!∀ x, Decision (P x)} `{!∀ x, Decision (R x)}
    (l : list Z) (i : Z) :
  NoDup l → i ∈ l → (∀ j, j ≠ i → P j ↔ R j) →
  Z.of_nat (length (filter R l))
  = Z.of_nat (length (filter P l))
    - (if decide (P i) then 1 else 0) + (if decide (R i) then 1 else 0).
Proof.
  induction l as [|a l IH]; intros Hnd Hi Hext.
  { by apply not_elem_of_nil in Hi. }
  apply NoDup_cons in Hnd as [Ha Hnd].
  rewrite !filter_cons.
  destruct (decide (i = a)) as [->|Hne].
  - assert (Hl : length (filter R l) = length (filter P l)).
    { apply length_filter_ext. intros j Hj. apply Hext. by intros ->. }
    destruct (decide (R a)), (decide (P a)); simpl; lia.
  - apply elem_of_cons in Hi as [Hi|Hi]; [done|].
    specialize (IH Hnd Hi Hext).
    assert (Hpa : P a ↔ R a) by (apply Hext; congruence).
    destruct (decide (R a)), (decide (P a)); simpl; first [lia | exfalso; tauto].
Qed.

Lemma occurrences_setCellDirect v i f old s :
  0 ≤ i < arr_length (cells f) → cellAt f i = Some old →
  occurrences (setCellDirect v i f) s
  = occurrences f s - (if decide (old = s) then 1 else 0)
    + (if decide (v = s) then 1 else 0).
Proof.
  intros Hi Hold. unfold occurrences. rewrite length_setCellDirect by done.
  rewrite (length_filter_flip (fun j => cellAt f j = Some s)
             (fun j => cellAt (setCellDirect v i f) j = Some s) _ i).
  - rewrite cellAt_setCellDirect, Hold.
    destruct (decide (i = i)) as [_|]; [|done].
    repeat case_decide; congruence || lia.
  - apply NoDup_seqZ.
  - by apply elem_of_seqZ_0.
  - intros j Hj. rewrite cellAt_setCellDirect. by rewrite decide_False.
Qed.

Lemma occurrences_bounds f s : 0 ≤ occurrences f s ≤ Z.max 0 (arr_length (cells f)).
Proof.
  unfold occurrences. split; [lia|].
  etrans; [apply inj_le, length_filter|]. rewrite length_seqZ. lia.
Qed.

(** A write inside the grid of a storable state keeps the field
    consistent. *)
Lemma setCellDirect_consistent v i f :
  storable v → 0 ≤ i < area f → consistent f → consistent (setCellDirect v i f).
Proof.
  intros Hv Hi [Hwf Hm Ht].
  destruct (wf_cells f Hwf i Hi) as (old & Hold & Hs).
  assert (Hlen : 0 ≤ i < arr_length (cells f)) by (by rewrite (wf_cells_length f Hwf)).
  split.
  - split; try apply Hwf.
    + rewrite length_setCellDirect by done. apply Hwf.
    + intros j Hj. rewrite cellAt_setCellDirect. case_decide; [by eexists|].
      by apply Hwf.
  - intros s. rewrite (occurrences_setCellDirect v i f old s Hlen Hold), <- Hm.
    unfold setCellDirect. simpl. fold (cellAt f i). rewrite Hold.
    rewrite !count_get_add. repeat case_decide; lia.
  - unfold counts_total in *. rewrite area_setCellDirect, <- Ht.
    unfold setCellDirect. simpl. fold (cellAt f i). rewrite Hold.
    destruct old, v; try done; simpl; lia.
Qed.

Lemma setCellByXY_consistent v x y f :
  storable v → isOut f x y = false → consistent f → consistent (setCellByXY v x y f).
Proof.
  intros Hv Hout Hc. apply setCellDirect_consistent; [done| |done].
  unfold isOut in Hout. unfold efficientIndex, area.
  apply orb_false_iff in Hout as [Hout Hy2]. apply orb_false_iff in Hout as [Hout Hy1].
  apply orb_false_iff in Hout as [Hx1 Hx2].
  apply Z.ltb_ge in Hx1, Hy1. apply Z.leb_gt in Hx2, Hy2. nia.
Qed.

(** Loops that write a storable state at indices of the grid. *)
Lemma foldl_consistent (step : t → Z → t) (v : CellState) (ixs : list Z) (f : t) :
  storable v →
  (∀ g i, step g i = g ∨ step g i = setCellDirect v i g) →
  (∀ i, i ∈ ixs → 0 ≤ i < area f) →
  consistent f → consistent (foldl step f ixs).
Proof.
  intros Hv Hstep. revert f. induction ixs as [|a ixs IH]; intros f Hin Hc; [done|].
  simpl.
  assert (Ha : 0 ≤ a < area f) by (apply Hin, elem_of_cons; by left).
  assert (Harea : area (step f a) = area f).
  { destruct (Hstep f a) as [->| ->]; done. }
  apply IH.
  - intros i Hi. rewrite Harea. apply Hin, elem_of_cons. by right.
  - destruct (Hstep f a) as [->| ->]; [done|]. by apply setCellDirect_consistent.
Qed.

Lemma claimTrail_consistent f : consistent f → consistent (claimTrail f).
Proof.
  intros Hc. unfold claimTrail. apply foldl_consistent with (v := CLAIMED); try done.
  - intros g i. case_decide; auto.
  - intros i. rewrite elem_of_seqZ_0, (wf_cells_length f); [done|apply Hc].
Qed.

Lemma clearClaiming_consistent f : consistent f → consistent (clearClaiming f).
Proof.
  intros Hc. unfold clearClaiming. apply foldl_consistent with (v := UNCLAIMED); try done.
  - intros g i. case_decide; auto.
  - intros i. rewrite elem_of_seqZ_0, (wf_cells_length f); [done|apply Hc].
Qed.

Lemma claimRaised_consistent f : consistent f → consistent (claimRaised f).
Proof.
  intros Hc. unfold claimRaised. apply foldl_consistent with (v := CLAIMED); try done.
  - intros g i. destruct (truthy _); auto.
  - intros i. rewrite elem_of_seqZ_0, (wf_flags_length f); [done|apply Hc].
Qed.

(** Changing flags only, inside the grid, keeps the field consistent. *)
Lemma consistent_flags f cc :
  consistent f → arr_length cc = area f →
  (∀ i, is_Some (arr_get cc i) → 0 ≤ i < area f) →
  consistent (with_couldClaim f cc).
Proof.
  intros [Hwf Hm Ht] Hlen Hkeys. split; [|done|done].
  split; try apply Hwf; done.
Qed.

Lemma arr_set_inside {A} (a : JsArray A) i v :
  0 ≤ i < arr_length a → arr_length (arr_set a i v) = arr_length a.
Proof. intros Hi. unfold arr_set. simpl. case_decide; lia. Qed.

Lemma arr_get_set {A} (a : JsArray A) i v j :
  arr_get (arr_set a i v) j = if decide (i = j) then Some v else arr_get a j.
Proof. unfold arr_get, arr_set. simpl. apply lookup_insert. Qed.

Lemma couldClaim_with f cc : couldClaim (with_couldClaim f cc) = cc.
Proof. done. Qed.

Lemma resetCouldClaim_spec f :
  cells (resetCouldClaim f) = cells f ∧ cellCount (resetCouldClaim f) = cellCount f
  ∧ width (resetCouldClaim f) = width f ∧ height (resetCouldClaim f) = height f
  ∧ arr_length (couldClaim (resetCouldClaim f)) = arr_length (couldClaim f)
  ∧ ∀ i, flagAt (resetCouldClaim f) i
         = if decide (0 ≤ i < arr_length (couldClaim f)) then Some true else flagAt f i.
Proof.
  unfold resetCouldClaim.
  assert (H : ∀ ixs g,
    (∀ i, i ∈ ixs → 0 ≤ i < arr_length (couldClaim g)) →
    let r := foldl (fun f i => with_couldClaim f (arr_set (couldClaim f) i true)) g ixs in
    cells r = cells g ∧ cellCount r = cellCount g ∧ width r = width g
    ∧ height r = height g ∧ arr_length (couldClaim r) = arr_length (couldClaim g)
    ∧ ∀ i, flagAt r i = if decide (i ∈ ixs) then Some true else flagAt g i).
  { induction ixs as [|a ixs IH]; intros g Hin r.
    - repeat split; done.
    - subst r. simpl.
      assert (Ha : 0 ≤ a < arr_length (couldClaim g)) by (apply Hin, elem_of_cons; by left).
      destruct (IH (with_couldClaim g (arr_set (couldClaim g) a true)))
        as (-> & -> & -> & -> & -> & Hf).
      { intros i Hi. rewrite couldClaim_with, arr_set_inside by done.
        apply Hin, elem_of_cons. by right. }
      rewrite couldClaim_with, arr_set_inside by done. repeat split; try done.
      intros i. rewrite Hf. unfold flagAt. rewrite couldClaim_with, arr_get_set.
      destruct (decide (i ∈ ixs)) as [Hi|Hi].
      + rewrite decide_True; [done|]. apply elem_of_cons. by right.
      + destruct (decide (a = i)) as [->|Hne].
        * rewrite decide_True; [done|]. apply elem_of_cons. by left.
        * rewrite decide_False; [done|]. intros [?|?]%elem_of_cons; congruence. }
  destruct (H (seqZ 0 (arr_length (couldClaim f))) f) as (? & ? & ? & ? & ? & Hf).
  { intros i. by rewrite elem_of_seqZ_0. }
  repeat split; try done. intros i. rewrite Hf.
  destruct (decide (i ∈ seqZ 0 (arr_length (couldClaim f)))) as [Hi|Hi];
    rewrite elem_of_seqZ_0 in Hi; [by rewrite decide_True|by rewrite decide_False].
Qed.

Lemma resetCouldClaim_consistent f : consistent f → consistent (resetCouldClaim f).
Proof.
  intros Hc. destruct (resetCouldClaim_spec f) as (Hcells & Hcount & Hw & Hh & Hlen & Hf).
  assert (Hwf := cons_wf f Hc).
  assert (Heq : resetCouldClaim f = with_couldClaim f (couldClaim (resetCouldClaim f))).
  { destruct (resetCouldClaim f). unfold with_couldClaim. simpl in *. congruence. }
  rewrite Heq. apply consistent_flags; [done| |].
  - rewrite Hlen. apply Hwf.
  - intros i. change (arr_get (couldClaim (resetCouldClaim f)) i)
      with (flagAt (resetCouldClaim f) i).
    rewrite Hf. rewrite (wf_flags_length f Hwf).
    case_decide; [done|]. apply Hwf.
Qed.

(** ** The span fill: one row *)

Lemma flagAt_mark f i j :
  flagAt (mark f i) j = if decide (i = j) then Some false else flagAt f j.
Proof. unfold flagAt, mark. rewrite couldClaim_with. apply arr_get_set. Qed.

Lemma mark_same_cells f i : same_cells f (mark f i).
Proof. done. Qed.

Lemma same_cells_refl f : same_cells f f.
Proof. done. Qed.

Lemma same_cells_trans f g h : same_cells f g → same_cells g h → same_cells f h.
Proof. intros (? & ? & ? & ?) (? & ? & ? & ?). repeat split; congruence. Qed.

Lemma shouldStopScan_false f i :
  shouldStopScan f i = false ↔ cellAt f i ≠ Some CLAIMED ∧ flagAt f i = Some true.
Proof.
  unfold shouldStopScan, cellAt, flagAt.
  rewrite orb_false_iff, bool_decide_eq_false, negb_false_iff.
  destruct (arr_get (couldClaim f) i) as [[]|]; simpl;
    (split; [intros [? ?]|intros [? ?]]; done).
Qed.

Lemma shouldStopScan_same f f' i :
  same_cells f f' → flagAt f' i = flagAt f i →
  shouldStopScan f' i = shouldStopScan f i.
Proof.
  intros (Hc & _) Hf. unfold shouldStopScan. unfold flagAt in Hf. by rewrite Hc, Hf.
Qed.

Lemma raised_mark f i :
  flagAt f i = Some true → S (raised (mark f i)) = raised f.
Proof.
  intros Hi. unfold raised, mark, flagAt, arr_get in *.
  rewrite couldClaim_with. unfold arr_set. simpl.
  rewrite map_filter_insert_False by (simpl; congruence).
  rewrite map_filter_delete.
  assert (Hin : filter (fun kv : Z * bool => kv.2 = true) (arr_items (couldClaim f)) !! i
                = Some true).
  { by apply map_lookup_filter_Some. }
  rewrite map_size_delete, Hin.
  assert (size (filter (fun kv : Z * bool => kv.2 = true) (arr_items (couldClaim f))) ≠ O).
  { intros Hz. apply map_size_empty_inv in Hz. rewrite Hz in Hin. done. }
  lia.
Qed.

Lemma mark_well_formed f i :
  well_formed f → flagAt f i = Some true → well_formed (mark f i).
Proof.
  intros Hwf Hi.
  assert (Hr : 0 ≤ i < area f) by (apply Hwf; by rewrite Hi).
  split; try apply Hwf.
  - unfold mark. rewrite couldClaim_with, arr_set_inside; [apply Hwf|].
    by rewrite (wf_flags_length f Hwf).
  - intros j. rewrite flagAt_mark. case_decide; [by subst|apply Hwf].
Qed.

(** What a walk to the left has done when it returns [lx']. *)
Lemma scanLeft_spec n f lx f' lx' :
  scanLeft n f lx = (f', lx') →
  lx' ≤ lx ∧ lx - lx' ≤ Z.of_nat n
  ∧ same_cells f f'
  ∧ (∀ j, flagAt f' j = if decide (lx' < j ≤ lx) then Some false else flagAt f j)
  ∧ (∀ j, lx' < j ≤ lx → shouldStopScan f j = false)
  ∧ (lx - lx' = Z.of_nat n ∨ shouldStopScan f lx' = true)
  ∧ Z.of_nat (raised f') + (lx - lx') = Z.of_nat (raised f)
  ∧ (well_formed f → well_formed f').
Proof.
  revert f lx. induction n as [|n IH]; intros f lx Hs.
  { simpl in Hs. injection Hs as <- <-.
    split_and!; try done; try lia;
      first [intros j; by rewrite decide_False by lia | by right | left; lia]. }
  simpl in Hs. destruct (shouldStopScan f lx) eqn:Hstop.
  { injection Hs as <- <-.
    split_and!; try done; try lia;
      first [intros j; by rewrite decide_False by lia | by right | left; lia]. }
  apply shouldStopScan_false in Hstop as Hlx. destruct Hlx as [Hcell Hflag].
  destruct (IH _ _ Hs) as (Hle & Hn & Hsame & Hflags & Hopen & Hend & Hr & Hwf).
  assert (Hkeep : ∀ j, j ≠ lx → shouldStopScan (mark f lx) j = shouldStopScan f j).
  { intros j Hj. apply shouldStopScan_same; [done|].
    rewrite flagAt_mark. by rewrite decide_False. }
  split; [lia|]. split; [lia|].
  split; [exact (same_cells_trans _ _ _ (mark_same_cells f lx) Hsame)|].
  split.
  { intros j. rewrite Hflags, flagAt_mark.
    repeat case_decide; try done; lia. }
  split.
  { intros j Hj. destruct (decide (j = lx)) as [->|Hne]; [done|].
    rewrite <- Hkeep by done. apply Hopen. lia. }
  split.
  { destruct Hend as [Hend|Hend]; [left; lia|right].
    rewrite <- Hkeep by lia. done. }
  split.
  { pose proof (raised_mark f lx Hflag). lia. }
  intros Hw. by apply Hwf, mark_well_formed.
Qed.

(** What a walk to the right has done when it returns [rx']. *)
Lemma scanRight_spec n f rx f' rx' :
  scanRight n f rx = (f', rx') →
  rx ≤ rx' ∧ rx' - rx ≤ Z.of_nat n
  ∧ same_cells f f'
  ∧ (∀ j, flagAt f' j = if decide (rx ≤ j < rx') then Some false else flagAt f j)
  ∧ (∀ j, rx ≤ j < rx' → shouldStopScan f j = false)
  ∧ (rx' - rx = Z.of_nat n ∨ shouldStopScan f rx' = true)
  ∧ Z.of_nat (raised f') + (rx' - rx) = Z.of_nat (raised f)
  ∧ (well_formed f → well_formed f').
Proof.
  revert f rx. induction n as [|n IH]; intros f rx Hs.
  { simpl in Hs. injection Hs as <- <-.
    split_and!; try done; try lia;
      first [intros j; by rewrite decide_False by lia | by right | left; lia]. }
  simpl in Hs. destruct (shouldStopScan f rx) eqn:Hstop.
  { injection Hs as <- <-.
    split_and!; try done; try lia;
      first [intros j; by rewrite decide_False by lia | by right | left; lia]. }
  apply shouldStopScan_false in Hstop as Hrx. destruct Hrx as [Hcell Hflag].
  destruct (IH _ _ Hs) as (Hle & Hn & Hsame & Hflags & Hopen & Hend & Hr & Hwf).
  assert (Hkeep : ∀ j, j ≠ rx → shouldStopScan (mark f rx) j = shouldStopScan f j).
  { intros j Hj. apply shouldStopScan_same; [done|].
    rewrite flagAt_mark. by rewrite decide_False. }
  split; [lia|]. split; [lia|].
  split; [exact (same_cells_trans _ _ _ (mark_same_cells f rx) Hsame)|].
  split.
  { intros j. rewrite Hflags, flagAt_mark.
    repeat case_decide; try done; lia. }
  split.
  { intros j Hj. destruct (decide (j = rx)) as [->|Hne]; [done|].
    rewrite <- Hkeep by done. apply Hopen. lia. }
  split.
  { destruct Hend as [Hend|Hend]; [left; lia|right].
    rewrite <- Hkeep by lia. done. }
  split.
  { pose proof (raised_mark f rx Hflag). lia. }
  intros Hw. by apply Hwf, mark_well_formed.
Qed.

Lemma pushUnlessStop_length f j stack :
  (length (pushUnlessStop f j stack) ≤ S (length stack))%nat.
Proof. unfold pushUnlessStop. destruct (shouldStopScan f j); simpl; lia. Qed.

Lemma elem_of_pushUnlessStop f j stack k :
  k ∈ pushUnlessStop f j stack ↔ k ∈ stack ∨ (k = j ∧ shouldStopScan f j = false).
Proof.
  unfold pushUnlessStop. destruct (shouldStopScan f j).
  - split; [by left|]. by intros [?|[_ ?]].
  - rewrite elem_of_cons. split.
    + intros [->|?]; [by right|by left].
    + intros [?|[-> _]]; [by right|by left].
Qed.

Lemma pushNeighbours_length f span stack :
  (length (pushNeighbours f span stack) ≤ length stack + 2 * length span)%nat.
Proof.
  unfold pushNeighbours. revert stack.
  induction span as [|i span IH]; intros stack; simpl; [lia|].
  etrans; [apply IH|].
  pose proof (pushUnlessStop_length f (i + width f) (pushUnlessStop f (i - width f) stack)).
  pose proof (pushUnlessStop_length f (i - width f) stack). lia.
Qed.

Lemma elem_of_pushNeighbours f span stack k :
  k ∈ pushNeighbours f span stack
  ↔ k ∈ stack
    ∨ ∃ i, i ∈ span ∧ (k = i - width f ∨ k = i + width f)
           ∧ shouldStopScan f k = false.
Proof.
  unfold pushNeighbours. revert stack.
  induction span as [|i span IH]; intros stack; simpl.
  { split; [by left|]. intros [?|(i & Hi & _)]; [done|]. by apply not_elem_of_nil in Hi. }
  rewrite IH, !elem_of_pushUnlessStop. split.
  - intros [[[?|[-> ?]]|[-> ?]]|(i' & Hi' & ?)]; [by left|right..].
    + exists i. split; [apply elem_of_cons; by left|]. auto.
    + exists i. split; [apply elem_of_cons; by left|]. auto.
    + exists i'. split; [apply elem_of_cons; by right|]. auto.
  - intros [?|(i' & Hi' & Hk & Hs)]; [by left; left; left|].
    apply elem_of_cons in Hi' as [->|Hi'].
    + left. destruct Hk as [->| ->]; [left; right|right]; done.
    + right. exists i'. auto.
Qed.

(** One iteration that walks a row lowers [k] flags and pushes at most
    [2 k] indices. *)
Lemma scanRow_potential f cellIndex stack f' stack' :
  scanRow f cellIndex stack = (f', stack') →
  (length stack' + 3 * raised f' ≤ length stack + 3 * raised f)%nat
  ∧ (raised f' ≤ raised f)%nat
  ∧ same_cells f f'
  ∧ (∀ j, flagAt f' j = flagAt f j ∨ (flagAt f j = Some true ∧ flagAt f' j = Some false)).
Proof.
  unfold scanRow. case_decide as Hw.
  { intros [= <- <-]. split; [lia|]. split; [lia|]. split; [done|]. by left. }
  destruct (scanLeft _ f cellIndex) as [f1 lx] eqn:HL.
  destruct (scanRight _ f1 (cellIndex + 1)) as [f2 rx] eqn:HR.
  intros [= <- <-].
  destruct (scanLeft_spec _ _ _ _ _ HL) as (HL1 & _ & HLs & HLf & HLo & _ & HLr & _).
  destruct (scanRight_spec _ _ _ _ _ HR) as (HR1 & _ & HRs & HRf & HRo & _ & HRr & _).
  split.
  { pose proof (pushNeighbours_length f2 (seqZ (lx + 1) (rx - lx - 1)) stack) as Hp.
    rewrite length_seqZ in Hp. lia. }
  split; [lia|].
  split; [exact (same_cells_trans _ _ _ HLs HRs)|].
  intros j. rewrite HRf, HLf.
  destruct (decide (cellIndex + 1 ≤ j < rx)) as [Hj|Hj].
  { right. split; [|done].
    specialize (HRo j Hj). apply shouldStopScan_false in HRo as [_ HRo].
    rewrite HLf in HRo. by rewrite decide_False in HRo by lia. }
  destruct (decide (lx < j ≤ cellIndex)) as [Hj'|Hj']; [|by left].
  right. split; [|done]. specialize (HLo j Hj'). by apply shouldStopScan_false in HLo as [_ ?].
Qed.

(** ** The span fill: the loop ends *)

Lemma scan_nothing f :
  same_cells f f ∧ (raised f ≤ raised f)%nat
  ∧ (∀ j, flagAt f j = flagAt f j
          ∨ (flagAt f j = Some true ∧ flagAt f j = Some false)).
Proof. split_and!; [done|lia|by left]. Qed.

Lemma scanLoop_enough fuel f stack :
  (length stack + 3 * raised f ≤ fuel)%nat →
  ∃ f', scanLoop fuel f stack = Some f'
        ∧ same_cells f f'
        ∧ (raised f' ≤ raised f)%nat
        ∧ (∀ j, flagAt f' j = flagAt f j
                ∨ (flagAt f j = Some true ∧ flagAt f' j = Some false)).
Proof.
  revert f stack. induction fuel as [|fuel IH]; intros f stack Hfuel.
  { destruct stack as [|c stack]; simpl in Hfuel; [|lia].
    exists f. split; [done|apply scan_nothing]. }
  destruct stack as [|cellIndex stack]; simpl.
  { exists f. split; [done|apply scan_nothing]. }
  change (length (cellIndex :: stack)) with (S (length stack)) in Hfuel.
  destruct (shouldStopScan f cellIndex).
  { apply IH. lia. }
  destruct (scanRow f cellIndex stack) as [f1 stack1] eqn:Hrow.
  destruct (scanRow_potential _ _ _ _ _ Hrow) as (Hpot & Hless & Hsame & Hflags).
  destruct (IH f1 stack1) as (f' & Hrun & Hsame' & Hraised & Hflags'); [lia|].
  exists f'. split; [done|]. split; [exact (same_cells_trans _ _ _ Hsame Hsame')|].
  split; [lia|].
  intros j. destruct (Hflags j) as [Hj|[Hj1 Hj2]], (Hflags' j) as [Hj'|[Hj1' Hj2']].
  - left. congruence.
  - right. split; congruence.
  - right. split; congruence.
  - congruence.
Qed.

Lemma scanLoop_more fuel fuel' f stack f' :
  scanLoop fuel f stack = Some f' → (fuel ≤ fuel')%nat →
  scanLoop fuel' f stack = Some f'.
Proof.
  revert fuel' f stack. induction fuel as [|fuel IH]; intros fuel' f stack Hrun Hle.
  { destruct stack; [|done]. by destruct fuel'. }
  destruct stack as [|cellIndex stack]; [by destruct fuel'|].
  destruct fuel' as [|fuel']; [lia|].
  simpl in *. destruct (shouldStopScan f cellIndex).
  - apply IH; [done|lia].
  - destruct (scanRow f cellIndex stack). apply IH; [done|lia].
Qed.

Lemma startScan_total f startX startY :
  ∃ f', startScan f startX startY = Some f' ∧ same_cells f f'
        ∧ (raised f' ≤ raised f)%nat.
Proof.
  unfold startScan. destruct (as_index _) as [cellIndex|].
  - destruct (scanLoop_enough (scanBound f [cellIndex]) f [cellIndex])
      as (f' & Hrun & Hsame & Hr & _); [done|]. by exists f'.
  - exists f. split_and!; [done|done|lia].
Qed.

Lemma scanEnemies_total enemies f :
  ∃ f', scanEnemies f enemies = Some f' ∧ same_cells f f'.
Proof.
  revert f. induction enemies as [|e enemies IH]; intros f; simpl.
  { by exists f. }
  destruct (startScan_total f (XY.x (Entity.position (Enemy.entity e)))
              (XY.y (Entity.position (Enemy.entity e)))) as (f1 & -> & Hsame & _).
  simpl. destruct (IH f1) as (f' & Hrun & Hsame').
  exists f'. split; [done|]. exact (same_cells_trans _ _ _ Hsame Hsame').
Qed.

Lemma claim_total enemies f : ∃ f', claim enemies f = Some f'.
Proof.
  unfold claim.
  destruct (scanEnemies_total enemies (resetCouldClaim (claimTrail f))) as (f1 & -> & _).
  simpl. eauto.
Qed.

(** ** The span fill: what it lowers *)

Lemma row_of (w y j : Z) : 0 < w → y * w ≤ j < y * w + w → j / w = y.
Proof. intros Hw Hj. symmetry. apply Z.div_unique with (r := j - y * w); lia. Qed.

Lemma row_bounds (w j : Z) : 0 < w → j / w * w ≤ j < j / w * w + w.
Proof.
  intros Hw. pose proof (Z.div_mod j w ltac:(lia)).
  pose proof (Z.mod_pos_bound j w Hw). lia.
Qed.

Lemma flooded_mono g seeds seeds' i :
  (∀ s, s ∈ seeds → s ∈ seeds') → flooded g seeds i → flooded g seeds' i.
Proof.
  intros Hsub. induction 1 as [s Hs Ho|i j _ IH Hn Ho].
  - apply flooded_seed; auto.
  - by apply flooded_step with i.
Qed.

Lemma stopped_open_lowered f g j :
  cells f = cells g → is_Some (flagAt f j) → cellAt g j ≠ Some CLAIMED →
  shouldStopScan f j = true → lowered f j.
Proof.
  intros Hc [b Hb] Hcell Hstop. unfold lowered. rewrite Hb. destruct b; [|done].
  assert (shouldStopScan f j = false); [|congruence].
  apply shouldStopScan_false. split; [|done]. unfold cellAt in *. by rewrite Hc.
Qed.

Lemma scanning_pop g seeds f cellIndex stack :
  scanning g seeds f (cellIndex :: stack) → shouldStopScan f cellIndex = true →
  scanning g seeds f stack.
Proof.
  intros [Hwf Hsame Hdef Hsound Hstack Hclosed Hseeds] Hstop.
  assert (Hpop : ∀ j, open g j → lowered f j ∨ j ∈ cellIndex :: stack →
                      lowered f j ∨ j ∈ stack).
  { intros j Ho [?|[->|?]%elem_of_cons]; [by left| |by right].
    left. apply stopped_open_lowered with g; [apply Hsame|apply Hdef, Ho|apply Ho|done]. }
  split; try done.
  - intros j Hj. apply Hstack, elem_of_cons. by right.
  - intros i j Hi Hn Ho. apply Hpop; [done|]. by apply Hclosed with i.
  - intros s Hs Ho. apply Hpop; [done|]. by apply Hseeds.
Qed.

Lemma scanning_row g seeds f cellIndex stack f' stack' :
  scanning g seeds f (cellIndex :: stack) → shouldStopScan f cellIndex = false →
  scanRow f cellIndex stack = (f', stack') →
  scanning g seeds f' stack'.
Proof.
  intros [Hwf Hsame Hdef Hsound Hstack Hclosed Hseeds] Hstop Hrow.
  destruct Hsame as (Hcells & Hcount & Hw & Hh).
  assert (Harea : area f = area g) by (unfold area; congruence).
  assert (HcellAt : ∀ j, cellAt f j = cellAt g j) by (intros; unfold cellAt; congruence).
  apply shouldStopScan_false in Hstop as Hci. destruct Hci as [Hci_cell Hci_flag].
  assert (Hci : 0 ≤ cellIndex < area g).
  { rewrite <- Harea. apply Hwf. by rewrite Hci_flag. }
  assert (Hwpos : 0 < width g).
  { pose proof (wf_width f Hwf). pose proof (wf_height f Hwf).
    unfold area in Hci. rewrite <- Hw, <- Hh in Hci. rewrite <- Hw. nia. }
  unfold scanRow in Hrow. rewrite decide_False in Hrow by lia.
  unfold efficientIndex in Hrow. rewrite Hw in Hrow.
  set (w := width g) in *. set (y := cellIndex / w) in *.
  destruct (scanLeft _ f cellIndex) as [f1 lx] eqn:HL.
  destruct (scanRight _ f1 (cellIndex + 1)) as [f2 rx] eqn:HR.
  injection Hrow as <- <-.
  destruct (scanLeft_spec _ _ _ _ _ HL) as (HL1 & HL2 & HLs & HLf & HLo & HLe & _ & HLw).
  destruct (scanRight_spec _ _ _ _ _ HR) as (HR1 & HR2 & HRs & HRf & HRo & HRe & _ & HRw).
  pose proof (row_bounds w cellIndex Hwpos) as Hrowci. fold y in Hrowci.
  assert (Hlx : y * w - 1 ≤ lx < cellIndex).
  { split; [lia|]. destruct (decide (lx = cellIndex)) as [->|]; [|lia].
    destruct HLe as [HLe|HLe]; [lia|congruence]. }
  assert (Hrx : cellIndex < rx ≤ y * w + w) by lia.
  assert (HLe' : lx = y * w - 1 ∨ shouldStopScan f lx = true).
  { destruct HLe as [HLe|HLe]; [left; lia|by right]. }
  assert (HRe' : rx = y * w + w ∨ shouldStopScan f rx = true).
  { destruct HRe as [HRe|HRe]; [left; lia|right].
    rewrite <- HRe. symmetry. apply shouldStopScan_same; [done|].
    rewrite HLf. by rewrite decide_False by lia. }
  assert (Hflag2 : ∀ j, flagAt f2 j
                        = if decide (lx < j < rx) then Some false else flagAt f j).
  { intros j. rewrite HRf, HLf. repeat case_decide; try done; lia. }
  assert (Hspan : ∀ j, lx < j < rx → open g j ∧ j / w = y).
  { intros j Hj.
    assert (Hjf : shouldStopScan f j = false).
    { destruct (decide (j ≤ cellIndex)); [apply HLo; lia|].
      rewrite <- (HRo j) by lia. symmetry. apply shouldStopScan_same; [done|].
      rewrite HLf. by rewrite decide_False by lia. }
    apply shouldStopScan_false in Hjf as [Hjc Hjb].
    split; [split|].
    - rewrite <- Harea. apply Hwf. by rewrite Hjb.
    - by rewrite <- HcellAt.
    - apply row_of; lia. }
  assert (Hside : ∀ i j, y * w ≤ i < y * w + w → y * w ≤ j < y * w + w →
                         j = i + 1 ∨ j = i - 1 → neighbours g i j).
  { intros i j Hi Hj Hij. right; right. split; [done|].
    fold w. rewrite !(row_of w y) by lia. done. }
  assert (Hfl : ∀ j, lx < j < rx → flooded g seeds j).
  { assert (Hseed : flooded g seeds cellIndex).
    { apply Hstack; [apply elem_of_cons; by left|]. apply Hspan. lia. }
    assert (Hleft : ∀ m : nat, lx < cellIndex - Z.of_nat m → flooded g seeds (cellIndex - Z.of_nat m)).
    { induction m as [|m IH]; intros Hm.
      - by rewrite Z.sub_0_r.
      - apply flooded_step with (cellIndex - Z.of_nat m).
        + apply IH. lia.
        + apply Hside; lia.
        + apply Hspan. lia. }
    assert (Hright : ∀ m : nat, cellIndex + Z.of_nat m < rx → flooded g seeds (cellIndex + Z.of_nat m)).
    { induction m as [|m IH]; intros Hm.
      - by rewrite Z.add_0_r.
      - apply flooded_step with (cellIndex + Z.of_nat m).
        + apply IH. lia.
        + apply Hside; lia.
        + apply Hspan. lia. }
    intros j Hj. destruct (decide (j ≤ cellIndex)).
    - replace j with (cellIndex - Z.of_nat (Z.to_nat (cellIndex - j))) by lia.
      apply Hleft. lia.
    - replace j with (cellIndex + Z.of_nat (Z.to_nat (j - cellIndex))) by lia.
      apply Hright. lia. }
  assert (Hsame2 : same_cells f f2) by exact (same_cells_trans _ _ _ HLs HRs).
  assert (Hw2 : width f2 = w) by (destruct Hsame2 as (_ & _ & -> & _); done).
  assert (Hdef2 : ∀ i, 0 ≤ i < area g → is_Some (flagAt f2 i)).
  { intros i Hi. rewrite Hflag2. case_decide; [done|by apply Hdef]. }
  assert (Hkeep : ∀ j, lowered f j → lowered f2 j).
  { intros j Hj. unfold lowered. rewrite Hflag2. by case_decide. }
  assert (Hpop : ∀ j, lowered f j ∨ j ∈ cellIndex :: stack →
                      lowered f2 j
                      ∨ j ∈ pushNeighbours f2 (seqZ (lx + 1) (rx - lx - 1)) stack).
  { intros j [?|[->|?]%elem_of_cons].
    - left. by apply Hkeep.
    - left. unfold lowered. rewrite Hflag2. by rewrite decide_True by lia.
    - right. apply elem_of_pushNeighbours. by left. }
  assert (Hstopped : ∀ j, open g j → shouldStopScan f2 j = true → lowered f2 j).
  { intros j Ho Hs. apply stopped_open_lowered with g; [|by apply Hdef2, Ho|apply Ho|done].
    destruct Hsame2 as (-> & _). done. }
  split.
  - apply HRw, HLw, Hwf.
  - exact (same_cells_trans _ _ _ (conj Hcells (conj Hcount (conj Hw Hh))) Hsame2).
  - exact Hdef2.
  - intros i Hi. unfold lowered in Hi. rewrite Hflag2 in Hi.
    destruct (decide (lx < i < rx)); [by apply Hfl|by apply Hsound].
  - intros j Hj Ho. apply elem_of_pushNeighbours in Hj as [Hj|(i & Hi & Hij & _)].
    + apply Hstack; [|done]. apply elem_of_cons. by right.
    + apply elem_of_seqZ in Hi. rewrite Hw2 in Hij.
      apply flooded_step with i; [apply Hfl; lia| |done].
      unfold neighbours. fold w. destruct Hij; auto.
  - intros i j Hi Hn Ho. unfold lowered in Hi. rewrite Hflag2 in Hi.
    destruct (decide (lx < i < rx)) as [Hin|Hout].
    2:{ apply Hpop. by apply Hclosed with i. }
    destruct (Hspan i Hin) as [_ Hrowi].
    assert (Hvert : j = i + w ∨ j = i - w →
              lowered f2 j ∨ j ∈ pushNeighbours f2 (seqZ (lx + 1) (rx - lx - 1)) stack).
    { intros Hj. destruct (shouldStopScan f2 j) eqn:Hs; [left; by apply Hstopped|].
      right. apply elem_of_pushNeighbours. right. exists i.
      split; [apply elem_of_seqZ; lia|]. rewrite Hw2. split; [tauto|done]. }
    destruct Hn as [Hj|[Hj|[Hj Hrowj]]]; [apply Hvert; by left|apply Hvert; by right|].
    fold w in Hrowj. rewrite Hrowi in Hrowj.
    pose proof (row_bounds w j Hwpos) as Hrj. rewrite <- Hrowj in Hrj.
    left. destruct (decide (lx < j < rx)) as [Hjin|Hjout].
    { unfold lowered. rewrite Hflag2. by rewrite decide_True. }
    apply Hkeep.
    assert (Hjs : shouldStopScan f j = true).
    { destruct Hj as [->| ->].
      - assert (i + 1 = rx) as -> by lia. destruct HRe' as [?|?]; [lia|done].
      - assert (i - 1 = lx) as -> by lia. destruct HLe' as [?|?]; [lia|done]. }
    apply stopped_open_lowered with g; [done|by apply Hdef, Ho|apply Ho|done].
  - intros s Hs Ho. apply Hpop. by apply Hseeds.
Qed.

Lemma scanning_loop g seeds fuel f stack f' :
  scanning g seeds f stack → scanLoop fuel f stack = Some f' →
  scanning g seeds f' [].
Proof.
  revert f stack. induction fuel as [|fuel IH]; intros f stack Hinv Hrun.
  { destruct stack; [|done]. by injection Hrun as <-. }
  destruct stack as [|cellIndex stack]; [by injection Hrun as <-|].
  simpl in Hrun. destruct (shouldStopScan f cellIndex) eqn:Hstop.
  - apply (IH f stack); [|done]. by apply scanning_pop with cellIndex.
  - destruct (scanRow f cellIndex stack) as [f1 stack1] eqn:Hrow.
    apply (IH f1 stack1); [|done]. by apply scanning_row with f cellIndex stack.
Qed.

(** When the stack is empty the lowered flags are exactly the flooded
    cells. *)
Lemma scanning_done g seeds f i :
  scanning g seeds f [] → (lowered f i ↔ flooded g seeds i).
Proof.
  intros Hinv. split; [apply Hinv|].
  induction 1 as [s Hs Ho|i j _ IH Hn Ho].
  - destruct (scan_seeds _ _ _ _ Hinv s Hs Ho) as [?|Hin]; [done|].
    by apply not_elem_of_nil in Hin.
  - destruct (scan_closed _ _ _ _ Hinv i j IH Hn Ho) as [?|Hin]; [done|].
    by apply not_elem_of_nil in Hin.
Qed.

(** ** Well-formed fields stay well-formed *)

Lemma setCellDirect_well_formed v i f :
  storable v → 0 ≤ i < area f → well_formed f → well_formed (setCellDirect v i f).
Proof.
  intros Hv Hi Hwf.
  assert (Hlen : 0 ≤ i < arr_length (cells f)) by (by rewrite (wf_cells_length f Hwf)).
  split; try apply Hwf.
  - rewrite length_setCellDirect by done. apply Hwf.
  - intros j Hj. rewrite cellAt_setCellDirect. case_decide; [by eexists|].
    by apply Hwf.
Qed.

Lemma foldl_well_formed (step : t → Z → t) (v : CellState) (ixs : list Z) (f : t) :
  storable v →
  (∀ g i, step g i = g ∨ step g i = setCellDirect v i g) →
  (∀ i, i ∈ ixs → 0 ≤ i < area f) →
  well_formed f → well_formed (foldl step f ixs).
Proof.
  intros Hv Hstep. revert f. induction ixs as [|a ixs IH]; intros f Hin Hc; [done|].
  simpl.
  assert (Ha : 0 ≤ a < area f) by (apply Hin, elem_of_cons; by left).
  assert (Harea : area (step f a) = area f).
  { destruct (Hstep f a) as [->| ->]; done. }
  apply IH.
  - intros i Hi. rewrite Harea. apply Hin, elem_of_cons. by right.
  - destruct (Hstep f a) as [->| ->]; [done|]. by apply setCellDirect_well_formed.
Qed.

Lemma claimTrail_well_formed f : well_formed f → well_formed (claimTrail f).
Proof.
  intros Hc. unfold claimTrail. apply foldl_well_formed with (v := CLAIMED); try done.
  - intros g i. case_decide; auto.
  - intros i. rewrite elem_of_seqZ_0, (wf_cells_length f); done.
Qed.

Lemma claimRaised_well_formed f : well_formed f → well_formed (claimRaised f).
Proof.
  intros Hc. unfold claimRaised. apply foldl_well_formed with (v := CLAIMED); try done.
  - intros g i. destruct (truthy _); auto.
  - intros i. rewrite elem_of_seqZ_0, (wf_flags_length f); done.
Qed.

Lemma resetCouldClaim_well_formed f : well_formed f → well_formed (resetCouldClaim f).
Proof.
  intros Hwf. destruct (resetCouldClaim_spec f) as (Hcells & Hcount & Hw & Hh & Hlen & Hf).
  assert (Ha : area (resetCouldClaim f) = area f) by (unfold area; congruence).
  split; rewrite ?Ha, ?Hw, ?Hh, ?Hcells, ?Hlen; try apply Hwf.
  - intros i Hi. unfold cellAt. rewrite Hcells. by apply Hwf.
  - intros i. rewrite Hf, (wf_flags_length f Hwf). case_decide; [done|]. apply Hwf.
Qed.

Lemma scanRow_well_formed f cellIndex stack f' stack' :
  scanRow f cellIndex stack = (f', stack') → well_formed f → well_formed f'.
Proof.
  unfold scanRow. case_decide; [by intros [= <- <-]|].
  destruct (scanLeft _ f cellIndex) as [f1 lx] eqn:HL.
  destruct (scanRight _ f1 (cellIndex + 1)) as [f2 rx] eqn:HR.
  intros [= <- <-] Hwf.
  apply (scanRight_spec _ _ _ _ _ HR), (scanLeft_spec _ _ _ _ _ HL), Hwf.
Qed.

Lemma scanLoop_well_formed fuel f stack f' :
  scanLoop fuel f stack = Some f' → well_formed f → well_formed f'.
Proof.
  revert f stack. induction fuel as [|fuel IH]; intros f stack Hrun Hwf.
  { destruct stack; [|done]. by injection Hrun as <-. }
  destruct stack as [|cellIndex stack]; [by injection Hrun as <-|].
  simpl in Hrun. destruct (shouldStopScan f cellIndex); [by apply (IH f stack)|].
  destruct (scanRow f cellIndex stack) as [f1 stack1] eqn:Hrow.
  apply (IH f1 stack1); [done|]. by apply (scanRow_well_formed _ _ _ _ _ Hrow).
Qed.

Lemma scanEnemies_well_formed enemies f f' :
  scanEnemies f enemies = Some f' → well_formed f → well_formed f'.
Proof.
  revert f. induction enemies as [|e enemies IH]; intros f Hrun Hwf; simpl in Hrun.
  { by injection Hrun as <-. }
  destruct (startScan f _ _) as [f1|] eqn:Hscan; [|done]. simpl in Hrun.
  apply (IH f1); [done|]. unfold startScan in Hscan.
  destruct (as_index _); [by apply (scanLoop_well_formed _ _ _ _ Hscan)|].
  by injection Hscan as <-.
Qed.

Lemma same_cells_consistent f f' :
  same_cells f f' → well_formed f' → consistent f → consistent f'.
Proof.
  intros (Hcells & Hcount & Hw & Hh) Hwf [_ Hm Ht]. split; [done| |].
  - intros s. unfold occurrences, cellAt. rewrite Hcells, Hcount. apply Hm.
  - unfold counts_total, area. rewrite Hcount, Hw, Hh. apply Ht.
Qed.

Lemma claim_consistent enemies f f' :
  claim enemies f = Some f' → consistent f → consistent f'.
Proof.
  unfold claim. intros Hrun Hc.
  destruct (scanEnemies _ enemies) as [f1|] eqn:Hscan; [|done].
  injection Hrun as <-. apply claimRaised_consistent.
  assert (Hc0 : consistent (resetCouldClaim (claimTrail f))).
  { by apply resetCouldClaim_consistent, claimTrail_consistent. }
  destruct (scanEnemies_total enemies (resetCouldClaim (claimTrail f))) as (f2 & Hf2 & Hsame).
  rewrite Hscan in Hf2. injection Hf2 as <-.
  apply same_cells_consistent with (resetCouldClaim (claimTrail f)); [done| |done].
  apply (scanEnemies_well_formed _ _ _ Hscan), Hc0.
Qed.

(** ** The constructor *)

Lemma new_cells (ixs : list Z) (f : t) :
  NoDup ixs → (∀ i, i ∈ ixs → cellAt f i = None) →
  cellCount (foldl (fun f i => setCellDirect UNCLAIMED i f) f ixs)
  = count_add (cellCount f) UNCLAIMED (Z.of_nat (length ixs)).
Proof.
  revert f. induction ixs as [|a ixs IH]; intros f Hnd Hnone.
  { simpl. destruct (cellCount f). simpl. f_equal. lia. }
  apply NoDup_cons in Hnd as [Ha Hnd]. simpl foldl. rewrite IH; [|done|].
  - unfold setCellDirect at 1. simpl cellCount. fold (cellAt f a).
    rewrite (Hnone a) by (apply elem_of_cons; by left).
    destruct (cellCount f). simpl. f_equal. lia.
  - intros i Hi. rewrite cellAt_setCellDirect. rewrite decide_False by (by intros ->).
    apply Hnone, elem_of_cons. by right.
Qed.

Lemma length_filter_all (P : Z → Prop) `{!∀ x, Decision (P x)} (l : list Z) :
  (∀ j, j ∈ l → P j) → length (filter P l) = length l.
Proof.
  induction l as [|a l IH]; intros Hall; [done|].
  rewrite filter_cons_True by (apply Hall, elem_of_cons; by left).
  simpl. f_equal. apply IH. intros j Hj. apply Hall, elem_of_cons. by right.
Qed.

Lemma length_filter_none (P : Z → Prop) `{!∀ x, Decision (P x)} (l : list Z) :
  (∀ j, j ∈ l → ¬ P j) → length (filter P l) = O.
Proof.
  induction l as [|a l IH]; intros Hall; [done|].
  rewrite filter_cons_False by (apply Hall, elem_of_cons; by left).
  apply IH. intros j Hj. apply Hall, elem_of_cons. by right.
Qed.

Lemma new_consistent (w h : nat) : consistent (new w h).
Proof.
  set (n := Z.of_nat w * Z.of_nat h).
  set (init := mk (arr_new n) (arr_new n) (mkCount 0 0 0 0) (Z.of_nat w) (Z.of_nat h)).
  set (step := fun f i => setCellDirect UNCLAIMED i f).
  assert (Hn : 0 ≤ n) by (unfold n; lia).
  assert (Hstep : ∀ f i, step f i = if true then setCellDirect UNCLAIMED i f else f) by done.
  destruct (sweep_frame step (fun _ _ => true) UNCLAIMED Hstep (seqZ 0 n) init)
    as (Hcc & Hw & Hh).
  assert (Hlen : arr_length (cells (foldl step init (seqZ 0 n))) = n).
  { rewrite (sweep_length step (fun _ _ => true) UNCLAIMED Hstep); [done|].
    intros i. by rewrite elem_of_seqZ_0. }
  assert (Hcell : ∀ i, cellAt (foldl step init (seqZ 0 n)) i
                       = if decide (0 ≤ i < n) then Some UNCLAIMED else None).
  { intros i.
    rewrite (sweep_cellAt step (fun _ _ => true) UNCLAIMED Hstep); [|done|apply NoDup_seqZ].
    destruct (decide (i ∈ seqZ 0 n)) as [Hi|Hi]; rewrite elem_of_seqZ_0 in Hi;
      [by rewrite decide_True|by rewrite decide_False]. }
  assert (Hcount : cellCount (foldl step init (seqZ 0 n)) = mkCount 0 n 0 0).
  { unfold step. rewrite new_cells; [|apply NoDup_seqZ|done].
    rewrite length_seqZ. simpl. f_equal. lia. }
  change (new w h) with (foldl step init (seqZ 0 n)).
  assert (Harea : area (foldl step init (seqZ 0 n)) = n).
  { unfold area. by rewrite Hw, Hh. }
  split.
  - split; rewrite ?Harea, ?Hw, ?Hh, ?Hcc, ?Hlen; simpl; try done; try lia.
    + intros i Hi. rewrite Hcell, decide_True by done. by eexists.
    + intros i [b Hb]. unfold flagAt in Hb. rewrite Hcc in Hb. done.
  - intros s. rewrite Hcount. unfold occurrences. rewrite Hlen.
    destruct (decide (s = UNCLAIMED)) as [->|Hs].
    + rewrite length_filter_all.
      * rewrite length_seqZ. simpl. lia.
      * intros j Hj%elem_of_seqZ_0. rewrite Hcell. by rewrite decide_True.
    + rewrite length_filter_none.
      * by destruct s.
      * intros j Hj%elem_of_seqZ_0. rewrite Hcell, decide_True by done. congruence.
  - unfold counts_total. rewrite Hcount, Harea. simpl. lia.
Qed.

Lemma arises_consistent f : arises f → consistent f.
Proof.
  induction 1 as [w h|f s x y _ IH Hs Hout|f enemies f' _ IH Hrun|f _ IH].
  - apply new_consistent.
  - by apply setCellByXY_consistent.
  - by apply (claim_consistent enemies f).
  - by apply clearClaiming_consistent.
Qed.

(** ** [claim], index by index *)

Lemma flooded_open g seeds i : flooded g seeds i → open g i.
Proof. by destruct 1. Qed.

Lemma scanning_start g : well_formed g →
  (∀ i, 0 ≤ i < area g → flagAt g i = Some true) → scanning g [] g [].
Proof.
  intros Hwf Hflags.
  assert (Hnone : ∀ i, ¬ lowered g i).
  { intros i Hi. unfold lowered in Hi.
    assert (Hr : 0 ≤ i < area g) by (apply Hwf; by rewrite Hi).
    rewrite (Hflags i Hr) in Hi. done. }
  split; try done.
  - intros i Hi. by rewrite Hflags.
  - intros i Hi. by apply Hnone in Hi.
  - intros j Hj. by apply not_elem_of_nil in Hj.
  - intros i j Hi. by apply Hnone in Hi.
  - intros s Hs. by apply not_elem_of_nil in Hs.
Qed.

Lemma scanning_seed g seeds f s :
  scanning g seeds f [] → scanning g (seeds ++ [s]) f [s].
Proof.
  intros [Hwf Hsame Hdef Hsound Hstack Hclosed Hseeds].
  split; try done.
  - intros i Hi. apply flooded_mono with seeds; [|by apply Hsound].
    intros s' Hs'. apply elem_of_app. by left.
  - intros j Hj%list_elem_of_singleton Ho. subst j.
    apply flooded_seed; [|done]. apply elem_of_app. right. by apply list_elem_of_singleton.
  - intros i j Hi Hn Ho. destruct (Hclosed i j Hi Hn Ho) as [?|Hin]; [by left|].
    by apply not_elem_of_nil in Hin.
  - intros s' [Hs'|Hs']%elem_of_app Ho.
    + destruct (Hseeds s' Hs' Ho) as [?|Hin]; [by left|]. by apply not_elem_of_nil in Hin.
    + by right.
Qed.

Lemma scanning_enemies g enemies seeds f f' :
  scanning g seeds f [] → scanEnemies f enemies = Some f' →
  scanning g (seeds ++ omap (seedIndex g) enemies) f' [].
Proof.
  revert seeds f. induction enemies as [|e enemies IH]; intros seeds f Hinv Hrun.
  { simpl in *. injection Hrun as <-. by rewrite app_nil_r. }
  simpl in Hrun. destruct (startScan f _ _) as [f1|] eqn:Hscan; [|done]. simpl in Hrun.
  assert (Hw : width f = width g) by apply Hinv.
  unfold startScan in Hscan. rewrite Hw in Hscan.
  simpl omap. fold (seedIndex g e) in Hscan.
  destruct (seedIndex g e) as [s|].
  - rewrite cons_middle, app_assoc. apply (IH _ f1); [|done].
    apply (scanning_loop _ _ (scanBound f [s]) f [s]); [|done]. by apply scanning_seed.
  - injection Hscan as <-. by apply (IH _ f).
Qed.

(** The grid after [claim]: the flooded cells keep their state, every
    other cell is Claimed. *)
Lemma claim_cells enemies f :
  well_formed f →
  let g := resetCouldClaim (claimTrail f) in
  let seeds := omap (seedIndex g) enemies in
  ∃ f', claim enemies f = Some f'
        ∧ well_formed f' ∧ width f' = width f ∧ height f' = height f
        ∧ ∀ i, 0 ≤ i < area f →
               (flooded g seeds i → cellAt f' i = Some UNCLAIMED)
               ∧ (¬ flooded g seeds i → cellAt f' i = Some CLAIMED).
Proof.
  intros Hwf g seeds.
  assert (Hwfg : well_formed g) by (by apply resetCouldClaim_well_formed, claimTrail_well_formed).
  destruct (resetCouldClaim_spec (claimTrail f)) as (Hgc & _ & Hgw & Hgh & Hgl & Hgf).
  destruct (claimTrail_frame f) as (Htc & Htw & Hth & Htl).
  assert (Hareag : area g = area f) by (unfold area, g; congruence).
  assert (Hstart : scanning g [] g []).
  { apply scanning_start; [done|]. intros i Hi. unfold g at 1. rewrite Hgf.
    rewrite decide_True; [done|].
    rewrite (wf_flags_length _ (claimTrail_well_formed f Hwf)).
    unfold area. rewrite Htw, Hth. by rewrite Hareag in Hi. }
  destruct (scanEnemies_total enemies g) as (f3 & Hrun & Hsame).
  pose proof (scanning_enemies g enemies [] g f3 Hstart Hrun) as Hend.
  simpl in Hend. fold seeds in Hend.
  exists (claimRaised f3). unfold claim. fold g. rewrite Hrun. simpl.
  split; [done|].
  pose proof (scan_wf _ _ _ _ Hend) as Hwf3.
  destruct Hsame as (Hc3 & _ & Hw3 & Hh3).
  assert (Harea3 : area f3 = area f) by (rewrite <- Hareag; unfold area; congruence).
  destruct (claimRaised_frame f3) as (_ & Hrw & Hrh & _).
  { rewrite (wf_flags_length _ Hwf3), (wf_cells_length _ Hwf3). lia. }
  split; [by apply claimRaised_well_formed|].
  split; [unfold g in *; congruence|]. split; [unfold g in *; congruence|].
  intros i Hi. rewrite cellAt_claimRaised.
  rewrite (wf_flags_length _ Hwf3), Harea3.
  assert (Hcell : cellAt f3 i = cellAt (claimTrail f) i).
  { unfold cellAt. rewrite Hc3. unfold g. by rewrite Hgc. }
  destruct (scan_flags _ _ _ _ Hend i) as [b Hb]; [by rewrite Hareag|].
  pose proof (scanning_done g seeds f3 i Hend) as Hiff. unfold lowered in Hiff.
  rewrite Hb in *. destruct b.
  - rewrite decide_True by done. split; [|done].
    intros Hfl. apply Hiff in Hfl. done.
  - rewrite decide_False by (by intros [_ ?]). split; [|intros Hn; destruct Hn; by apply Hiff].
    intros Hfl. apply flooded_open in Hfl as [_ Hopen].
    assert (Hgi : cellAt g i = cellAt (claimTrail f) i) by (unfold cellAt, g; by rewrite Hgc).
    rewrite Hcell. rewrite Hgi in Hopen. rewrite cellAt_claimTrail in *.
    destruct (wf_cells f Hwf i Hi) as (s & Hs & Hst). rewrite Hs in *.
    rewrite (wf_cells_length f Hwf) in *.
    destruct s; try done.
    + by rewrite decide_False by (by intros [_ ?]).
    + rewrite decide_False in Hopen by (by intros [_ ?]). done.
    + rewrite decide_True in Hopen by done. done.
Qed.

(** After the trail is sealed, the open cells are the Unclaimed ones. *)
Lemma open_sealed f i :
  well_formed f →
  open (resetCouldClaim (claimTrail f)) i
  ↔ 0 ≤ i < area f ∧ cellAt f i = Some UNCLAIMED.
Proof.
  intros Hwf.
  destruct (resetCouldClaim_spec (claimTrail f)) as (Hgc & _ & Hgw & Hgh & _).
  destruct (claimTrail_frame f) as (_ & Htw & Hth & _).
  unfold open, area, cellAt. rewrite Hgc, Hgw, Hgh, Htw, Hth.
  fold (area f) (cellAt (claimTrail f) i) (cellAt f i). rewrite cellAt_claimTrail.
  rewrite (wf_cells_length f Hwf).
  split.
  - intros [Hi Hc]. split; [done|].
    destruct (wf_cells f Hwf i Hi) as (s & Hs & Hst). rewrite Hs in *.
    destruct s; try done.
    + rewrite decide_False in Hc by (by intros [_ ?]). done.
    + rewrite decide_True in Hc by done. done.
  - intros [Hi Hc]. split; [done|]. rewrite Hc.
    by rewrite decide_False by (by intros [_ ?]).
Qed.

(** ** Cells and indices *)

Lemma isOut_false f x y : isOut f x y = false ↔ inside f x y.
Proof.
  unfold isOut, inside. rewrite !orb_false_iff, !Z.ltb_ge, !Z.leb_gt. lia.
Qed.

Lemma getCell_inside f x y s :
  s ≠ OUT_OF_BOUNDS →
  getCell f x y = Some s ↔ inside f x y ∧ cellAt f (efficientIndex f x y) = Some s.
Proof.
  intros Hs. unfold getCell. destruct (isOut f x y) eqn:Hout.
  - split; [congruence|]. intros [Hin _]. apply isOut_false in Hin. congruence.
  - apply isOut_false in Hout. unfold cellAt. tauto.
Qed.

Lemma index_inside f x y :
  inside f x y →
  0 ≤ efficientIndex f x y < area f
  ∧ efficientIndex f x y / width f = y
  ∧ efficientIndex f x y mod width f = x.
Proof.
  intros [Hx Hy]. unfold efficientIndex, area.
  assert (Hd : (y * width f + x) / width f = y) by (apply row_of; lia).
  split; [nia|]. split; [done|].
  pose proof (Z.div_mod (y * width f + x) (width f) ltac:(lia)) as Hm.
  rewrite Hd in Hm. lia.
Qed.

Lemma inside_index f i :
  0 ≤ width f → 0 ≤ i < area f →
  inside f (i mod width f) (i / width f)
  ∧ efficientIndex f (i mod width f) (i / width f) = i.
Proof.
  intros Hw0 Hi. unfold area in Hi.
  assert (Hw : 0 < width f).
  { destruct (decide (width f = 0)) as [E|]; [rewrite E in Hi|]; lia. }
  pose proof (Z.div_mod i (width f) ltac:(lia)) as Hm.
  pose proof (Z.mod_pos_bound i (width f) Hw) as Hb.
  unfold inside, efficientIndex. split; [|lia]. split; [done|].
  split; [apply Z.div_pos; lia|].
  apply Z.div_lt_upper_bound; [done|]. lia.
Qed.

Lemma as_index_integral (q : Q) : integral q → as_index q = Some (Qfloor q).
Proof.
  intros Hq. unfold as_index.
  assert (Qeq_bool q (inject_Z (Qfloor q)) = true) as ->; [|done].
  apply Qeq_bool_iff. by symmetry.
Qed.

Lemma seedIndex_on_a_cell f g e :
  width g = width f → on_a_cell f e →
  seedIndex g e
  = Some (efficientIndex f (roundedPosition e).1 (roundedPosition e).2).
Proof.
  intros Hw (Hx & Hy & _). unfold seedIndex, roundedPosition, XY.xRounded, XY.yRounded.
  simpl. rewrite Hw.
  set (qx := XY.x (Entity.position (Enemy.entity e))) in *.
  set (qy := XY.y (Entity.position (Enemy.entity e))) in *.
  unfold integral in *.
  assert (Heq : (qy * inject_Z (width f) + qx
                 == inject_Z (Qfloor qy * width f + Qfloor qx))%Q).
  { rewrite inject_Z_plus, inject_Z_mult, Hx, Hy. reflexivity. }
  rewrite as_index_integral.
  - f_equal. rewrite (Qfloor_comp _ _ Heq). apply Qfloor_Z.
  - unfold integral. rewrite (Qfloor_comp _ _ Heq), Qfloor_Z. by symmetry.
Qed.

Lemma connected_flooded f seeds sx sy x y :
  well_formed f →
  efficientIndex f sx sy ∈ seeds →
  connected (unclaimed f) sx sy x y →
  inside f x y
  ∧ flooded (resetCouldClaim (claimTrail f)) seeds (efficientIndex f x y).
Proof.
  intros Hwf Hseed.
  assert (Hgw : width (resetCouldClaim (claimTrail f)) = width f).
  { destruct (resetCouldClaim_spec (claimTrail f)) as (_ & _ & -> & _).
    by destruct (claimTrail_frame f) as (_ & -> & _). }
  assert (Hpass : ∀ x y, unclaimed f x y →
            inside f x y ∧ open (resetCouldClaim (claimTrail f)) (efficientIndex f x y)).
  { intros x' y' Hp. apply getCell_inside in Hp as [Hin Hc]; [|done].
    split; [done|]. apply open_sealed; [done|]. split; [|done]. by apply index_inside. }
  induction 1 as [Hp|x y x' y' _ [Hin IH] Hadj Hp].
  - destruct (Hpass _ _ Hp) as [Hin Ho]. split; [done|]. by apply flooded_seed.
  - destruct (Hpass _ _ Hp) as [Hin' Ho]. split; [done|].
    apply flooded_step with (efficientIndex f x y); [done| |done].
    unfold neighbours. rewrite Hgw.
    destruct (index_inside f x y Hin) as (_ & Hrow & _).
    destruct (index_inside f x' y' Hin') as (_ & Hrow' & _).
    rewrite Hrow, Hrow'. unfold efficientIndex.
    destruct Hadj as [[-> [-> | ->]]|[-> [-> | ->]]].
    + left. lia.
    + right; left. lia.
    + right; right. split; [left; lia|done].
    + right; right. split; [right; lia|done].
Qed.

Lemma flooded_connected f enemies i :
  well_formed f → Forall (on_a_cell f) enemies →
  flooded (resetCouldClaim (claimTrail f))
          (omap (seedIndex (resetCouldClaim (claimTrail f))) enemies) i →
  reached (unclaimed f) enemies (i mod width f) (i / width f).
Proof.
  intros Hwf Hcells.
  assert (Hgw : width (resetCouldClaim (claimTrail f)) = width f).
  { destruct (resetCouldClaim_spec (claimTrail f)) as (_ & _ & -> & _).
    by destruct (claimTrail_frame f) as (_ & -> & _). }
  assert (Hpass : ∀ j, open (resetCouldClaim (claimTrail f)) j →
            inside f (j mod width f) (j / width f)
            ∧ unclaimed f (j mod width f) (j / width f)).
  { intros j Ho. apply open_sealed in Ho as [Hj Hc]; [|done].
    destruct (inside_index f j (wf_width f Hwf) Hj) as [Hin Hidx].
    split; [done|]. apply getCell_inside; [done|]. by rewrite Hidx. }
  induction 1 as [s Hs Ho|i j Hfi IH Hn Ho].
  - apply list_elem_of_omap in Hs as (e & He & Hse).
    rewrite Forall_forall in Hcells. pose proof (Hcells e He) as Hon.
    rewrite (seedIndex_on_a_cell f _ e Hgw Hon) in Hse.
    assert (s = efficientIndex f (roundedPosition e).1 (roundedPosition e).2) as ->
      by congruence.
    destruct Hon as (_ & _ & Hin).
    destruct (index_inside f _ _ Hin) as (_ & Hrow & Hcol).
    exists e. split; [done|]. rewrite Hrow, Hcol.
    apply connected_seed. destruct (Hpass _ Ho) as [_ Hp]. by rewrite Hrow, Hcol in Hp.
  - destruct IH as (e & He & Hconn). exists e. split; [done|].
    destruct (Hpass j Ho) as [Hinj Hpj].
    assert (Hoi : open (resetCouldClaim (claimTrail f)) i) by (by apply flooded_open in Hfi).
    destruct (Hpass i Hoi) as [Hini _].
    apply connected_step with (i mod width f) (i / width f); [done| |done].
    assert (Hw : 0 < width f) by (destruct Hini; lia).
    pose proof (Z.div_mod i (width f) ltac:(lia)) as Hmi.
    pose proof (Z.div_mod j (width f) ltac:(lia)) as Hmj.
    pose proof (Z.mod_pos_bound i (width f) Hw) as Hbi.
    pose proof (Z.mod_pos_bound j (width f) Hw) as Hbj.
    unfold neighbours in Hn. rewrite Hgw in Hn. unfold adjacent.
    destruct Hn as [->|[->|[Hij Hrow]]].
    + left. replace (i + width f) with (i + 1 * width f) by lia.
      rewrite Z_mod_plus_full, Z_div_plus_full by lia. lia.
    + left. replace (i - width f) with (i + (-1) * width f) by lia.
      rewrite Z_mod_plus_full, Z_div_plus_full by lia. lia.
    + right. rewrite <- Hrow in *. split; [done|]. lia.
Qed.

Lemma connected_pass pass sx sy x y : connected pass sx sy x y → pass x y.
Proof. by destruct 1. Qed.

Lemma ratio_between (a b : Z) :
  0 ≤ a ≤ b → 0 < b → js_between 0 1 (js_div a b) = true.
Proof.
  intros Ha Hb. unfold js_div. rewrite decide_False by lia. simpl.
  assert (H0 : (0 < b # 1)%Q) by (unfold Qlt; simpl; lia).
  apply andb_true_iff. split; apply Qle_bool_iff.
  - apply Qle_shift_div_l; [done|]. unfold Qle. simpl. lia.
  - apply Qle_shift_div_r; [done|]. unfold Qle. simpl. lia.
Qed.

(** ** The properties of the field *)

(** C1, amended.  On a well-formed field, with every enemy standing
    exactly on a cell of the grid, [claim] returns; every Claiming cell
    has become Claimed; every cell connected to the rounded position of
    some enemy through cells that are Unclaimed (what is not Claimed once
    the trail is sealed) is still Unclaimed; and every other cell is
    Claimed. *)
Theorem claim_floods (f : t) (enemies : list Enemy.t) :
  well_formed f → Forall (on_a_cell f) enemies →
  ∃ f', claim enemies f = Some f'
        ∧ width f' = width f ∧ height f' = height f
        ∧ ∀ x y, inside f x y →
            (getCell f x y = Some CLAIMING → getCell f' x y = Some CLAIMED)
            ∧ (reached (unclaimed f) enemies x y → getCell f' x y = Some UNCLAIMED)
            ∧ (¬ reached (unclaimed f) enemies x y → getCell f' x y = Some CLAIMED).
Proof.
  intros Hwf Hon.
  destruct (claim_cells enemies f Hwf) as (f' & Hrun & Hwf' & Hw & Hh & Hcells).
  exists f'. split; [done|]. split; [done|]. split; [done|].
  intros x y Hin.
  destruct (index_inside f x y Hin) as (Hi & Hrow & Hcol).
  destruct (Hcells _ Hi) as [Hyes Hno].
  assert (Hget : ∀ s, s ≠ OUT_OF_BOUNDS → cellAt f' (efficientIndex f x y) = Some s →
                      getCell f' x y = Some s).
  { intros s Hs Hc. apply getCell_inside; [done|]. split.
    - unfold inside. by rewrite Hw, Hh.
    - unfold efficientIndex in *. by rewrite Hw. }
  assert (Hgw : width (resetCouldClaim (claimTrail f)) = width f).
  { destruct (resetCouldClaim_spec (claimTrail f)) as (_ & _ & -> & _).
    by destruct (claimTrail_frame f) as (_ & -> & _). }
  assert (Hreach : reached (unclaimed f) enemies x y → getCell f' x y = Some UNCLAIMED).
  { intros (e & He & Hconn). apply Hget; [done|]. apply Hyes.
    eapply connected_flooded; [done| |exact Hconn].
    apply list_elem_of_omap. exists e. split; [done|].
    apply seedIndex_on_a_cell; [done|]. rewrite Forall_forall in Hon. by apply Hon. }
  assert (Hnot : ¬ reached (unclaimed f) enemies x y → getCell f' x y = Some CLAIMED).
  { intros Hn. apply Hget; [done|]. apply Hno. intros Hfl. apply Hn.
    apply (flooded_connected f enemies _ Hwf Hon) in Hfl. by rewrite Hrow, Hcol in Hfl. }
  split; [|done].
  intros Hc. apply Hnot. intros (e & _ & Hconn).
  apply connected_pass in Hconn. unfold unclaimed in Hconn. congruence.
Qed.

(** A 3 x 1 field whose middle cell is the trail, the enemy on the left
    cell: the trail is sealed, the right cell is cut off. *)
Lemma claim_floods_witness :
  ∃ f', claim [XonixLevelBuilder.spawn Enemy.IsEnemy 0 0]
              (setCellByXY CLAIMING 1 0 (new 3 1)) = Some f'
        ∧ rows f' = [[Some UNCLAIMED; Some CLAIMED; Some CLAIMED]].
Proof.
  destruct (claim_floods (setCellByXY CLAIMING 1 0 (new 3 1))
              [XonixLevelBuilder.spawn Enemy.IsEnemy 0 0])
    as (f' & Hrun & Hw & Hh & _).
  - apply arises_consistent, arises_set; [apply arises_new|done|reflexivity].
  - repeat constructor; vm_compute; congruence.
  - exists f'. split; [done|].
    assert (Some (rows f') = Some [[Some UNCLAIMED; Some CLAIMED; Some CLAIMED]]);
      [|congruence].
    change (Some (rows f')) with (rows <$> Some f'). rewrite <- Hrun. by vm_compute.
Defined.

(** C1 as stated fails.  On the 3 x 1 field Unclaimed, Claiming,
    Unclaimed with the enemy on (0, 0), the Claiming cell (1, 0) is next
    to the enemy and no Claimed cell lies between them, yet [claim] makes
    it Claimed, and the Unclaimed cell behind it as well. *)
Lemma claim_seals_before_flooding :
  rows (setCellByXY CLAIMING 1 0 (new 3 1))
  = [[Some UNCLAIMED; Some CLAIMING; Some UNCLAIMED]]
  ∧ rows <$> claim [XonixLevelBuilder.spawn Enemy.IsEnemy 0 0]
                   (setCellByXY CLAIMING 1 0 (new 3 1))
    = Some [[Some UNCLAIMED; Some CLAIMED; Some CLAIMED]]
  ∧ ¬ keeps_reached_unsealed [XonixLevelBuilder.spawn Enemy.IsEnemy 0 0]
        (setCellByXY CLAIMING 1 0 (new 3 1)).
Proof.
  split; [by vm_compute|]. split; [by vm_compute|].
  intros Hkeeps.
  destruct (claim [XonixLevelBuilder.spawn Enemy.IsEnemy 0 0]
              (setCellByXY CLAIMING 1 0 (new 3 1))) as [f'|] eqn:Hrun; [|by vm_compute in Hrun].
  apply (Hkeeps f' Hrun 1 0).
  - by right.
  - exists (XonixLevelBuilder.spawn Enemy.IsEnemy 0 0). split; [apply elem_of_cons; by left|].
    apply connected_step with 0 0.
    + apply connected_seed. by left.
    + right. split; [done|]. by left.
    + by right.
  - assert (Some (getCell f' 1 0) = Some (Some CLAIMED)); [|congruence].
    change (Some (getCell f' 1 0)) with ((fun f => getCell f 1 0) <$> Some f').
    rewrite <- Hrun. by vm_compute.
Qed.

(** C3: the scan of an enemy is seeded at the index computed from its
    position as it is, not from its rounded position.  A seed index that
    is not an integer, or that stops the scan (a Claimed cell), seeds
    nothing and leaves the field to the other enemies.  On a 2 x 1
    Unclaimed field an enemy at (1/2, 0), whose rounded position is the
    Unclaimed cell (0, 0), seeds nothing and the whole row is claimed; the
    same enemy on (0, 0) keeps the row Unclaimed. *)
Theorem claim_seeds_unrounded :
  (∀ f startX startY,
      as_index (startY * inject_Z (width f) + startX)%Q = None →
      startScan f startX startY = Some f)
  ∧ (∀ f startX startY cellIndex,
        as_index (startY * inject_Z (width f) + startX)%Q = Some cellIndex →
        shouldStopScan f cellIndex = true →
        startScan f startX startY = Some f)
  ∧ roundedPosition (XonixLevelBuilder.spawn Enemy.IsEnemy (1 # 2) 0) = (0, 0)
  ∧ getCell (new 2 1) 0 0 = Some UNCLAIMED
  ∧ seedIndex (new 2 1) (XonixLevelBuilder.spawn Enemy.IsEnemy (1 # 2) 0) = None
  ∧ rows <$> claim [XonixLevelBuilder.spawn Enemy.IsEnemy (1 # 2) 0] (new 2 1)
    = Some [[Some CLAIMED; Some CLAIMED]]
  ∧ rows <$> claim [XonixLevelBuilder.spawn Enemy.IsEnemy 0 0] (new 2 1)
    = Some [[Some UNCLAIMED; Some UNCLAIMED]].
Proof.
  split.
  { intros f startX startY Hi. unfold startScan. by rewrite Hi. }
  split.
  { intros f startX startY cellIndex Hi Hstop. unfold startScan. rewrite Hi.
    unfold scanBound. simpl. rewrite Hstop. by destruct (Nat.add _ _). }
  by vm_compute.
Qed.

(** A seed that is not an integer, and a seed on a Claimed cell next to a
    seed that floods. *)
Lemma claim_seeds_unrounded_witness :
  startScan (new 2 1) (1 # 2) 0 = Some (new 2 1)
  ∧ rows <$> claim [XonixLevelBuilder.spawn Enemy.IsEnemy 1 0;
                    XonixLevelBuilder.spawn Enemy.IsEnemy 0 0]
                   (setCellByXY CLAIMED 1 0 (new 3 1))
    = Some [[Some UNCLAIMED; Some CLAIMED; Some CLAIMED]].
Proof.
  destruct claim_seeds_unrounded as (Hnone & _).
  split; [apply Hnone|]; by vm_compute.
Defined.

(** C8, amended.  In every field that arises from the constructor by
    writes inside the grid of a storable state, [claim] and
    [clearClaiming], the three counters add up to [width * height], every
    counter is the number of cells in its state, and [claimedRatio] lies
    in [0, 1] when the grid has a cell; for an empty grid it is 0/0. *)
Theorem arises_counts (f : t) :
  arises f →
  count_get (cellCount f) CLAIMED + count_get (cellCount f) UNCLAIMED
    + count_get (cellCount f) CLAIMING = width f * height f
  ∧ (∀ s, count_get (cellCount f) s = occurrences f s)
  ∧ (0 < width f * height f → js_between 0 1 (claimedRatio f) = true)
  ∧ (width f * height f = 0 → claimedRatio f = NaN).
Proof.
  intros Hf. destruct (arises_consistent f Hf) as [Hwf Hm Ht].
  split; [exact Ht|]. split; [exact Hm|].
  unfold claimedRatio. rewrite (wf_cells_length f Hwf). fold (area f).
  pose proof (occurrences_bounds f CLAIMED) as Hb.
  rewrite (wf_cells_length f Hwf), <- Hm in Hb.
  unfold area in *. split.
  - intros Hpos. apply ratio_between; lia.
  - intros Hz. rewrite Hz in *.
    assert (count_get (cellCount f) CLAIMED = 0) as -> by lia. done.
Qed.

Lemma arises_counts_witness :
  js_between 0 1 (claimedRatio (setCellByXY CLAIMED 0 0 (new 2 2))) = true.
Proof.
  apply (arises_counts (setCellByXY CLAIMED 0 0 (new 2 2))).
  - apply arises_set; [apply arises_new|done|reflexivity].
  - reflexivity.
Defined.

(** C8 as stated fails on the empty grid, which the constructor builds
    for [XonixLevel.empty]: its ratio is not a number. *)
Lemma empty_ratio_not_between :
  arises (new 0 0) ∧ claimedRatio (new 0 0) = NaN
  ∧ js_between 0 1 (claimedRatio (new 0 0)) = false.
Proof. split; [apply arises_new|]. by vm_compute. Qed.

(** C10.  The loop of [startScan] empties its stack within the bound it
    is given, from any field and any stack, and a larger bound gives the
    same field; flags are only ever lowered, never raised again.  So
    every scan returns and [claim] returns, for every field and every
    list of enemies. *)
Theorem claim_terminates (f : t) (enemies : list Enemy.t) :
  (∀ stack, ∃ f',
      scanLoop (scanBound f stack) f stack = Some f'
      ∧ (∀ fuel, (scanBound f stack ≤ fuel)%nat → scanLoop fuel f stack = Some f')
      ∧ (raised f' ≤ raised f)%nat
      ∧ ∀ j, flagAt f' j = flagAt f j
             ∨ (flagAt f j = Some true ∧ flagAt f' j = Some false))
  ∧ (∀ startX startY, ∃ f', startScan f startX startY = Some f')
  ∧ ∃ f', claim enemies f = Some f'.
Proof.
  split; [|split].
  - intros stack.
    destruct (scanLoop_enough (scanBound f stack) f stack) as (f' & Hrun & _ & Hr & Hfl);
      [done|].
    exists f'. split; [done|]. split; [|done].
    intros fuel Hfuel. by apply scanLoop_more with (scanBound f stack).
  - intros x y. destruct (startScan_total f x y) as (f' & Hrun & _). by exists f'.
  - apply claim_total.
Qed.

(** The scenarios of the 5 x 5 field with a border of one cell and an
    enemy on (2, 2): a [claim] made at once gains nothing, and a trail
    through (2, 1) and (1, 2) cuts off (1, 1) alone. *)
Example claim_border_only :
  let b := XonixLevelBuilder.addEnemy 2 2
             (XonixLevelBuilder.claimBorder 1
                (XonixLevelBuilder.resize 5 5 XonixLevelBuilder.new)) in
  rows <$> claim (XonixLevelBuilder.enemies b) (XonixLevelBuilder.field b)
  = Some (rows (XonixLevelBuilder.field b)).
Proof. by vm_compute. Qed.

Example claim_cut_corner :
  let b := XonixLevelBuilder.addEnemy 2 2
             (XonixLevelBuilder.claimBorder 1
                (XonixLevelBuilder.resize 5 5 XonixLevelBuilder.new)) in
  let f := setCellByXY CLAIMING 1 2
             (setCellByXY CLAIMING 2 1 (XonixLevelBuilder.field b)) in
  (fun f' => (getCell f' 1 1, getCell f' 2 2, getCell f' 2 1, claimedRatio f'))
    <$> claim (XonixLevelBuilder.enemies b) f
  = Some (Some CLAIMED, Some UNCLAIMED, Some CLAIMED, Num (19 # 25)).
Proof. by vm_compute. Qed.

(** The scan of a fresh 2 x 2 field from its first cell, with a bound of
    a hundred iterations. *)
Lemma claim_terminates_witness :
  ∃ f', scanLoop 100 (resetCouldClaim (new 2 2)) [0] = Some f'.
Proof.
  destruct (claim_terminates (resetCouldClaim (new 2 2)) []) as (Hloop & _).
  destruct (Hloop [0]) as (f' & _ & Hmore & _).
  exists f'. apply Hmore. vm_compute. lia.
Defined.

End FieldFacts.

(** * The level: dying *)

Module LevelFacts.
Import XonixLevel LevelProps.

Lemma die_eq (l : t) :
  die l
  = let l1 :=
      mk (XonixField.clearClaiming (field l)) (enemies l)
         (Player.mk
            (Entity.mk (XY.setFrom (Entity.position (Player.entity (player l)))
                                   (defaultPlayerPosition l))
                       (Entity.direction (Player.entity (player l))) 0)
            (Player.lives (player l) - 1) (Player.claiming (player l)))
         (claimRatioWin l) (defaultPlayerPosition l) (countdownTime l) (timer l)
         (Died :: emitted l) in
    if Player.lives (player l) - 1 <? 0 then lose l1 else l1.
Proof. done. Qed.

Lemma die_emitted (l : t) :
  emitted (die l)
  = (if Player.lives (player l) - 1 <? 0 then [Lost] else []) ++ Died :: emitted l.
Proof. rewrite die_eq. cbv zeta. by destruct (_ <? 0). Qed.

Lemma die_enemies (l : t) : enemies (die l) = enemies l.
Proof. rewrite die_eq. cbv zeta. by destruct (_ <? 0). Qed.

Lemma die_fired (l : t) :
  fired Died (die l) = S (fired Died l) ∧ fired Won (die l) = fired Won l
  ∧ (fired Lost (die l) ≤ S (fired Lost l))%nat.
Proof.
  unfold fired. rewrite die_emitted.
  destruct (_ <? 0); simpl; rewrite ?filter_cons; simpl; split_and!; lia.
Qed.

(** C4.  [die] takes one life, stops the player, puts it back on the
    default position, turns every Claiming element of [cells] into
    Unclaimed and leaves the others, and fires "died" once; it fires
    "lost", once, exactly when the lives left are below zero. *)
Theorem die_effects (l : t) :
  let l' := die l in
  Player.lives (player l') = Player.lives (player l) - 1
  ∧ Entity.speed (Player.entity (player l')) = 0%Q
  ∧ Entity.position (Player.entity (player l')) = defaultPlayerPosition l
  ∧ arr_length (XonixField.cells (field l')) = arr_length (XonixField.cells (field l))
  ∧ (∀ i, FieldProps.cellAt (field l') i
          = if decide (0 ≤ i < arr_length (XonixField.cells (field l))
                       ∧ FieldProps.cellAt (field l) i = Some CLAIMING)
            then Some UNCLAIMED else FieldProps.cellAt (field l) i)
  ∧ emitted l'
    = (if Player.lives (player l) - 1 <? 0 then [Lost] else []) ++ Died :: emitted l
  ∧ fired Died l' = S (fired Died l)
  ∧ fired Won l' = fired Won l
  ∧ (fired Lost l' = S (fired Lost l) ↔ Player.lives (player l') < 0)
  ∧ (fired Lost l' = fired Lost l ↔ ¬ Player.lives (player l') < 0).
Proof.
  intros l'. unfold l'. rewrite die_eq. cbv zeta.
  destruct (FieldFacts.clearClaiming_frame (field l)) as (_ & _ & _ & Hlen).
  pose proof (FieldFacts.cellAt_clearClaiming (field l)) as Hcells.
  assert (Hpos : XY.setFrom (Entity.position (Player.entity (player l)))
                   (defaultPlayerPosition l) = defaultPlayerPosition l).
  { by destruct (defaultPlayerPosition l). }
  destruct (Player.lives (player l) - 1 <? 0) eqn:Hneg;
    [apply Z.ltb_lt in Hneg|apply Z.ltb_ge in Hneg];
    unfold lose, next, fired; simpl; rewrite ?Hpos, ?filter_cons; simpl;
    (split_and!; try done; try lia).
Qed.

End LevelFacts.

(** * Enemies: the collision response *)

Module EnemyFacts.
Import XonixLevel LevelProps.

(** C6.  [Enemy.onCollision] leaves the enemy where it is, negates each
    direction component exactly when the collision coordinate on that
    axis differs from the enemy's rounded coordinate, leaves the other
    enemies alone, and then calls [die], once, exactly when the collided
    cell state is Claiming or the collided entity is the player. *)
Theorem enemy_onCollision (level : t) (i : nat) (en : Enemy.t) (c : Collision) :
  enemies level !! i = Some en →
  let level' := EnemyMethods.onCollision i level c in
  let e := Enemy.entity en in
  let differs_x := negb (col_x c =? XY.xRounded (Entity.position e)) in
  let differs_y := negb (col_y c =? XY.yRounded (Entity.position e)) in
  let dies := bool_decide (collidedCellState c = Some CLAIMING)
              || bool_decide (collidedEntity c = Some ThePlayer) in
  let turned :=
    Entity.with_direction e
      (XY.mk (if differs_x then XY.x (Entity.direction e) * -1
              else XY.x (Entity.direction e))%Q
             (if differs_y then XY.y (Entity.direction e) * -1
              else XY.y (Entity.direction e))%Q) in
  enemies level' = <[i := Enemy.with_entity en turned]> (enemies level)
  ∧ enemies level' !! i = Some (Enemy.with_entity en turned)
  ∧ Entity.position turned = Entity.position e
  ∧ Entity.speed turned = Entity.speed e
  ∧ level' = (if dies then die else id) (EntityMethods.put level (TheEnemy i) turned)
  ∧ fired Died level' = (fired Died level + if dies then 1 else 0)%nat.
Proof.
  intros Hi level' e differs_x differs_y dies turned.
  assert (Hput : enemies (EntityMethods.put level (TheEnemy i) turned)
                 = <[i := Enemy.with_entity en turned]> (enemies level)).
  { simpl. apply list_eq. intros j. destruct (decide (i = j)) as [->|Hne].
    - rewrite list_lookup_alter_eq, Hi. simpl.
      rewrite list_lookup_insert_eq; [done|]. by apply lookup_lt_Some with en.
    - by rewrite list_lookup_alter_ne, list_lookup_insert_ne. }
  assert (Hstep : level'
            = (if dies then die else id) (EntityMethods.put level (TheEnemy i) turned)).
  { unfold level', EnemyMethods.onCollision. simpl EntityMethods.get. rewrite Hi. simpl.
    fold e. fold differs_x differs_y.
    assert (Hd : (if differs_y
                  then XY.mk (XY.x (if differs_x
                                    then XY.mk (XY.x (Entity.direction e) * -1)
                                               (XY.y (Entity.direction e))
                                    else Entity.direction e))
                             (XY.y (if differs_x
                                    then XY.mk (XY.x (Entity.direction e) * -1)
                                               (XY.y (Entity.direction e))
                                    else Entity.direction e) * -1)
                  else (if differs_x
                        then XY.mk (XY.x (Entity.direction e) * -1)
                                   (XY.y (Entity.direction e))
                        else Entity.direction e))%Q
                 = Entity.direction turned).
    { unfold turned. simpl. destruct differs_x, differs_y; simpl; try done.
      by destruct (Entity.direction e). }
    rewrite Hd. fold dies.
    assert (Ht : Entity.with_direction e (Entity.direction turned) = turned) by done.
    rewrite Ht. by destruct dies. }
  split.
  { rewrite Hstep. destruct dies; [|done]. by rewrite LevelFacts.die_enemies. }
  split.
  { rewrite Hstep.
    assert (enemies ((if dies then die else id)
                       (EntityMethods.put level (TheEnemy i) turned))
            = enemies (EntityMethods.put level (TheEnemy i) turned)) as ->.
    { destruct dies; [|done]. by rewrite LevelFacts.die_enemies. }
    rewrite Hput. apply list_lookup_insert_eq. by apply lookup_lt_Some with en. }
  split; [done|]. split; [done|]. split; [done|].
  rewrite Hstep. destruct dies.
  - destruct (LevelFacts.die_fired (EntityMethods.put level (TheEnemy i) turned))
      as (-> & _).
    unfold fired. simpl. lia.
  - unfold fired. simpl. lia.
Qed.

(** An enemy moving down-right onto the trail: both components are
    negated and the player dies. *)
Lemma enemy_onCollision_witness :
  let level := XonixLevel.new (XonixField.new 3 3)
                 [XonixLevelBuilder.spawn Enemy.IsEnemy 1 1] Player.new in
  let level' := EnemyMethods.onCollision 0 level
                  (mkCollision 2 2 (Some UNCLAIMED) (Some CLAIMING) None) in
  (Enemy.entity <$> enemies level' !! O)
  = Some (Entity.mk (XY.mk 1 1) (XY.mk (1 * -1) (1 * -1)) 1)
  ∧ fired Died level' = 1%nat.
Proof.
  intros level level'.
  destruct (enemy_onCollision level 0 (XonixLevelBuilder.spawn Enemy.IsEnemy 1 1)
              (mkCollision 2 2 (Some UNCLAIMED) (Some CLAIMING) None) eq_refl)
    as (_ & Hi & _ & _ & _ & Hd).
  split.
  - fold level' in Hi. rewrite Hi. reflexivity.
  - exact Hd.
Defined.

End EnemyFacts.

(** * Movement: the collision probes *)

Module CollisionFacts.
Import EntityMethods CollisionProps.

Lemma checkCollision_eq level this currX currY nextX nextY :
  checkCollision level this currX currY nextX nextY
  = providerMajor level this currX currY nextX nextY.
Proof.
  unfold checkCollision, providerMajor, checkCollisions, firstOf, cellHit, entityHit.
  simpl.
  destruct (checkCollisionForPosition (cellProvider level) _ _ _ nextX currY); [done|].
  destruct (checkCollisionForPosition (cellProvider level) _ _ _ currX nextY); [done|].
  destruct (checkCollisionForPosition (cellProvider level) _ _ _ nextX nextY); [done|].
  simpl.
  destruct (checkCollisionForPosition (entityProvider level) _ _ _ nextX currY); [done|].
  destruct (checkCollisionForPosition (entityProvider level) _ _ _ currX nextY); [done|].
  by destruct (checkCollisionForPosition (entityProvider level) _ _ _ nextX nextY).
Qed.

(** C2, amended.  The probes are made provider by provider: the cell
    lookup at the three candidates [(nextX, currY)], [(currX, nextY)],
    [(nextX, nextY)] in that order, and the entity lookup at the same
    three candidates only when no candidate gave a cell collision.  The
    first report in that order is the collision handed to [onCollision],
    and then the entity does not move; without a report it moves. *)
Theorem probes_provider_major (level : XonixLevel.t) (this : EntityRef)
    (onCollision : XonixLevel.t → Collision → option XonixLevel.t) (delta : Q) :
  (∀ currX currY nextX nextY,
      checkCollision level this currX currY nextX nextY
      = providerMajor level this currX currY nextX nextY)
  ∧ (∀ currX currY nextX nextY c,
        let currCell := XonixField.getCell (XonixLevel.field level) currX currY in
        firstOf [cellHit level currCell nextX currY; cellHit level currCell currX nextY;
                 cellHit level currCell nextX nextY] = Some c →
        checkCollision level this currX currY nextX nextY = Some c)
  ∧ update this onCollision delta level
    = match get level this with
      | None => Some level
      | Some e =>
          let '(currX, currY, nextX, nextY) := probeOf e delta in
          match providerMajor level this currX currY nextX nextY with
          | Some collision => onCollision level collision
          | None =>
              Some (put level this
                      (Entity.with_position e
                         (XY.mk (XY.x (Entity.position e)
                                 + XY.x (Entity.direction e) * (Entity.speed e * delta))%Q
                                (XY.y (Entity.position e)
                                 + XY.y (Entity.direction e) * (Entity.speed e * delta))%Q)))
          end
      end.
Proof.
  split; [intros; apply checkCollision_eq|]. split.
  - intros currX currY nextX nextY c currCell Hc. rewrite checkCollision_eq.
    unfold providerMajor. fold currCell. unfold firstOf in *. simpl in *.
    destruct (cellHit level currCell nextX currY); [done|].
    destruct (cellHit level currCell currX nextY); [done|].
    destruct (cellHit level currCell nextX nextY); [done|]. done.
  - unfold update. destruct (get level this) as [e|]; [|done].
    unfold probeOf. by rewrite checkCollision_eq.
Qed.

(** An enemy at (1, 1) moving down-right on a 3 x 3 field whose cell
    (1, 2) is Claimed, with another enemy on (2, 1). *)
Lemma probes_provider_major_witness :
  let level :=
    XonixLevel.new (XonixField.setCellByXY CLAIMED 1 2 (XonixField.new 3 3))
      [XonixLevelBuilder.spawn Enemy.IsEnemy 1 1;
       XonixLevelBuilder.spawn Enemy.IsEnemy 2 1] Player.new in
  checkCollision level (TheEnemy 0) 1 1 2 2
  = Some (mkCollision 1 2 (Some UNCLAIMED) (Some CLAIMED) None).
Proof.
  intros level.
  destruct (probes_provider_major level (TheEnemy 0) (fun l _ => Some l) 1)
    as (_ & H & _).
  apply H. reflexivity.
Defined.

(** C2 as stated fails: in the level above the entity lookup reports
    the other enemy at the first candidate (2, 1), yet the collision
    found is the cell collision at the second candidate (1, 2). *)
Lemma probes_not_candidate_major :
  let level :=
    XonixLevel.new (XonixField.setCellByXY CLAIMED 1 2 (XonixField.new 3 3))
      [XonixLevelBuilder.spawn Enemy.IsEnemy 1 1;
       XonixLevelBuilder.spawn Enemy.IsEnemy 2 1] Player.new in
  probeOf (Enemy.entity (XonixLevelBuilder.spawn Enemy.IsEnemy 1 1)) 1 = (1, 1, 2, 2)
  ∧ candidateMajor level (TheEnemy 0) 1 1 2 2
    = Some (mkCollision 2 1 (Some UNCLAIMED) None (Some (TheEnemy 1)))
  ∧ checkCollision level (TheEnemy 0) 1 1 2 2
    = Some (mkCollision 1 2 (Some UNCLAIMED) (Some CLAIMED) None)
  ∧ checkCollision level (TheEnemy 0) 1 1 2 2
    ≠ candidateMajor level (TheEnemy 0) 1 1 2 2.
Proof. intros level. by vm_compute. Qed.

Lemma find_entities level x y r :
  List.find (standsAt level x y) (XonixLevel.entities level) = Some r →
  r ∈ XonixLevel.entities level ∧ standsAt level x y r = true.
Proof. intros H. apply find_some in H as [Hin Hs]. by apply list_elem_of_In in Hin. Qed.

(** C9, amended.  At a candidate the entity lookup reports a collision
    exactly when the first entity of the level, player first, whose
    rounded position is the candidate is not the moving entity.  A
    report always means that another entity stands there; the converse
    holds whenever the moving entity does not itself stand on the
    candidate. *)
Theorem entity_collision_reported (level : XonixLevel.t) (this : EntityRef)
    (currCell : option CellState) (x y : Z) :
  (is_Some (entityHit level this currCell x y)
   ↔ ∃ r, List.find (standsAt level x y) (XonixLevel.entities level) = Some r
          ∧ r ≠ this)
  ∧ (is_Some (entityHit level this currCell x y) → otherStandsAt level this x y)
  ∧ (standsAt level x y this = false → otherStandsAt level this x y →
     is_Some (entityHit level this currCell x y)).
Proof.
  assert (Hfirst : is_Some (entityHit level this currCell x y)
            ↔ ∃ r, List.find (standsAt level x y) (XonixLevel.entities level) = Some r
                   ∧ r ≠ this).
  { unfold entityHit, checkCollisionForPosition, entityProvider, entityPredicate.
    destruct (List.find _ _) as [r|].
    - destruct (decide (r = this)) as [->|Hne].
      + rewrite bool_decide_true by done. simpl. split.
        * by intros [? ?].
        * intros (r & [= <-] & Hr). done.
      + rewrite bool_decide_false by done. simpl. split; [|done].
        intros _. by exists r.
    - split.
      + by intros [? ?].
      + by intros (r & ? & _). }
  split; [exact Hfirst|]. split.
  - intros (r & Hfind & Hne)%Hfirst. apply find_entities in Hfind as [Hin Hs].
    by exists r.
  - intros Hself (r & Hin & Hne & Hs). apply Hfirst.
    destruct (List.find (standsAt level x y) (XonixLevel.entities level)) as [r'|] eqn:Hfind.
    + exists r'. split; [done|]. apply find_entities in Hfind as [_ Hs'].
      intros ->. congruence.
    + apply list_elem_of_In in Hin.
      pose proof (find_none _ _ Hfind r Hin) as Hnone. simpl in Hnone. congruence.
Qed.

(** The player at (0, 0) heading right on a 2 x 1 field and an enemy on
    (1, 0): the enemy is reported at the first candidate. *)
Lemma entity_collision_reported_witness :
  let level :=
    XonixLevel.new (XonixField.new 2 1) [XonixLevelBuilder.spawn Enemy.IsEnemy 1 0]
      (Player.mk (Entity.mk (XY.mk 0 0) (XY.mk 1 0) 1) 3 false) in
  is_Some (entityHit level ThePlayer (Some UNCLAIMED) 1 0).
Proof.
  intros level.
  apply (entity_collision_reported level ThePlayer (Some UNCLAIMED) 1 0).
  - reflexivity.
  - exists (TheEnemy 0). split; [|done]. apply elem_of_cons. right.
    apply elem_of_cons. by left.
Defined.

(** C9 as stated fails: the player at (0, 0) heading right shares its
    cell with an enemy.  Its second candidate [(currX, nextY)] is that
    cell; another entity stands there, yet the lookup finds the player
    first, reports nothing, and the player moves on. *)
Lemma shared_cell_not_reported :
  let level :=
    XonixLevel.new (XonixField.new 2 1) [XonixLevelBuilder.spawn Enemy.IsEnemy 0 0]
      (Player.mk (Entity.mk (XY.mk 0 0) (XY.mk 1 0) 1) 3 false) in
  probeOf (Player.entity (XonixLevel.player level)) 1 = (0, 0, 1, 0)
  ∧ otherStandsAt level ThePlayer 0 0
  ∧ entityHit level ThePlayer (Some UNCLAIMED) 0 0 = None
  ∧ checkCollision level ThePlayer 0 0 1 0 = None.
Proof.
  intros level. split; [by vm_compute|]. split; [|by vm_compute].
  exists (TheEnemy 0). split; [|done]. apply elem_of_cons. right.
  apply elem_of_cons. by left.
Qed.

End CollisionFacts.

(** * The level: notifications over a lifetime *)

Module LifetimeFacts.
Import XonixLevel LevelProps.

Lemma adds_same l l' :
  emitted l' = emitted l → length (enemies l') = length (enemies l) → adds 0 0 l l'.
Proof. intros He Hn. unfold adds, fired. rewrite He. split_and!; [lia|lia|done]. Qed.

Lemma adds_weaken a b a' b' l l' :
  adds a b l l' → (a ≤ a')%nat → (b ≤ b')%nat → adds a' b' l l'.
Proof. intros (? & ? & ?) ? ?. split_and!; [lia|lia|done]. Qed.

Lemma adds_trans a b a' b' l l1 l2 :
  adds a b l l1 → adds a' b' l1 l2 → adds (a + a') (b + b') l l2.
Proof. intros (? & ? & ?) (? & ? & ?). split_and!; [lia|lia|congruence]. Qed.

Lemma die_adds l : adds 0 1 l (die l).
Proof.
  destruct (LevelFacts.die_fired l) as (_ & Hw & Hl).
  split; [by rewrite Hw, Nat.add_0_r|]. split; [lia|].
  by rewrite LevelFacts.die_enemies.
Qed.

Lemma claim_adds l : ∃ l', claim l = Some l' ∧ adds 1 0 l l'.
Proof.
  unfold claim. destruct (FieldFacts.claim_total (enemies l) (field l)) as (f & ->).
  simpl. eexists. split; [done|].
  destruct (js_gt _ _).
  - unfold adds, win, fired. simpl. rewrite !filter_cons. simpl. split_and!; [lia|lia|done].
  - apply adds_weaken with 0%nat 0%nat; [by apply adds_same|lia|lia].
Qed.

Lemma timerTick_adds l : adds 0 1 l (timerTick l).
Proof.
  unfold timerTick. destruct (XonixTimer.tick (timer l)) as [tm fired].
  destruct fired.
  - unfold adds, lose, LevelProps.fired. simpl. rewrite !filter_cons. simpl.
    split_and!; [lia|lia|done].
  - apply adds_weaken with 0%nat 0%nat; [by apply adds_same|lia|lia].
Qed.

Lemma put_adds l r e : adds 0 0 l (EntityMethods.put l r e).
Proof.
  apply adds_same; [by destruct r|]. destruct r; [done|]. simpl. apply length_alter.
Qed.

Lemma update_adds a b this onCollision delta l :
  (∀ l c, ∃ l', onCollision l c = Some l' ∧ adds a b l l') →
  ∃ l', EntityMethods.update this onCollision delta l = Some l' ∧ adds a b l l'.
Proof.
  intros Hoc. unfold EntityMethods.update.
  destruct (EntityMethods.get l this) as [e|].
  - destruct (EntityMethods.checkCollision _ _ _ _ _ _) as [c|]; [apply Hoc|].
    eexists. split; [done|].
    apply adds_weaken with 0%nat 0%nat; [apply put_adds|lia|lia].
  - exists l. split; [done|].
    apply adds_weaken with 0%nat 0%nat; [by apply adds_same|lia|lia].
Qed.

Lemma player_onCollision_adds l c :
  ∃ l', PlayerMethods.onCollision l c = Some l' ∧ adds 1 1 l l'.
Proof.
  unfold PlayerMethods.onCollision.
  destruct (collidedCellState c) as [[]|].
  - eexists. split; [done|]. apply adds_weaken with 0%nat 0%nat; [by apply adds_same|lia|lia].
  - eexists. split; [done|]. apply adds_weaken with 0%nat 0%nat; [by apply adds_same|lia|lia].
  - match goal with |- context [claim ?l0] => destruct (claim_adds l0) as (l1 & -> & H1) end.
    simpl. eexists. split; [done|].
    apply adds_weaken with (0 + (1 + 0))%nat (0 + (0 + 0))%nat; [|lia|lia].
    eapply adds_trans; [|eapply adds_trans; [exact H1|]]; by apply adds_same.
  - eexists. split; [done|].
    apply adds_weaken with (0 + 0)%nat (0 + 1)%nat; [|lia|lia].
    eapply adds_trans; [|apply die_adds]. by apply adds_same.
  - eexists. split; [done|]. apply adds_weaken with 0%nat 0%nat; [by apply adds_same|lia|lia].
Qed.

Lemma player_update_adds delta l :
  ∃ l', PlayerMethods.update delta l = Some l' ∧ adds 1 1 l l'.
Proof.
  unfold PlayerMethods.update.
  destruct (update_adds 1 1 ThePlayer PlayerMethods.onCollision delta l
              player_onCollision_adds) as (l1 & -> & H1).
  simpl. destruct (_ && _).
  - eexists. split; [done|].
    apply adds_weaken with (1 + 0)%nat (1 + 0)%nat; [|lia|lia].
    eapply adds_trans; [exact H1|]. by apply adds_same.
  - by exists l1.
Qed.

Lemma enemy_onCollision_adds i l c : adds 0 1 l (EnemyMethods.onCollision i l c).
Proof.
  unfold EnemyMethods.onCollision.
  destruct (EntityMethods.get l (TheEnemy i)) as [e|];
    [|apply adds_weaken with 0%nat 0%nat; [by apply adds_same|lia|lia]].
  destruct (_ || _).
  - apply adds_weaken with (0 + 0)%nat (0 + 1)%nat; [|lia|lia].
    eapply adds_trans; [apply put_adds|apply die_adds].
  - apply adds_weaken with 0%nat 0%nat; [apply put_adds|lia|lia].
Qed.

Lemma enemyOnCollision_adds i l c :
  ∃ l', XonixGame.enemyOnCollision i l c = Some l' ∧ adds 0 1 l l'.
Proof.
  assert (Hd : adds 0 1 l (DestroyerMethods.onCollision i l c)).
  { unfold DestroyerMethods.onCollision. destruct (bool_decide _).
    - apply adds_weaken with (0 + 0)%nat (1 + 0)%nat; [|lia|lia].
      eapply adds_trans; [apply enemy_onCollision_adds|]. by apply adds_same.
    - apply enemy_onCollision_adds. }
  unfold XonixGame.enemyOnCollision.
  destruct (Enemy.class <$> enemies l !! i) as [[]|]; eexists; split; try done;
    apply enemy_onCollision_adds.
Qed.

Lemma forEach_enemies_adds delta (js : list nat) l :
  ∃ l', XonixGame.forEach delta (map TheEnemy js) l = Some l'
        ∧ adds 0 (length js) l l'.
Proof.
  revert l. induction js as [|j js IH]; intros l; simpl.
  { exists l. split; [done|]. by apply adds_same. }
  destruct (update_adds 0 1 (TheEnemy j) (XonixGame.enemyOnCollision j) delta l
              (enemyOnCollision_adds j)) as (l1 & -> & H1).
  simpl. destruct (IH l1) as (l2 & -> & H2). exists l2. split; [done|].
  apply adds_weaken with (0 + 0)%nat (1 + length js)%nat; [|lia|lia].
  by eapply adds_trans.
Qed.

Lemma tick_adds l :
  ∃ l', XonixGame.tick l = Some l' ∧ adds 1 (S (length (enemies l))) l l'.
Proof.
  unfold XonixGame.tick, XonixGame.update, entities. simpl.
  destruct (player_update_adds 1 l) as (l1 & -> & H1). simpl.
  destruct (forEach_enemies_adds 1 (seq 0 (length (enemies l))) l1) as (l2 & Hrun & H2).
  rewrite Hrun.
  exists l2. split; [done|]. rewrite length_seq in H2.
  apply adds_weaken with (1 + 0)%nat (1 + length (enemies l))%nat; [|lia|lia].
  by eapply adds_trans.
Qed.

Lemma perform_adds c l :
  ∃ l', perform c l = Some l' ∧ adds (wonBudget c) (lostBudget l c) l l'.
Proof.
  destruct c; simpl.
  - apply tick_adds.
  - eexists. split; [done|]. apply die_adds.
  - apply claim_adds.
  - eexists. split; [done|]. apply timerTick_adds.
Qed.

(** C5, amended.  Every sequence of ticks, [die], [claim] and timer
    seconds returns.  A [claim] or a tick fires "won" at most once; a
    [die] or a timer second fires "lost" at most once and a tick at most
    once per entity.  Nothing limits them from one call to the next. *)
Theorem notifications_per_call (cs : list Call) (l : t) :
  ∃ l', performAll cs l = Some l'
        ∧ (fired Won l' ≤ fired Won l + budget wonBudget cs)%nat
        ∧ (fired Lost l' ≤ fired Lost l + budget (lostBudget l) cs)%nat
        ∧ length (enemies l') = length (enemies l).
Proof.
  revert l. induction cs as [|c cs IH]; intros l; simpl.
  { exists l. split_and!; [done|lia|lia|done]. }
  destruct (perform_adds c l) as (l1 & -> & Hw & Hl & Hn). simpl.
  destruct (IH l1) as (l2 & -> & Hw2 & Hl2 & Hn2).
  exists l2. split; [done|].
  assert (Hb : budget (lostBudget l1) cs = budget (lostBudget l) cs).
  { clear -Hn. induction cs as [|c' cs IHcs]; [done|]. simpl. rewrite IHcs.
    destruct c'; simpl; congruence. }
  rewrite Hb in Hl2. split_and!; [lia|lia|congruence].
Qed.

(** C5 as stated fails: the level keeps no record of having fired.  On a
    1 x 1 field without enemies and with no life left, two [claim]s fire
    "won" twice and two [die]s fire "lost" twice. *)
Lemma won_and_lost_fire_again :
  let level := XonixLevel.new (XonixField.new 1 1) [] Player.new in
  emitted <$> performAll [Claim; Claim] level = Some [Won; Won]
  ∧ emitted <$> performAll [Die; Die] level = Some [Lost; Died; Lost; Died]
  ∧ ¬ fires_at_most_once Won level
  ∧ ¬ fires_at_most_once Lost level.
Proof.
  intros level. split; [by vm_compute|]. split; [by vm_compute|]. split.
  - intros H.
    destruct (performAll [Claim; Claim] level) as [l'|] eqn:Hrun; [|by vm_compute in Hrun].
    specialize (H [Claim; Claim] l' Hrun).
    assert (Hf : Some (fired Won l') = Some 2%nat).
    { change (Some (fired Won l')) with (fired Won <$> Some l'). rewrite <- Hrun.
      by vm_compute. }
    injection Hf as Hf. rewrite Hf in H. vm_compute in H. lia.
  - intros H.
    specialize (H [Die; Die] (die (die level)) eq_refl). vm_compute in H. lia.
Qed.

End LifetimeFacts.

(** * The timer, in general *)

Module TimerMore.
Import XonixTimer.

Lemma tick_running (cd : bool) (inc s : Z) :
  tick (mk s (Some (mkInterval cd inc)) false)
  = if cd && (s + inc <? 0)
    then (mk (s + inc) (Some (mkInterval cd inc)) true, true)
    else (mk (s + inc) (Some (mkInterval cd inc)) false, false).
Proof. unfold tick, callback. simpl. by destruct (cd && (s + inc <? 0)). Qed.

Lemma ticks_frozen (n : nat) (tm : t) : paused tm = true → ticks n tm = (tm, O).
Proof.
  intros Hp. induction n as [|n IH]; [done|].
  simpl. unfold tick. destruct (interval tm) as [iv|].
  - unfold callback. rewrite Hp. by rewrite IH.
  - by rewrite IH.
Qed.

Lemma ticks_down (n : nat) (s : Z) :
  Z.of_nat n ≤ s →
  ticks n (mk s (Some (mkInterval true (-1))) false)
  = (mk (s - Z.of_nat n) (Some (mkInterval true (-1))) false, O).
Proof.
  revert s. induction n as [|n IH]; intros s Hs.
  - simpl. do 2 f_equal. lia.
  - cbn [ticks]. rewrite tick_running.
    destruct (s + -1 <? 0) eqn:Hneg; [apply Z.ltb_lt in Hneg; lia|].
    simpl andb. cbv iota. rewrite IH by lia. do 2 f_equal. lia.
Qed.

Lemma ticks_split (n m : nat) (tm : t) :
  ticks (n + m) tm
  = let '(tm1, a) := ticks n tm in
    let '(tm2, b) := ticks m tm1 in (tm2, (a + b)%nat).
Proof.
  revert tm. induction n as [|n IH]; intros tm.
  - simpl. by destruct (ticks m tm).
  - cbn [Nat.add ticks]. destruct (tick tm) as [tm1 fired].
    rewrite IH. destruct (ticks n tm1) as [tm2 a].
    destruct (ticks m tm2) as [tm3 b]. f_equal. lia.
Qed.

Lemma ticks_out (n : nat) (s : Z) :
  Z.max s 0 < Z.of_nat n →
  ticks n (mk s (Some (mkInterval true (-1))) false)
  = (mk (Z.min s 0 - 1) (Some (mkInterval true (-1))) true, 1%nat).
Proof.
  intros Hn.
  replace n with (Z.to_nat (Z.max s 0) + S (n - 1 - Z.to_nat (Z.max s 0)))%nat by lia.
  rewrite ticks_split.
  destruct (decide (s < 0)) as [Hs|Hs].
  - replace (Z.to_nat (Z.max s 0)) with O by lia.
    cbn [ticks]. rewrite tick_running.
    destruct (s + -1 <? 0) eqn:Hneg; [|apply Z.ltb_ge in Hneg; lia].
    simpl andb. cbv iota. rewrite ticks_frozen by done.
    do 2 f_equal. lia.
  - rewrite ticks_down by lia.
    cbn [ticks]. rewrite tick_running.
    destruct (s - Z.of_nat (Z.to_nat (Z.max s 0)) + -1 <? 0) eqn:Hneg;
      [|apply Z.ltb_ge in Hneg; lia].
    simpl andb. cbv iota. rewrite ticks_frozen by done.
    do 2 f_equal. lia.
Qed.

Lemma ticks_up (n : nat) (s : Z) :
  ticks n (mk s (Some (mkInterval false 1)) false)
  = (mk (s + Z.of_nat n) (Some (mkInterval false 1)) false, O).
Proof.
  revert s. induction n as [|n IH]; intros s.
  - simpl. do 2 f_equal. lia.
  - cbn [ticks]. rewrite tick_running. simpl andb. cbv iota.
    rewrite IH. do 2 f_equal. lia.
Qed.

Lemma start_running (cd : bool) (k : Z) (tm : t) :
  paused tm = false →
  start cd k tm = mk k (Some (mkInterval cd (if cd then -1 else 1))) false.
Proof. intros Hp. unfold start. rewrite Hp. simpl. by rewrite Hp. Qed.

(** X1.  A countdown from any [k], started on a timer that is not paused:
    as long as no more than [k] seconds have passed the timer shows what
    is left and no time-up was fired; the second after it reaches 0 (the
    very first second when [k] is negative) fires the time-up and pauses
    the timer, and however many more seconds pass, that time-up remains
    the only one and the timer stays where it stopped. *)
Theorem countdown_runs_out (tm : t) (k : Z) :
  paused tm = false →
  let started := start true k tm in
  (∀ n, Z.of_nat n ≤ k →
        ticks n started = (mk (k - Z.of_nat n) (interval started) false, O))
  ∧ (∀ n, Z.max k 0 < Z.of_nat n →
          ticks n started = (mk (Z.min k 0 - 1) (interval started) true, 1%nat)).
Proof.
  intros Hp started. unfold started. rewrite (start_running _ _ _ Hp).
  simpl interval. split; intros n Hn.
  - by apply ticks_down.
  - by apply ticks_out.
Qed.

Lemma countdown_runs_out_witness :
  paused new = false
  ∧ ticks 7 (start true 5 new) = (mk (-1) (interval (start true 5 new)) true, 1%nat).
Proof.
  split; [reflexivity|].
  apply (proj2 (countdown_runs_out new 5 eq_refl) 7%nat). simpl. lia.
Defined.

(** X2.  A timer started without countdown counts up from its start value
    by one each second and never fires the time-up nor pauses, whatever
    the start value, negative ones included. *)
Theorem countup_never_fires (tm : t) (k : Z) (n : nat) :
  paused tm = false →
  ticks n (start false k tm)
  = (mk (k + Z.of_nat n) (interval (start false k tm)) false, O).
Proof.
  intros Hp. rewrite (start_running _ _ _ Hp). simpl interval. apply ticks_up.
Qed.

Lemma countup_never_fires_witness :
  paused new = false ∧ (ticks 9 (start false (-3) new)).1 = mk 6 (Some (mkInterval false 1)) false.
Proof.
  split; [reflexivity|].
  by rewrite (countup_never_fires new (-3) 9 eq_refl).
Defined.

(** X3.  [pause] freezes a timer: however many seconds pass while it is
    paused, nothing is counted and nothing fires, and a later [resume], or
    a [start] with whatever arguments, continues exactly as the timer
    would have without the pause; [start] on a paused timer does not
    restart it. *)
Theorem pause_then_start_continues (tm : t) (waited n : nat) (cd : bool) (k : Z) :
  paused tm = false →
  ticks waited (pause tm) = (pause tm, O)
  ∧ ticks n (resume (ticks waited (pause tm)).1) = ticks n tm
  ∧ ticks n (start cd k (ticks waited (pause tm)).1) = ticks n tm.
Proof.
  intros Hp.
  assert (Hw : ticks waited (pause tm) = (pause tm, O)) by by apply ticks_frozen.
  rewrite Hw. simpl fst.
  assert (Hr : resume (pause tm) = tm).
  { destruct tm as [s iv p]. simpl in Hp. subst p. done. }
  split; [done|]. split; [by rewrite Hr|].
  unfold start. simpl paused. cbv iota. by rewrite Hr.
Qed.

Lemma pause_then_start_continues_witness :
  paused (start true 3 new) = false
  ∧ ticks 2 (start false 50 (ticks 10 (pause (start true 3 new))).1)
    = ticks 2 (start true 3 new).
Proof.
  split; [reflexivity|].
  apply (pause_then_start_continues (start true 3 new) 10 2 false 50 eq_refl).
Defined.

(** X4.  [stop] keeps the paused flag.  A timer that is stopped while it
    is paused and then started is only resumed: no schedule is live, so it
    stays at 0 and never fires, whatever [start] was asked for. *)
Theorem stopped_while_paused_never_runs (tm : t) (cd : bool) (k : Z) (n : nat) :
  let restarted := start cd k (stop (pause tm)) in
  restarted = mk 0 None false
  ∧ ticks n restarted = (mk 0 None false, O).
Proof.
  simpl. split; [done|].
  unfold start, stop, pause, resume. simpl.
  induction n as [|n IH]; [done|].
  cbn [ticks]. unfold tick. simpl interval. cbv iota. by rewrite IH.
Qed.

(** X5.  A countdown that has run out is left paused at -1 with its
    schedule live, so a later [start], whatever its arguments, does not
    begin a new countdown: it resumes the old one, which fires the
    time-up once more after one second and pauses again at -2. *)
Theorem start_after_time_up (tm : t) (k : Z) (n : nat) (cd : bool) (k' : Z) :
  paused tm = false → 0 ≤ k → k < Z.of_nat n →
  let again := start cd k' (ticks n (start true k tm)).1 in
  again = mk (-1) (Some (mkInterval true (-1))) false
  ∧ ∀ m, (1 ≤ m)%nat →
         ticks m again = (mk (-2) (Some (mkInterval true (-1))) true, 1%nat).
Proof.
  intros Hp Hk Hn again. unfold again.
  rewrite (start_running _ _ _ Hp), ticks_out by lia.
  replace (Z.min k 0 - 1) with (-1) by lia.
  split; [done|]. intros m Hm.
  unfold start. simpl. unfold resume. simpl.
  apply (ticks_out m (-1)). lia.
Qed.

Lemma start_after_time_up_witness :
  paused new = false ∧ 0 ≤ 2 ∧ 2 < Z.of_nat 3
  ∧ ticks 1 (start true 120 (ticks 3 (start true 2 new)).1)
    = (mk (-2) (Some (mkInterval true (-1))) true, 1%nat).
Proof.
  split; [reflexivity|]. split; [lia|]. split; [simpl; lia|].
  apply (proj2 (start_after_time_up new 2 3 true 120 eq_refl ltac:(lia) ltac:(simpl; lia)) 1%nat).
  lia.
Defined.

End TimerMore.

(** * The field: reads, writes and what [claim] and [clearClaiming] leave *)

Module FieldMore.
Import XonixField FieldProps ShapeProps.

Lemma index_injective (f : t) (x y x' y' : Z) :
  inside f x y → inside f x' y' →
  efficientIndex f x y = efficientIndex f x' y' → x = x' ∧ y = y'.
Proof.
  intros H1 H2 He.
  destruct (FieldFacts.index_inside f x y H1) as (_ & Hy & Hx).
  destruct (FieldFacts.index_inside f x' y' H2) as (_ & Hy' & Hx').
  rewrite He in Hy, Hx. split; congruence.
Qed.

Lemma getCell_outside (f : t) (x y : Z) :
  ¬ inside f x y → getCell f x y = Some OUT_OF_BOUNDS.
Proof.
  intros Hout. unfold getCell.
  destruct (isOut f x y) eqn:Ho; [done|].
  by apply FieldFacts.isOut_false in Ho.
Qed.

Lemma getCell_cellAt (f : t) (x y : Z) :
  inside f x y → getCell f x y = cellAt f (efficientIndex f x y).
Proof.
  intros Hin. unfold getCell.
  by rewrite (proj2 (FieldFacts.isOut_false f x y) Hin).
Qed.

Lemma inside_dec (f : t) (x y : Z) : inside f x y ∨ ¬ inside f x y.
Proof. unfold inside. lia. Qed.


Lemma getCell_written (f : t) (v : CellState) (x y : Z) :
  inside f x y → getCell (setCellByXY v x y f) x y = Some v.
Proof.
  intros Hin. rewrite getCell_cellAt by done.
  unfold setCellByXY.
  change (efficientIndex (setCellDirect v (efficientIndex f x y) f) x y)
    with (efficientIndex f x y).
  rewrite FieldFacts.cellAt_setCellDirect.
  by destruct (decide (efficientIndex f x y = efficientIndex f x y)).
Qed.

Lemma getCell_elsewhere (f : t) (v : CellState) (x y x' y' : Z) :
  inside f x y → (x', y') ≠ (x, y) →
  getCell (setCellByXY v x y f) x' y' = getCell f x' y'.
Proof.
  intros Hin Hne.
  destruct (inside_dec f x' y') as [Hi|Ho].
  - rewrite !getCell_cellAt by done.
    unfold setCellByXY.
    change (efficientIndex (setCellDirect v (efficientIndex f x y) f) x' y')
      with (efficientIndex f x' y').
    rewrite FieldFacts.cellAt_setCellDirect.
    destruct (decide (efficientIndex f x y = efficientIndex f x' y')) as [He|]; [|done].
    destruct (index_injective f x y x' y' Hin Hi He). congruence.
  - by rewrite !getCell_outside.
Qed.

Lemma cleared_getCell (f : t) (x y : Z) :
  well_formed f →
  getCell (clearClaiming f) x y
  = if decide (getCell f x y = Some CLAIMING) then Some UNCLAIMED else getCell f x y.
Proof.
  intros Hwf.
  destruct (FieldFacts.clearClaiming_frame f) as (_ & Hw & Hh & Hlen).
  destruct (inside_dec f x y) as [Hi|Ho].
  - rewrite !getCell_cellAt by (done || (unfold inside; by rewrite Hw, Hh)).
    unfold efficientIndex. rewrite Hw.
    rewrite FieldFacts.cellAt_clearClaiming.
    destruct (FieldFacts.index_inside f x y Hi) as (Hr & _).
    unfold efficientIndex in Hr. rewrite <- (wf_cells_length f Hwf) in Hr.
    destruct (decide (cellAt f (y * width f + x) = Some CLAIMING)) as [Hs|Hs].
    + by destruct (decide (0 ≤ y * width f + x < arr_length (cells f)
                           ∧ cellAt f (y * width f + x) = Some CLAIMING)) as [|[]].
    + destruct (decide (0 ≤ y * width f + x < arr_length (cells f)
                        ∧ cellAt f (y * width f + x) = Some CLAIMING)) as [[_ ?]|]; done.
  - rewrite !getCell_outside by (done || (unfold inside; by rewrite Hw, Hh)).
    by destruct (decide (Some OUT_OF_BOUNDS = Some CLAIMING)).
Qed.

Lemma cleared_claimed_count (f : t) :
  consistent f →
  count_get (cellCount (clearClaiming f)) CLAIMED = count_get (cellCount f) CLAIMED.
Proof.
  intros Hc.
  pose proof (FieldFacts.clearClaiming_consistent f Hc) as Hc'.
  destruct (FieldFacts.clearClaiming_frame f) as (_ & _ & _ & Hlen).
  rewrite (cons_match _ Hc'), (cons_match f Hc). unfold occurrences.
  rewrite Hlen. f_equal. apply FieldFacts.length_filter_ext.
  intros j _. rewrite FieldFacts.cellAt_clearClaiming.
  destruct (decide (0 ≤ j < arr_length (cells f) ∧ cellAt f j = Some CLAIMING))
    as [[_ Hj]|_]; [|done].
  rewrite Hj. split; congruence.
Qed.

(** X6.  Writing a cell of the grid and reading it back gives the state
    written, every other coordinate pair, inside or outside the grid,
    reads as before, and the size of the grid is unchanged. *)
Theorem set_then_get (f : t) (v : CellState) (x y : Z) :
  inside f x y →
  let f' := setCellByXY v x y f in
  width f' = width f ∧ height f' = height f
  ∧ getCell f' x y = Some v
  ∧ ∀ x' y', (x', y') ≠ (x, y) → getCell f' x' y' = getCell f x' y'.
Proof.
  intros Hin f'. split; [done|]. split; [done|].
  split; [by apply getCell_written|].
  intros x' y' Hne. by apply getCell_elsewhere.
Qed.


Lemma set_then_get_witness :
  inside (new 3 2) 2 1
  ∧ getCell (setCellByXY CLAIMING 2 1 (new 3 2)) 2 1 = Some CLAIMING.
Proof.
  assert (H : inside (new 3 2) 2 1) by (vm_compute; intuition congruence).
  split; [exact H|].
  apply (set_then_get (new 3 2) CLAIMING 2 1 H).
Defined.

(** X7.  On every field that arises from the constructor by writes inside
    the grid, [claim] and [clearClaiming], [getCell] always answers with a
    state, never with [undefined]: [OUT_OF_BOUNDS] exactly for the
    coordinates outside the grid, and one of the three stored states for
    the coordinates inside. *)
Theorem getCell_always_a_state (f : t) (x y : Z) :
  arises f →
  ∃ s, getCell f x y = Some s ∧ (s = OUT_OF_BOUNDS ↔ ¬ inside f x y).
Proof.
  intros Ha. apply FieldFacts.arises_consistent in Ha. destruct Ha as [Hwf _ _].
  destruct (inside_dec f x y) as [Hi|Ho].
  - destruct (FieldFacts.index_inside f x y Hi) as (Hr & _).
    destruct (wf_cells f Hwf _ Hr) as (s & Hs & Hst).
    exists s. rewrite getCell_cellAt by done. split; [done|].
    split; [intros ->; by destruct Hst|done].
  - exists OUT_OF_BOUNDS. split; [by apply getCell_outside|done].
Qed.

Lemma getCell_always_a_state_witness :
  ∃ s, getCell (clearClaiming (new 2 2)) 5 0 = Some s
       ∧ (s = OUT_OF_BOUNDS ↔ ¬ inside (clearClaiming (new 2 2)) 5 0).
Proof.
  apply (getCell_always_a_state (clearClaiming (new 2 2)) 5 0).
  apply arises_clearClaiming, arises_new.
Defined.

Lemma Qfloor_div (i w : Z) : 0 < w → Qfloor (Qmake i 1 / Qmake w 1)%Q = i / w.
Proof.
  intros Hw. destruct w as [|p|p]; [lia| |lia].
  unfold Qdiv, Qinv, Qmult, Qfloor. simpl Qnum. simpl Qden.
  by rewrite Z.mul_1_r.
Qed.

Lemma flat_map_nothing {A B} (l : list A) : flat_map (fun _ : A => @nil B) l = [].
Proof. by induction l. Qed.

Lemma visit_as_row (f : t) (y : Z) :
  0 < width f → 0 ≤ y < height f →
  map (fun i => (js_rem i (width f), js_floor (js_div i (width f)), arr_get (cells f) i))
      (seqZ (width f * y) (width f))
  = map (fun x => (Num (inject_Z x), Num (inject_Z y), getCell f x y))
        (seqZ 0 (width f)).
Proof.
  intros Hw Hy.
  replace (width f * y) with (width f * y + 0) by lia.
  rewrite <- fmap_add_seqZ.
  change (Z.add (width f * y) <$> seqZ 0 (width f))
    with (map (Z.add (width f * y)) (seqZ 0 (width f))).
  rewrite map_map. apply map_ext_in. intros x Hx.
  apply list_elem_of_In, elem_of_seqZ in Hx.
  assert (Hdiv : (width f * y + x) / width f = y).
  { rewrite Z.mul_comm, Z.div_add_l by lia. rewrite Z.div_small by lia. lia. }
  assert (Hmod : Z.rem (width f * y + x) (width f) = x).
  { rewrite Z.rem_mod_nonneg by nia.
    rewrite Z.add_comm, Z.mul_comm, Z.mod_add by lia. apply Z.mod_small. lia. }
  unfold js_rem, js_div.
  destruct (decide (width f = 0)) as [|_]; [lia|].
  unfold js_floor. rewrite Qfloor_div, Hdiv, Hmod by done.
  f_equal. unfold getCell.
  rewrite (proj2 (FieldFacts.isOut_false f x y)) by (unfold inside; lia).
  unfold efficientIndex. f_equal. lia.
Qed.

Lemma visit_rows (f : t) (n : nat) :
  0 < width f → Z.of_nat n ≤ height f →
  map (fun i => (js_rem i (width f), js_floor (js_div i (width f)), arr_get (cells f) i))
      (seqZ 0 (width f * Z.of_nat n))
  = flat_map (fun y => map (fun x => (Num (inject_Z x), Num (inject_Z y), getCell f x y))
                           (seqZ 0 (width f)))
             (seqZ 0 (Z.of_nat n)).
Proof.
  intros Hw. induction n as [|n IH]; intros Hn.
  - by rewrite Z.mul_0_r.
  - rewrite seqZ_S, flat_map_app. simpl flat_map. rewrite app_nil_r.
    replace (width f * Z.of_nat (S n)) with (width f * Z.of_nat n + width f) by lia.
    rewrite seqZ_app by nia. rewrite map_app, IH by lia.
    f_equal. rewrite !Z.add_0_l. apply visit_as_row; lia.
Qed.

(** X8.  On a well-formed field [forEachCell] calls the iterator once for
    each cell of the grid, row by row from the top and from left to right
    within a row, with the cell's own coordinates and the state that
    [getCell] gives there (nothing at all when the grid is empty); every
    state it passes has a colour, so [getColor] does not throw while the
    field is drawn. *)
Theorem forEachCell_row_major (f : t) :
  well_formed f →
  forEachCell f = rowMajor f
  ∧ ∀ unclaimedColor claimedColor claimingColor visit,
      visit ∈ forEachCell f →
      is_Some (XonixLevel.getColor unclaimedColor claimedColor claimingColor visit.2).
Proof.
  intros Hwf. split.
  - unfold forEachCell, rowMajor.
    rewrite (wf_cells_length f Hwf). unfold area.
    destruct (decide (width f = 0)) as [Hw|Hw].
    + rewrite Hw. simpl. by rewrite flat_map_nothing.
    + pose proof (wf_width f Hwf). pose proof (wf_height f Hwf).
      rewrite <- (Z2Nat.id (height f)) at 1 2 by done.
      apply visit_rows; lia.
  - intros u c cl visit Hv. unfold forEachCell in Hv.
    apply list_elem_of_In, in_map_iff in Hv. destruct Hv as (i & <- & Hi).
    apply list_elem_of_In, FieldFacts.elem_of_seqZ_0 in Hi.
    rewrite (wf_cells_length f Hwf) in Hi.
    destruct (wf_cells f Hwf i Hi) as (s & Hs & Hst).
    simpl. unfold cellAt in Hs. rewrite Hs.
    destruct s; [by destruct Hst|by eexists..].
Qed.

Lemma forEachCell_row_major_witness :
  forEachCell (setCellByXY CLAIMED 1 0 (new 2 2))
  = [ (Num 0, Num 0, Some UNCLAIMED); (Num 1, Num 0, Some CLAIMED);
      (Num 0, Num 1, Some UNCLAIMED); (Num 1, Num 1, Some UNCLAIMED) ].
Proof.
  rewrite (proj1 (forEachCell_row_major (setCellByXY CLAIMED 1 0 (new 2 2))
                    (cons_wf _ (FieldFacts.arises_consistent _
                       (arises_set _ CLAIMED 1 0 (arises_new 2 2)
                          ltac:(done) eq_refl))))).
  by vm_compute.
Defined.

(** X9.  Writes outside the grid are not rejected.  A column past the
    right edge lands on a cell of the next row; a row past the bottom
    grows the cell array beyond the grid, so that the field is no longer
    well formed and [claimedRatio] divides by more than the number of
    cells, while [getCell] still answers [OUT_OF_BOUNDS] there. *)
Theorem writes_outside_the_grid (f : t) (v : CellState) (x y : Z) :
  well_formed f → 0 ≤ x < width f →
  (inside f x (y + 1) →
     getCell (setCellByXY v (x + width f) y f) x (y + 1) = Some v)
  ∧ (height f ≤ y →
     let f' := setCellByXY v x y f in
     arr_length (cells f') = y * width f + x + 1
     ∧ area f < arr_length (cells f')
     ∧ getCell f' x y = Some OUT_OF_BOUNDS
     ∧ ¬ well_formed f').
Proof.
  intros Hwf Hx. split.
  - intros Hin.
    replace (setCellByXY v (x + width f) y f) with (setCellByXY v x (y + 1) f).
    + by apply getCell_written.
    + unfold setCellByXY, efficientIndex. f_equal. lia.
  - intros Hy f'.
    pose proof (wf_height f Hwf) as Hh.
    assert (Hlen : arr_length (cells f') = y * width f + x + 1).
    { unfold f', setCellByXY, setCellDirect, efficientIndex, arr_set. simpl.
      rewrite (wf_cells_length f Hwf). unfold area.
      destruct (decide (0 ≤ y * width f + x)) as [_|Hneg]; [nia|nia]. }
    assert (Hbig : area f < arr_length (cells f')).
    { rewrite Hlen. unfold area. nia. }
    split; [done|]. split; [done|]. split.
    + apply getCell_outside. unfold inside.
      change (height f') with (height f). lia.
    + intros Hwf'. pose proof (wf_cells_length f' Hwf') as Hl.
      change (area f') with (area f) in Hl. lia.
Qed.

Lemma writes_outside_the_grid_witness :
  getCell (setCellByXY CLAIMED 2 0 (new 2 2)) 0 1 = Some CLAIMED
  ∧ arr_length (cells (setCellByXY CLAIMED 1 2 (new 2 2))) = 6.
Proof.
  assert (Hwf : well_formed (new 2 2)) by apply FieldFacts.new_consistent.
  split.
  - apply (proj1 (writes_outside_the_grid (new 2 2) CLAIMED 0 0 Hwf
                    ltac:(vm_compute; intuition congruence))).
    vm_compute; intuition congruence.
  - apply (proj2 (writes_outside_the_grid (new 2 2) CLAIMED 1 2 Hwf
                    ltac:(vm_compute; intuition congruence))).
    vm_compute; congruence.
Defined.

Lemma length_filter_le (P R : Z → Prop)
    `{∀ x, Decision (P x)} `{∀ x, Decision (R x)} (l : list Z) :
  (∀ j, j ∈ l → P j → R j) →
  (length (filter P l) ≤ length (filter R l))%nat.
Proof.
  induction l as [|a l IH]; intros Himp; [done|].
  rewrite !filter_cons.
  assert (IH' : (length (filter P l) ≤ length (filter R l))%nat).
  { apply IH. intros j Hj. apply Himp. by right. }
  destruct (decide (P a)) as [Hp|Hp].
  - destruct (decide (R a)) as [Hr|Hr]; [simpl; lia|].
    destruct Hr. apply Himp; [by left|done].
  - destruct (decide (R a)); simpl; lia.
Qed.

Lemma foldl_unchanged {A B} (step : A → B → A) (a : A) (l : list B) :
  (∀ b, b ∈ l → step a b = a) → foldl step a l = a.
Proof.
  induction l as [|b l IH]; intros Hstep; [done|].
  simpl. rewrite Hstep by by left. apply IH. intros b' Hb'. apply Hstep. by right.
Qed.

Lemma cleared_not_claiming (f : t) (i : Z) : cellAt (clearClaiming f) i ≠ Some CLAIMING
  ∨ ¬ 0 ≤ i < arr_length (cells f).
Proof.
  rewrite FieldFacts.cellAt_clearClaiming.
  destruct (decide (0 ≤ i < arr_length (cells f) ∧ cellAt f i = Some CLAIMING))
    as [_|Hn]; [by left|].
  destruct (decide (0 ≤ i < arr_length (cells f))) as [Hr|Hr]; [|by right].
  left. intros Hc. apply Hn. done.
Qed.

(** X10.  [clearClaiming] on a consistent field: the trail goes back to
    Unclaimed and nothing else changes.  Every Claiming cell reads
    Unclaimed afterwards and every other cell reads as before; the count
    of Claiming is 0, the count of Unclaimed has grown by what the count
    of Claiming was, the count of Claimed and [claimedRatio] are as
    before; the field stays consistent, and clearing it again changes
    nothing. *)
Theorem clearClaiming_moves_trail (f : t) :
  consistent f →
  let f' := clearClaiming f in
  consistent f'
  ∧ (∀ x y, getCell f' x y
            = if decide (getCell f x y = Some CLAIMING) then Some UNCLAIMED
              else getCell f x y)
  ∧ count_get (cellCount f') CLAIMING = 0
  ∧ count_get (cellCount f') UNCLAIMED
    = count_get (cellCount f) UNCLAIMED + count_get (cellCount f) CLAIMING
  ∧ count_get (cellCount f') CLAIMED = count_get (cellCount f) CLAIMED
  ∧ claimedRatio f' = claimedRatio f
  ∧ clearClaiming f' = f'.
Proof.
  intros Hc f'.
  assert (Hc' : consistent f') by by apply FieldFacts.clearClaiming_consistent.
  destruct (FieldFacts.clearClaiming_frame f) as (_ & Hw & Hh & Hlen).
  fold f' in Hw, Hh, Hlen.
  pose proof (cons_wf f Hc) as Hwf.
  assert (Hcl : count_get (cellCount f') CLAIMING = 0).
  { rewrite (cons_match f' Hc'). unfold occurrences.
    rewrite FieldFacts.length_filter_none; [done|].
    intros j Hj. apply FieldFacts.elem_of_seqZ_0 in Hj. rewrite Hlen in Hj.
    destruct (cleared_not_claiming f j); done. }
  assert (Hcd : count_get (cellCount f') CLAIMED = count_get (cellCount f) CLAIMED)
    by by apply cleared_claimed_count.
  split; [done|]. split; [intros x y; by apply cleared_getCell|].
  split; [done|]. split.
  { pose proof (cons_total f Hc) as Ht. pose proof (cons_total f' Hc') as Ht'.
    unfold counts_total, area in Ht, Ht'. rewrite Hw, Hh in Ht'. lia. }
  split; [done|]. split.
  { unfold claimedRatio. by rewrite Hcd, Hlen. }
  unfold clearClaiming at 1. apply foldl_unchanged.
  intros i Hi. apply FieldFacts.elem_of_seqZ_0 in Hi. rewrite Hlen in Hi.
  destruct (decide (arr_get (cells f') i = Some CLAIMING)) as [Hs|]; [|done].
  destruct (cleared_not_claiming f i); done.
Qed.

Lemma clearClaiming_moves_trail_witness :
  count_get (cellCount (clearClaiming (setCellByXY CLAIMING 0 0 (new 2 1)))) UNCLAIMED = 2.
Proof.
  destruct (clearClaiming_moves_trail (setCellByXY CLAIMING 0 0 (new 2 1)))
    as (_ & _ & _ & H & _).
  - apply FieldFacts.arises_consistent, arises_set; [apply arises_new|done|reflexivity].
  - rewrite H. reflexivity.
Defined.

Lemma claim_outcome (enemies : list Enemy.t) (f : t) :
  well_formed f →
  ∃ f', claim enemies f = Some f' ∧ well_formed f'
        ∧ width f' = width f ∧ height f' = height f
        ∧ ∀ i, 0 ≤ i < area f →
               (cellAt f' i = Some CLAIMED
                ∨ (cellAt f' i = Some UNCLAIMED ∧ cellAt f i = Some UNCLAIMED))
               ∧ (cellAt f i ≠ Some UNCLAIMED → cellAt f' i = Some CLAIMED).
Proof.
  intros Hwf.
  destruct (FieldFacts.claim_cells enemies f Hwf) as (f' & Hrun & Hwf' & Hw & Hh & Hcells).
  exists f'. split; [done|]. split; [done|]. split; [done|]. split; [done|].
  intros i Hi. destruct (Hcells i Hi) as [Hfl Hnfl].
  assert (Hclosed : cellAt f i ≠ Some UNCLAIMED → cellAt f' i = Some CLAIMED).
  { intros Hne. apply Hnfl. intros Hf. apply FieldFacts.flooded_open in Hf.
    apply FieldFacts.open_sealed in Hf; [|done]. by destruct Hf. }
  split; [|done].
  assert (Hi' : 0 ≤ i < area f') by (unfold area in *; by rewrite Hw, Hh).
  destruct (wf_cells f' Hwf' i Hi') as (s & Hs & Hst).
  destruct (decide (cellAt f i = Some UNCLAIMED)) as [Hu|Hu].
  - destruct s.
    + by destruct Hst.
    + right. done.
    + left. done.
    + exfalso. assert (¬ flooded (resetCouldClaim (claimTrail f))
                         (omap (seedIndex (resetCouldClaim (claimTrail f))) enemies) i) as Hn.
      { intros Hf. apply Hfl in Hf. congruence. }
      apply Hnfl in Hn. congruence.
  - left. by apply Hclosed.
Qed.

(** X11.  [claim] on a consistent field, whatever the enemies and
    wherever they stand: it returns, and it only ever claims.  Every cell
    of the grid is Claimed or Unclaimed afterwards, a cell that was
    Claimed or Claiming is Claimed, and a cell that is Unclaimed was
    Unclaimed before.  The count of Claiming is 0, the count of Claimed
    is at least what the counts of Claimed and Claiming were together,
    the count of Unclaimed has not grown, and the field stays consistent
    with its size unchanged. *)
Theorem claim_only_claims (enemies : list Enemy.t) (f : t) :
  consistent f →
  ∃ f', claim enemies f = Some f'
        ∧ consistent f' ∧ width f' = width f ∧ height f' = height f
        ∧ (∀ x y, inside f x y →
                  getCell f' x y = Some CLAIMED
                  ∨ (getCell f' x y = Some UNCLAIMED ∧ getCell f x y = Some UNCLAIMED))
        ∧ (∀ x y, getCell f x y = Some CLAIMED ∨ getCell f x y = Some CLAIMING →
                  getCell f' x y = Some CLAIMED)
        ∧ count_get (cellCount f') CLAIMING = 0
        ∧ count_get (cellCount f) CLAIMED + count_get (cellCount f) CLAIMING
          ≤ count_get (cellCount f') CLAIMED
        ∧ count_get (cellCount f') UNCLAIMED ≤ count_get (cellCount f) UNCLAIMED.
Proof.
  intros Hc. pose proof (cons_wf f Hc) as Hwf.
  destruct (claim_outcome enemies f Hwf) as (f' & Hrun & Hwf' & Hw & Hh & Hcells).
  assert (Hc' : consistent f') by by apply (FieldFacts.claim_consistent enemies f).
  assert (Hlen : arr_length (cells f') = arr_length (cells f)).
  { rewrite (wf_cells_length f' Hwf'), (wf_cells_length f Hwf). unfold area.
    by rewrite Hw, Hh. }
  assert (Hin : ∀ x y, inside f' x y ↔ inside f x y).
  { intros x y. unfold inside. by rewrite Hw, Hh. }
  assert (Hix : ∀ x y, efficientIndex f' x y = efficientIndex f x y).
  { intros x y. unfold efficientIndex. by rewrite Hw. }
  assert (Hcl : count_get (cellCount f') CLAIMING = 0).
  { rewrite (cons_match f' Hc'). unfold occurrences.
    rewrite FieldFacts.length_filter_none; [done|].
    intros j Hj. apply FieldFacts.elem_of_seqZ_0 in Hj.
    rewrite Hlen, (wf_cells_length f Hwf) in Hj.
    destruct (Hcells j Hj) as [[Hs|[Hs _]] _]; congruence. }
  assert (Hun : count_get (cellCount f') UNCLAIMED ≤ count_get (cellCount f) UNCLAIMED).
  { rewrite (cons_match f' Hc'), (cons_match f Hc). unfold occurrences.
    rewrite Hlen. apply inj_le, length_filter_le.
    intros j Hj Hs. apply FieldFacts.elem_of_seqZ_0 in Hj.
    rewrite (wf_cells_length f Hwf) in Hj.
    destruct (Hcells j Hj) as [[Hs'|[_ Hs']] _]; [congruence|done]. }
  exists f'. split; [done|]. split; [done|]. split; [done|]. split; [done|].
  split.
  { intros x y Hi.
    destruct (FieldFacts.index_inside f x y Hi) as (Hr & _).
    rewrite !getCell_cellAt by (done || by apply Hin).
    rewrite Hix. by destruct (Hcells _ Hr). }
  split.
  { intros x y Hs.
    assert (Hi : inside f x y).
    { destruct Hs as [Hs|Hs]; apply FieldFacts.getCell_inside in Hs; by destruct Hs. }
    destruct (FieldFacts.index_inside f x y Hi) as (Hr & _).
    rewrite getCell_cellAt in Hs by done.
    rewrite getCell_cellAt, Hix by by apply Hin.
    apply (Hcells _ Hr). destruct Hs; congruence. }
  split; [done|].
  pose proof (cons_total f Hc) as Ht. pose proof (cons_total f' Hc') as Ht'.
  unfold counts_total, area in Ht, Ht'. rewrite Hw, Hh in Ht'.
  split; [lia|done].
Qed.

Lemma claim_only_claims_witness :
  ∃ f', claim [XonixLevelBuilder.spawn Enemy.IsEnemy 5 (1 # 2)]
              (setCellByXY CLAIMING 1 0 (new 3 1)) = Some f'
        ∧ count_get (cellCount f') CLAIMING = 0.
Proof.
  destruct (claim_only_claims [XonixLevelBuilder.spawn Enemy.IsEnemy 5 (1 # 2)]
              (setCellByXY CLAIMING 1 0 (new 3 1)))
    as (f' & Hrun & _ & _ & _ & _ & _ & H & _).
  - apply FieldFacts.arises_consistent, arises_set; [apply arises_new|done|reflexivity].
  - exists f'. split; [exact Hrun|exact H].
Defined.

Lemma flooded_nowhere (g : t) (i : Z) : ¬ flooded g [] i.
Proof. intros Hf. induction Hf as [s Hs _|]; [by apply elem_of_nil in Hs|done]. Qed.

Lemma occurrences_all (f : t) (s : CellState) :
  well_formed f → (∀ i, 0 ≤ i < area f → cellAt f i = Some s) →
  occurrences f s = area f.
Proof.
  intros Hwf Hall. unfold occurrences.
  rewrite FieldFacts.length_filter_all.
  - rewrite length_seqZ, (wf_cells_length f Hwf).
    pose proof (wf_width f Hwf). pose proof (wf_height f Hwf).
    unfold area. nia.
  - intros j Hj. apply FieldFacts.elem_of_seqZ_0 in Hj.
    rewrite (wf_cells_length f Hwf) in Hj. by apply Hall.
Qed.

Lemma ratio_of_all (a : Z) (r : Q) :
  0 < a → (r < 1)%Q → js_gt (js_div a a) r = true.
Proof.
  intros Ha Hr. unfold js_div, js_gt.
  destruct (decide (a = 0)) as [|_]; [lia|].
  destruct (Qle_bool (Qmake a 1 / Qmake a 1) r) eqn:Hle; [|done].
  apply Qle_bool_iff in Hle. exfalso.
  assert (Hone : (Qmake a 1 / Qmake a 1 == 1)%Q).
  { apply Qmult_inv_r. unfold Qeq. simpl. lia. }
  rewrite Hone in Hle. by apply Qlt_not_le in Hr.
Qed.

(** X12.  [claim] on a level without enemies: nothing seeds the fill, so
    every cell of the grid is Claimed afterwards, the count of Claimed is
    the number of cells, and the level is won, provided the grid is not
    empty and [claimRatioWin] is below 1.  On an empty grid the ratio is
    0/0 and the level is never won. *)
Theorem claim_without_enemies (l : XonixLevel.t) :
  consistent (XonixLevel.field l) → XonixLevel.enemies l = [] →
  ∃ l', XonixLevel.claim l = Some l'
        ∧ (∀ x y, inside (XonixLevel.field l) x y →
                  getCell (XonixLevel.field l') x y = Some CLAIMED)
        ∧ count_get (cellCount (XonixLevel.field l')) CLAIMED
          = area (XonixLevel.field l)
        ∧ (0 < area (XonixLevel.field l) → (XonixLevel.claimRatioWin l < 1)%Q →
           XonixLevel.emitted l' = Won :: XonixLevel.emitted l)
        ∧ (area (XonixLevel.field l) = 0 →
           XonixLevel.emitted l' = XonixLevel.emitted l).
Proof.
  intros Hc Hes. pose proof (cons_wf _ Hc) as Hwf.
  destruct (FieldFacts.claim_cells [] (XonixLevel.field l) Hwf)
    as (f' & Hrun & Hwf' & Hw & Hh & Hcells).
  assert (Hc' : consistent f') by by apply (FieldFacts.claim_consistent [] (XonixLevel.field l)).
  assert (Harea : area f' = area (XonixLevel.field l)).
  { unfold area. by rewrite Hw, Hh. }
  assert (Hall : ∀ i, 0 ≤ i < area f' → cellAt f' i = Some CLAIMED).
  { intros i Hi. rewrite Harea in Hi.
    apply (Hcells i Hi), flooded_nowhere. }
  assert (Hn : count_get (cellCount f') CLAIMED = area (XonixLevel.field l)).
  { rewrite (cons_match f' Hc'), occurrences_all by done. done. }
  unfold XonixLevel.claim. rewrite Hes, Hrun. simpl.
  eexists. split; [reflexivity|].
  unfold claimedRatio. rewrite Hn, (wf_cells_length f' Hwf'), Harea.
  split.
  { intros x y Hi.
    assert (Hi' : inside f' x y) by (unfold inside; by rewrite Hw, Hh).
    destruct (FieldFacts.index_inside f' x y Hi') as (Hr & _).
    destruct (js_gt _ _); simpl;
      rewrite getCell_cellAt by done; by apply Hall. }
  split; [by destruct (js_gt _ _)|].
  split.
  - intros Hpos Hr. by rewrite ratio_of_all.
  - intros ->. done.
Qed.

Lemma claim_without_enemies_witness :
  ∃ l', XonixLevel.claim (XonixLevel.new (new 2 2) [] Player.new) = Some l'
        ∧ XonixLevel.emitted l' = [Won].
Proof.
  destruct (claim_without_enemies (XonixLevel.new (new 2 2) [] Player.new))
    as (l' & Hrun & _ & _ & Hwon & _).
  - apply FieldFacts.new_consistent.
  - reflexivity.
  - exists l'. split; [exact Hrun|]. apply Hwon; reflexivity.
Defined.

Lemma flooded_again (g g' : t) (seeds : list Z) (i : Z) :
  width g' = width g →
  (∀ j, flooded g seeds j → open g' j) →
  flooded g seeds i → flooded g' seeds i.
Proof.
  intros Hw Hopen Hf. induction Hf as [s Hs Ho|i j Hf IH Hn Ho].
  - apply flooded_seed; [done|]. apply Hopen. by apply flooded_seed.
  - apply (flooded_step _ _ i j); [done| |].
    + unfold neighbours in *. by rewrite Hw.
    + apply Hopen. by apply (flooded_step _ _ i j).
Qed.

Lemma sealed_width (f : t) : width (resetCouldClaim (claimTrail f)) = width f.
Proof.
  destruct (FieldFacts.claimTrail_frame f) as (_ & Hw & _).
  rewrite <- Hw. generalize (claimTrail f). intros g.
  unfold resetCouldClaim.
  generalize (seqZ 0 (arr_length (couldClaim g))). intros l.
  revert g. induction l as [|a l IH]; intros g; [done|].
  simpl. by rewrite IH.
Qed.

(** X13.  [claim] is idempotent: on a consistent field a second [claim]
    with the same enemies, none of which has moved, returns and changes
    no cell, no count and not the ratio. *)
Theorem claim_twice (enemies : list Enemy.t) (f : t) :
  consistent f →
  ∃ f' f'', claim enemies f = Some f' ∧ claim enemies f' = Some f''
            ∧ (∀ x y, getCell f'' x y = getCell f' x y)
            ∧ (∀ s, count_get (cellCount f'') s = count_get (cellCount f') s)
            ∧ claimedRatio f'' = claimedRatio f'.
Proof.
  intros Hc. pose proof (cons_wf f Hc) as Hwf.
  destruct (FieldFacts.claim_cells enemies f Hwf)
    as (f' & Hrun & Hwf' & Hw & Hh & Hcells).
  assert (Hc' : consistent f') by by apply (FieldFacts.claim_consistent enemies f).
  destruct (FieldFacts.claim_cells enemies f' Hwf')
    as (f'' & Hrun2 & Hwf'' & Hw2 & Hh2 & Hcells2).
  assert (Hc'' : consistent f'') by by apply (FieldFacts.claim_consistent enemies f').
  assert (Harea : area f' = area f) by (unfold area; by rewrite Hw, Hh).
  assert (Harea2 : area f'' = area f') by (unfold area; by rewrite Hw2, Hh2).
  set (g := resetCouldClaim (claimTrail f)) in *.
  set (g' := resetCouldClaim (claimTrail f')) in *.
  assert (Hwg : width g' = width g).
  { unfold g, g'. by rewrite !sealed_width. }
  assert (Hseeds : omap (seedIndex g') enemies = omap (seedIndex g) enemies).
  { unfold seedIndex. by rewrite Hwg. }
  rewrite Hseeds in Hcells2.
  assert (Hopen : ∀ j, flooded g (omap (seedIndex g) enemies) j → open g' j).
  { intros j Hf. pose proof (FieldFacts.flooded_open _ _ _ Hf) as Ho.
    apply FieldFacts.open_sealed in Ho; [|done]. destruct Ho as [Hr _].
    apply FieldFacts.open_sealed; [done|]. rewrite Harea. split; [done|].
    by apply (Hcells j Hr). }
  assert (Hsame : ∀ i, 0 ≤ i < area f → cellAt f'' i = cellAt f' i).
  { intros i Hi. rewrite <- Harea in Hi.
    assert (Hi'' : 0 ≤ i < area f'') by by rewrite Harea2.
    destruct (wf_cells f' Hwf' i Hi) as (s & Hs & Hst).
    destruct (Hcells2 i Hi) as [Hfl2 Hnfl2].
    rewrite Harea in Hi. destruct (Hcells i Hi) as [Hfl Hnfl].
    rewrite Hs.
    destruct (decide (s = UNCLAIMED)) as [->|Hsu].
    - destruct (wf_cells f'' Hwf'' i Hi'') as (s2 & Hs2 & Hst2).
      destruct (decide (s2 = UNCLAIMED)) as [->|Hne]; [done|].
      exfalso.
      assert (Hn2 : ¬ flooded g' (omap (seedIndex g) enemies) i).
      { intros Hf. apply Hfl2 in Hf. congruence. }
      assert (Hn : ¬ flooded g (omap (seedIndex g) enemies) i).
      { intros Hf. apply Hn2. by apply (flooded_again g). }
      apply Hnfl in Hn. congruence.
    - assert (Hn : ¬ flooded g (omap (seedIndex g) enemies) i).
      { intros Hf. apply Hfl in Hf. congruence. }
      apply Hnfl in Hn. assert (s = CLAIMED) as -> by congruence.
      apply Hnfl2. intros Hf. apply FieldFacts.flooded_open in Hf.
      apply FieldFacts.open_sealed in Hf; [|done]. destruct Hf. congruence. }
  assert (Hlen : arr_length (cells f'') = arr_length (cells f')).
  { by rewrite (wf_cells_length f'' Hwf''), (wf_cells_length f' Hwf'). }
  assert (Hcount : ∀ s, count_get (cellCount f'') s = count_get (cellCount f') s).
  { intros s. rewrite (cons_match f'' Hc''), (cons_match f' Hc'). unfold occurrences.
    rewrite Hlen. f_equal. apply FieldFacts.length_filter_ext.
    intros j Hj. apply FieldFacts.elem_of_seqZ_0 in Hj.
    rewrite (wf_cells_length f' Hwf'), Harea in Hj. by rewrite Hsame. }
  exists f', f''. split; [done|]. split; [done|]. split.
  { intros x y.
    destruct (inside_dec f' x y) as [Hi|Ho].
    - destruct (FieldFacts.index_inside f' x y Hi) as (Hr & _).
      rewrite !getCell_cellAt by (done || (unfold inside; by rewrite Hw2, Hh2)).
      unfold efficientIndex in *. rewrite Hw2. apply Hsame. by rewrite <- Harea.
    - rewrite !getCell_outside by (done || (unfold inside; by rewrite Hw2, Hh2)).
      done. }
  split; [done|].
  unfold claimedRatio. by rewrite Hcount, Hlen.
Qed.

Lemma claim_twice_witness :
  ∃ f' f'', claim [XonixLevelBuilder.spawn Enemy.IsEnemy 0 0]
                  (setCellByXY CLAIMING 1 0 (new 3 1)) = Some f'
            ∧ claim [XonixLevelBuilder.spawn Enemy.IsEnemy 0 0] f' = Some f''
            ∧ claimedRatio f'' = claimedRatio f'.
Proof.
  destruct (claim_twice [XonixLevelBuilder.spawn Enemy.IsEnemy 0 0]
              (setCellByXY CLAIMING 1 0 (new 3 1)))
    as (f' & f'' & Hrun & Hrun2 & _ & _ & Hr).
  - apply FieldFacts.arises_consistent, arises_set; [apply arises_new|done|reflexivity].
  - exists f', f''. split; [exact Hrun|]. split; [exact Hrun2|exact Hr].
Defined.

Lemma new_frame (w h : nat) :
  width (new w h) = Z.of_nat w ∧ height (new w h) = Z.of_nat h.
Proof.
  unfold new.
  destruct (FieldFacts.sweep_frame (fun f i => setCellDirect UNCLAIMED i f)
              (fun _ _ => true) UNCLAIMED (fun _ _ => eq_refl)
              (seqZ 0 (Z.of_nat w * Z.of_nat h))
              (mk (arr_new (Z.of_nat w * Z.of_nat h)) (arr_new (Z.of_nat w * Z.of_nat h))
                  (mkCount 0 0 0 0) (Z.of_nat w) (Z.of_nat h)))
    as (_ & Hw & Hh).
  done.
Qed.

Lemma new_no_trail (w h : nat) : no_trail (new w h).
Proof.
  intros x y Hs. apply FieldFacts.getCell_inside in Hs; [|done]. destruct Hs as [_ Hs].
  revert Hs. generalize (efficientIndex (new w h) x y). intros i. unfold new.
  rewrite (FieldFacts.sweep_cellAt (fun f i => setCellDirect UNCLAIMED i f)
             (fun _ _ => true) UNCLAIMED (fun _ _ => eq_refl));
    [|done|apply NoDup_seqZ].
  by destruct (decide (i ∈ seqZ 0 (Z.of_nat w * Z.of_nat h))).
Qed.


End FieldMore.

(** * The shape a level keeps *)

Module ShapeFacts.
Import XonixLevel ShapeProps.

Lemma stands_size (f f' : XonixField.t) (p : XY.t) :
  XonixField.width f' = XonixField.width f →
  XonixField.height f' = XonixField.height f →
  stands_inside f p → stands_inside f' p.
Proof. intros Hw Hh. unfold stands_inside, FieldProps.inside. by rewrite Hw, Hh. Qed.

Lemma kept_refl l : shipshape l → kept l l.
Proof. by intros H. Qed.

Lemma kept_trans l l1 l2 : kept l l1 → kept l1 l2 → kept l l2.
Proof. intros (? & ? & ?) (? & ? & ?). split_and!; [done|congruence..]. Qed.

Lemma refield_kept l f :
  shipshape l → FieldProps.consistent f →
  XonixField.width f = XonixField.width (field l) →
  XonixField.height f = XonixField.height (field l) →
  kept l (with_field l f).
Proof.
  intros [Hf Hp Hs He] Hc Hw Hh. split_and!; [|done..].
  constructor; simpl; [done|by apply (stands_size (field l))..|].
  eapply Forall_impl; [exact He|]. intros e. by apply stands_size.
Qed.

Lemma replayer_kept l p :
  shipshape l → stands_inside (field l) (Entity.position (Player.entity p)) →
  kept l (with_player l p).
Proof. intros [Hf Hp Hs He] Hin. split_and!; [|done..]. by constructor. Qed.

Lemma reenemies_kept l es :
  shipshape l →
  Forall (fun e => stands_inside (field l) (Entity.position (Enemy.entity e))) es →
  kept l (with_enemies l es).
Proof. intros [Hf Hp Hs He] Hin. split_and!; [|done..]. by constructor. Qed.

Lemma next_kept l n : shipshape l → kept l (next n l).
Proof. intros [Hf Hp Hs He]. split_and!; [|done..]. by constructor. Qed.

Lemma retimer_kept l tm : shipshape l → kept l (with_timer l tm).
Proof. intros [Hf Hp Hs He]. split_and!; [|done..]. by constructor. Qed.

Lemma kept_intro l l' :
  shipshape l → FieldProps.consistent (field l') →
  XonixField.width (field l') = XonixField.width (field l) →
  XonixField.height (field l') = XonixField.height (field l) →
  stands_inside (field l) (Entity.position (Player.entity (player l'))) →
  defaultPlayerPosition l' = defaultPlayerPosition l →
  Forall (fun e => stands_inside (field l) (Entity.position (Enemy.entity e)))
         (enemies l') →
  kept l l'.
Proof.
  intros [Hf Hp Hs He] Hc Hw Hh Hp' Hs' He'. split_and!; [|done..].
  constructor; [done|by apply (stands_size (field l))| |].
  - rewrite Hs'. by apply (stands_size (field l)).
  - eapply Forall_impl; [exact He'|]. intros e. by apply stands_size.
Qed.

Lemma die_kept l : shipshape l → kept l (die l).
Proof.
  intros Hl. pose proof Hl as [Hf Hp Hs He].
  destruct (FieldFacts.clearClaiming_frame (field l)) as (_ & Hw & Hh & _).
  rewrite LevelFacts.die_eq. cbv zeta.
  destruct (_ <? 0); (apply kept_intro; simpl;
    [done|by apply FieldFacts.clearClaiming_consistent|done..]).
Qed.

Lemma field_claim_kept l es :
  shipshape l →
  ∃ f, XonixField.claim es (field l) = Some f ∧ kept l (with_field l f).
Proof.
  intros Hl.
  destruct (FieldFacts.claim_cells es (field l) (FieldProps.cons_wf _ (shape_field l Hl)))
    as (f & Hrun & _ & Hw & Hh & _).
  exists f. split; [done|]. apply refield_kept; [done| |done..].
  by apply (FieldFacts.claim_consistent es (field l)), shape_field.
Qed.

Lemma claim_kept l : shipshape l → ∃ l', claim l = Some l' ∧ kept l l'.
Proof.
  intros Hl. unfold claim.
  destruct (field_claim_kept l (enemies l) Hl) as (f & -> & Hk). simpl.
  eexists. split; [done|]. destruct (js_gt _ _); [|done].
  eapply kept_trans; [exact Hk|]. apply next_kept, Hk.
Qed.

Lemma timerTick_kept l : shipshape l → kept l (timerTick l).
Proof.
  intros Hl. unfold timerTick. destruct (XonixTimer.tick (timer l)) as [tm fired].
  pose proof (retimer_kept l tm Hl) as Hk. destruct fired; [|done].
  eapply kept_trans; [exact Hk|]. apply next_kept, Hk.
Qed.

Lemma get_inside l r e :
  shipshape l → EntityMethods.get l r = Some e →
  stands_inside (field l) (Entity.position e).
Proof.
  intros [Hf Hp Hs He] Hget. destruct r as [|i]; simpl in Hget.
  - by injection Hget as <-.
  - destruct (enemies l !! i) as [en|] eqn:Hi; [|done].
    injection Hget as <-.
    by apply (Forall_lookup_1 _ _ _ _ He Hi).
Qed.

Lemma put_kept l r e :
  shipshape l → stands_inside (field l) (Entity.position e) →
  kept l (EntityMethods.put l r e).
Proof.
  intros Hl Hin. destruct r as [|i]; simpl.
  - by apply replayer_kept.
  - apply reenemies_kept; [done|].
    apply Forall_alter; [by apply shape_enemies|]. done.
Qed.

Lemma checkCollision_none level this cx cy nx ny :
  EntityMethods.checkCollision level this cx cy nx ny = None →
  XonixField.getCell (field level) nx ny = XonixField.getCell (field level) cx cy.
Proof.
  unfold EntityMethods.checkCollision, EntityMethods.checkCollisions,
    EntityMethods.checkCollisionForPosition, EntityMethods.cellPredicate,
    EntityMethods.cellProvider.
  destruct (negb (bool_decide (_ = XonixField.getCell (field level) nx cy))); [done|].
  destruct (negb (bool_decide (_ = XonixField.getCell (field level) cx ny))); [done|].
  destruct (bool_decide (_ = XonixField.getCell (field level) nx ny)) eqn:Hb; [|done].
  intros _. by apply bool_decide_eq_true in Hb.
Qed.

Lemma checkCollision_names level this cx cy nx ny c :
  EntityMethods.checkCollision level this cx cy nx ny = Some c →
  names_its_cell level c.
Proof.
  unfold EntityMethods.checkCollision, EntityMethods.checkCollisions,
    EntityMethods.checkCollisionForPosition, EntityMethods.cellFactory,
    EntityMethods.entityFactory, EntityMethods.cellProvider.
  intros H s.
  repeat match type of H with
  | context [if ?b then _ else _] => destruct b
  end; simpl in H; try discriminate; injection H as <-; simpl; done.
Qed.

Lemma inside_same_state f x y x' y' :
  FieldProps.consistent f → FieldProps.inside f x y →
  XonixField.getCell f x' y' = XonixField.getCell f x y →
  FieldProps.inside f x' y'.
Proof.
  intros Hc Hin Heq.
  destruct (FieldFacts.index_inside f x y Hin) as (Hr & _).
  destruct (FieldProps.wf_cells f (FieldProps.cons_wf f Hc) _ Hr) as (s & Hs & Hst).
  assert (Hg : XonixField.getCell f x y = Some s).
  { apply FieldFacts.getCell_inside; done. }
  rewrite Hg in Heq. apply FieldFacts.getCell_inside in Heq; [|done]. by destruct Heq.
Qed.

Lemma update_kept this onCollision delta l :
  (∀ c, names_its_cell l c → ∃ l', onCollision l c = Some l' ∧ kept l l') →
  shipshape l →
  ∃ l', EntityMethods.update this onCollision delta l = Some l' ∧ kept l l'.
Proof.
  intros Hoc Hl. unfold EntityMethods.update.
  destruct (EntityMethods.get l this) as [e|] eqn:Hget; [|by exists l].
  destruct (EntityMethods.checkCollision _ _ _ _ _ _) as [c|] eqn:Hcc.
  - apply Hoc. by apply checkCollision_names in Hcc.
  - eexists. split; [done|]. apply put_kept; [done|].
    apply checkCollision_none in Hcc.
    apply (inside_same_state _ _ _ _ _ (shape_field l Hl) (get_inside l this e Hl Hget) Hcc).
Qed.

Lemma named_inside l c s :
  names_its_cell l c → collidedCellState c = Some s → s ≠ OUT_OF_BOUNDS →
  FieldProps.inside (field l) (col_x c) (col_y c).
Proof.
  intros Hn Hs Hst. apply Hn in Hs.
  apply FieldFacts.getCell_inside in Hs; [|done]. by destruct Hs.
Qed.

Lemma set_position_kept l x y :
  shipshape l → FieldProps.inside (field l) x y →
  kept l (PlayerMethods.set_position l x y).
Proof.
  intros Hl Hin. apply replayer_kept; [done|].
  unfold stands_inside.
  replace (XY.xRounded _) with x by (symmetry; apply Qfloor_Z).
  by replace (XY.yRounded _) with y by (symmetry; apply Qfloor_Z).
Qed.

Lemma set_claiming_kept l b : shipshape l → kept l (PlayerMethods.set_claiming l b).
Proof. intros Hl. apply replayer_kept; [done|]. by apply shape_player. Qed.

Lemma setCell_kept l v x y :
  shipshape l → FieldProps.storable v → FieldProps.inside (field l) x y →
  kept l (with_field l (XonixField.setCellByXY v x y (field l))).
Proof.
  intros Hl Hv Hin. apply refield_kept; [done| |done..].
  apply FieldFacts.setCellByXY_consistent; [done| |by apply shape_field].
  by apply FieldFacts.isOut_false.
Qed.

Lemma kept_inside l l' x y :
  kept l l' → FieldProps.inside (field l) x y → FieldProps.inside (field l') x y.
Proof. intros (_ & Hw & Hh). unfold FieldProps.inside. by rewrite Hw, Hh. Qed.

Lemma player_onCollision_kept l c :
  shipshape l → names_its_cell l c →
  ∃ l', PlayerMethods.onCollision l c = Some l' ∧ kept l l'.
Proof.
  intros Hl Hn. unfold PlayerMethods.onCollision.
  destruct (collidedCellState c) as [[]|] eqn:Hs.
  - eexists. split; [done|]. apply replayer_kept; [done|]. by apply shape_player.
  - eexists. split; [done|].
    assert (Hin := named_inside l c _ Hn Hs ltac:(done)).
    pose proof (set_position_kept l _ _ Hl Hin) as Hk.
    eapply kept_trans; [exact Hk|]. apply set_claiming_kept, Hk.
  - assert (Hin := named_inside l c _ Hn Hs ltac:(done)).
    pose proof (setCell_kept l CLAIMING _ _ Hl ltac:(done) (shape_player l Hl)) as Hk1.
    pose proof (set_position_kept _ _ _ (proj1 Hk1) (kept_inside _ _ _ _ Hk1 Hin)) as Hk2.
    destruct (claim_kept _ (proj1 Hk2)) as (l3 & Hrun & Hk3).
    unfold PlayerMethods.this_position. rewrite Hrun. simpl.
    eexists. split; [done|].
    eapply kept_trans; [exact Hk1|]. eapply kept_trans; [exact Hk2|].
    eapply kept_trans; [exact Hk3|]. apply set_claiming_kept, Hk3.
  - eexists. split; [done|].
    pose proof (set_claiming_kept l false Hl) as Hk.
    eapply kept_trans; [exact Hk|]. apply die_kept, Hk.
  - by exists l.
Qed.

Lemma player_update_kept delta l :
  shipshape l → ∃ l', PlayerMethods.update delta l = Some l' ∧ kept l l'.
Proof.
  intros Hl. unfold PlayerMethods.update.
  destruct (update_kept ThePlayer PlayerMethods.onCollision delta l
              (fun c => player_onCollision_kept l c Hl) Hl) as (l1 & -> & Hk1).
  simpl. destruct (_ && _); [|by exists l1].
  eexists. split; [done|]. eapply kept_trans; [exact Hk1|].
  apply setCell_kept; [apply Hk1|done|].
  apply (kept_inside l l1); [done|]. apply (shape_player l Hl).
Qed.

Lemma enemy_onCollision_kept i l c :
  shipshape l → kept l (EnemyMethods.onCollision i l c).
Proof.
  intros Hl. unfold EnemyMethods.onCollision.
  destruct (EntityMethods.get l (TheEnemy i)) as [e|] eqn:Hget; [|done].
  match goal with |- context [EntityMethods.put l (TheEnemy i) ?e'] =>
    pose proof (put_kept l (TheEnemy i) e' Hl (get_inside l _ e Hl Hget)) as Hk end.
  destruct (_ || _); [|done].
  eapply kept_trans; [exact Hk|]. apply die_kept, Hk.
Qed.

Lemma destroyer_onCollision_kept i l c :
  shipshape l → names_its_cell l c → kept l (DestroyerMethods.onCollision i l c).
Proof.
  intros Hl Hn. unfold DestroyerMethods.onCollision.
  pose proof (enemy_onCollision_kept i l c Hl) as Hk.
  destruct (bool_decide (collidedCellState c = Some CLAIMED)) eqn:Hb; [|done].
  apply bool_decide_eq_true in Hb.
  eapply kept_trans; [exact Hk|]. apply setCell_kept; [apply Hk|done|].
  apply (kept_inside l); [done|]. by apply (named_inside l c CLAIMED).
Qed.

Lemma enemyOnCollision_kept i l c :
  shipshape l → names_its_cell l c →
  ∃ l', XonixGame.enemyOnCollision i l c = Some l' ∧ kept l l'.
Proof.
  intros Hl Hn. unfold XonixGame.enemyOnCollision.
  destruct (Enemy.class <$> enemies l !! i) as [[]|]; eexists; (split; [done|]);
    first [by apply enemy_onCollision_kept | by apply destroyer_onCollision_kept].
Qed.

Lemma forEach_kept delta rs l :
  shipshape l → ∃ l', XonixGame.forEach delta rs l = Some l' ∧ kept l l'.
Proof.
  revert l. induction rs as [|r rs IH]; intros l Hl; simpl; [by exists l|].
  assert (∃ l1, XonixGame.updateEntity delta l r = Some l1 ∧ kept l l1)
    as (l1 & -> & Hk1).
  { destruct r as [|i]; simpl.
    - by apply player_update_kept.
    - apply update_kept; [|done]. intros c. by apply enemyOnCollision_kept. }
  simpl. destruct (IH l1 (proj1 Hk1)) as (l2 & -> & Hk2).
  exists l2. split; [done|]. by eapply kept_trans.
Qed.

Lemma happen_kept e l : shipshape l → ∃ l', happen e l = Some l' ∧ kept l l'.
Proof.
  intros Hl. destruct e as [[]| |]; simpl.
  - by apply forEach_kept.
  - eexists. split; [done|]. by apply die_kept.
  - by apply claim_kept.
  - eexists. split; [done|]. by apply timerTick_kept.
  - eexists. split; [done|]. apply replayer_kept; [done|]. by apply shape_player.
  - eexists. split; [done|]. by apply retimer_kept.
Qed.


Lemma new_shipshape f es p :
  FieldProps.consistent f →
  stands_inside f (Entity.position (Player.entity p)) →
  stands_inside f XY.new →
  Forall (fun e => stands_inside f (Entity.position (Enemy.entity e))) es →
  shipshape (XonixLevel.new f es p).
Proof. intros. by constructor. Qed.

Lemma build_shipshape b :
  FieldProps.consistent (XonixLevelBuilder.field b) →
  stands_inside (XonixLevelBuilder.field b) (XonixLevelBuilder.defaultPlayerPosition b) →
  Forall (fun e => stands_inside (XonixLevelBuilder.field b)
                     (Entity.position (Enemy.entity e)))
         (XonixLevelBuilder.enemies b) →
  shipshape (XonixLevelBuilder.build b).
Proof. intros. by constructor. Qed.

(** X14.  A level in good shape stays in good shape, whatever happens to
    it: any sequence of ticks, [die], [claim], timer seconds, arrow keys
    and timer starts returns, and afterwards the grid has its size, the
    field is consistent (both arrays cover the grid, every cell holds one
    of the three stored states, the counts match the cells), and the
    player, the default position and every enemy stand on a cell of the
    grid.  The engine never moves an entity off the grid and never writes
    outside it. *)
Theorem shipshape_kept (es : list Event) (l : t) :
  shipshape l →
  ∃ l', happenAll es l = Some l'
        ∧ shipshape l'
        ∧ XonixField.width (field l') = XonixField.width (field l)
        ∧ XonixField.height (field l') = XonixField.height (field l)
        ∧ length (enemies l') = length (enemies l).
Proof.
  revert l. induction es as [|e es IH]; intros l Hl; simpl; [by exists l|].
  destruct (happen_kept e l Hl) as (l1 & Hrun & Hk1 & Hw1 & Hh1).
  assert (Hn1 : length (enemies l1) = length (enemies l)).
  { destruct e as [c| |]; simpl in Hrun.
    - destruct (LifetimeFacts.perform_adds c l) as (l1' & Hrun' & _ & _ & Hn).
      congruence.
    - by injection Hrun as <-.
    - by injection Hrun as <-. }
  rewrite Hrun. simpl.
  destruct (IH l1 Hk1) as (l2 & -> & Hl2 & Hw2 & Hh2 & Hn2).
  exists l2. split_and!; [done|done|congruence..].
Qed.

Lemma shipshape_kept_witness :
  ∃ l', happenAll [ArrowKey 1 0; Call LevelProps.Tick; Call LevelProps.Tick; Started;
                   Call LevelProps.TimerTick]
          (XonixLevel.new (XonixField.setCellByXY CLAIMED 2 0 (XonixField.new 3 1))
             [XonixLevelBuilder.spawn Enemy.IsDestroyer 1 0] Player.new) = Some l'
        ∧ shipshape l'.
Proof.
  destruct (shipshape_kept
              [ArrowKey 1 0; Call LevelProps.Tick; Call LevelProps.Tick; Started;
               Call LevelProps.TimerTick]
              (XonixLevel.new (XonixField.setCellByXY CLAIMED 2 0 (XonixField.new 3 1))
                 [XonixLevelBuilder.spawn Enemy.IsDestroyer 1 0] Player.new))
    as (l' & Hrun & Hl' & _).
  - apply new_shipshape.
    + apply FieldFacts.arises_consistent, FieldProps.arises_set;
        [apply FieldProps.arises_new|done|reflexivity].
    + vm_compute. intuition congruence.
    + vm_compute. intuition congruence.
    + repeat constructor; vm_compute; congruence.
  - exists l'. split; [exact Hrun|exact Hl'].
Defined.

End ShapeFacts.

(** * How the entities move *)

Module MovementFacts.
Import XonixLevel ShapeProps.

Lemma rest_next (c d s delta : Q) : (s == 0)%Q → (c + d * (s * delta) == c)%Q.
Proof. intros Hs. rewrite Hs. ring. Qed.

Lemma rest_floor (c d s delta : Q) :
  (s == 0)%Q → Qfloor (c + d * (s * delta))%Q = Qfloor c.
Proof. intros Hs. apply Qfloor_comp. by apply rest_next. Qed.

Lemma checkCollision_at_rest l :
  let p := Entity.position (Player.entity (player l)) in
  EntityMethods.checkCollision l ThePlayer
    (XY.xRounded p) (XY.yRounded p) (XY.xRounded p) (XY.yRounded p) = None.
Proof.
  intros p.
  unfold EntityMethods.checkCollision, EntityMethods.checkCollisions,
    EntityMethods.checkCollisionForPosition, EntityMethods.cellPredicate,
    EntityMethods.cellProvider, EntityMethods.entityProvider, entities.
  rewrite bool_decide_eq_true_2 by done. simpl negb. cbv iota. simpl or_else.
  assert (Hs : EntityMethods.standsAt l (XY.xRounded p) (XY.yRounded p) ThePlayer = true).
  { unfold EntityMethods.standsAt, XY.differRounded. simpl. fold p.
    by rewrite !Z.eqb_refl. }
  simpl find. rewrite Hs. simpl. done.
Qed.

(** X15.  A player whose speed is 0 (as after [die], until an arrow key
    is pressed) is left alone by its own [update]: no collision is
    reported, even when an enemy shares its cell, the player stays on
    its cell, and the field, the enemies, the lives, the claiming flag
    and the notifications are as before. *)
Theorem player_at_rest (delta : Q) (l : t) :
  (Entity.speed (Player.entity (player l)) == 0)%Q →
  ∃ l', PlayerMethods.update delta l = Some l'
        ∧ field l' = field l ∧ enemies l' = enemies l ∧ emitted l' = emitted l
        ∧ timer l' = timer l
        ∧ Player.lives (player l') = Player.lives (player l)
        ∧ Player.claiming (player l') = Player.claiming (player l)
        ∧ Entity.direction (Player.entity (player l'))
          = Entity.direction (Player.entity (player l))
        ∧ Entity.speed (Player.entity (player l'))
          = Entity.speed (Player.entity (player l))
        ∧ (XY.x (Entity.position (Player.entity (player l')))
           == XY.x (Entity.position (Player.entity (player l))))%Q
        ∧ (XY.y (Entity.position (Player.entity (player l')))
           == XY.y (Entity.position (Player.entity (player l))))%Q.
Proof.
  intros Hs.
  set (e := Player.entity (player l)).
  pose proof (rest_next (XY.x (Entity.position e)) (XY.x (Entity.direction e))
                (Entity.speed e) delta Hs) as Hx.
  pose proof (rest_next (XY.y (Entity.position e)) (XY.y (Entity.direction e))
                (Entity.speed e) delta Hs) as Hy.
  unfold PlayerMethods.update, EntityMethods.update. simpl EntityMethods.get. fold e.
  cbv beta iota zeta.
  rewrite !rest_floor by done.
  pose proof (checkCollision_at_rest l) as Hcc. cbv zeta in Hcc.
  unfold XY.xRounded, XY.yRounded in Hcc. fold e in Hcc. rewrite Hcc.
  simpl mbind.
  unfold PlayerMethods.this_position, XY.differRounded, XY.xRounded, XY.yRounded.
  cbn [EntityMethods.put player with_player Player.entity Player.with_entity
       Entity.position Entity.with_position XY.x XY.y Player.claiming].
  fold e. rewrite !rest_floor, !Z.eqb_refl by done.
  cbn [negb orb]. rewrite andb_false_r. cbn [andb].
  eexists. split; [reflexivity|]. simpl. split_and!; done.
Qed.

Lemma player_at_rest_witness :
  ∃ l', PlayerMethods.update 1 (die (XonixLevel.new (XonixField.new 2 2) [] Player.new)) = Some l'
        ∧ emitted l' = emitted (die (XonixLevel.new (XonixField.new 2 2) [] Player.new)).
Proof.
  destruct (player_at_rest 1 (die (XonixLevel.new (XonixField.new 2 2) [] Player.new)))
    as (l' & Hrun & _ & _ & He & _).
  - reflexivity.
  - exists l'. split; [exact Hrun|exact He].
Defined.

Lemma get_put_enemy l i e e2 :
  EntityMethods.get l (TheEnemy i) = Some e →
  EntityMethods.get (EntityMethods.put l (TheEnemy i) e2) (TheEnemy i) = Some e2.
Proof.
  simpl. intros Hget. rewrite list_lookup_alter.
  destruct (enemies l !! i) as [en|]; [|discriminate Hget]. by destruct (decide (i = i)).
Qed.

Lemma enemy_onCollision_get i l c e :
  EntityMethods.get l (TheEnemy i) = Some e →
  ∃ e', EntityMethods.get (EnemyMethods.onCollision i l c) (TheEnemy i) = Some e'
        ∧ Entity.position e' = Entity.position e
        ∧ Entity.speed e' = Entity.speed e.
Proof.
  intros Hget. unfold EnemyMethods.onCollision. rewrite Hget.
  eexists. split.
  - destruct (_ || _).
    + unfold EntityMethods.get at 1. rewrite LevelFacts.die_enemies.
      apply (get_put_enemy l i e), Hget.
    + apply (get_put_enemy l i e), Hget.
  - done.
Qed.

Lemma enemyOnCollision_get i l c e :
  EntityMethods.get l (TheEnemy i) = Some e →
  ∃ l' e', XonixGame.enemyOnCollision i l c = Some l'
           ∧ EntityMethods.get l' (TheEnemy i) = Some e'
           ∧ Entity.position e' = Entity.position e
           ∧ Entity.speed e' = Entity.speed e.
Proof.
  intros Hget. destruct (enemy_onCollision_get i l c e Hget) as (e' & Hg & Hp & Hs).
  unfold XonixGame.enemyOnCollision.
  destruct (Enemy.class <$> enemies l !! i) as [[]|]; eexists; exists e';
    (split; [reflexivity|]); (split; [|done]); try done.
  unfold DestroyerMethods.onCollision. by destruct (bool_decide _).
Qed.

(** X16.  One update of an enemy or destroyer either moves it or bounces
    it, never both.  When it moves, it lands on a cell that holds the
    same state as the cell it left (an enemy on Unclaimed ground never
    steps on a Claimed or Claiming cell, nor off the grid) and nothing
    else in the level changes.  When it bounces, it stays where it is;
    its speed is unchanged either way. *)
Theorem enemy_moves_or_bounces (delta : Q) (i : nat) (l : t) (e : Entity.t) :
  EntityMethods.get l (TheEnemy i) = Some e →
  ∃ l' e', XonixGame.updateEntity delta l (TheEnemy i) = Some l'
    ∧ EntityMethods.get l' (TheEnemy i) = Some e'
    ∧ Entity.speed e' = Entity.speed e
    ∧ XonixField.getCell (field l)
        (XY.xRounded (Entity.position e')) (XY.yRounded (Entity.position e'))
      = XonixField.getCell (field l)
          (XY.xRounded (Entity.position e)) (XY.yRounded (Entity.position e))
    ∧ (Entity.position e' = Entity.position e
       ∨ (Entity.direction e' = Entity.direction e
          ∧ Entity.position e'
            = XY.mk (XY.x (Entity.position e)
                     + XY.x (Entity.direction e) * (Entity.speed e * delta))%Q
                    (XY.y (Entity.position e)
                     + XY.y (Entity.direction e) * (Entity.speed e * delta))%Q
          ∧ l' = EntityMethods.put l (TheEnemy i) e')).
Proof.
  intros Hget. unfold XonixGame.updateEntity, EntityMethods.update.
  rewrite Hget. cbv beta iota zeta.
  destruct (EntityMethods.checkCollision _ _ _ _ _ _) as [c|] eqn:Hcc.
  - destruct (enemyOnCollision_get i l c e Hget) as (l' & e' & Hrun & Hg & Hp & Hs).
    exists l', e'. rewrite Hp. split_and!; [done..|by left].
  - apply ShapeFacts.checkCollision_none in Hcc.
    eexists. eexists. split; [reflexivity|].
    split; [apply (get_put_enemy l i e), Hget|].
    split; [done|]. split; [exact Hcc|]. right. done.
Qed.

Lemma enemy_moves_or_bounces_witness :
  ∃ l' e',
    XonixGame.updateEntity 1
      (XonixLevel.new (XonixField.new 3 3)
         [XonixLevelBuilder.spawn Enemy.IsEnemy 0 0] Player.new) (TheEnemy 0) = Some l'
    ∧ EntityMethods.get l' (TheEnemy 0) = Some e'
    ∧ Entity.speed e' = 1%Q.
Proof.
  destruct (enemy_moves_or_bounces 1 0
              (XonixLevel.new (XonixField.new 3 3)
                 [XonixLevelBuilder.spawn Enemy.IsEnemy 0 0] Player.new)
              (Enemy.entity (XonixLevelBuilder.spawn Enemy.IsEnemy 0 0)) eq_refl)
    as (l' & e' & Hrun & Hg & Hs & _).
  exists l', e'. split; [exact Hrun|]. split; [exact Hg|exact Hs].
Defined.

Lemma claimed_after_claim es f f' x y :
  FieldProps.well_formed f → XonixField.claim es f = Some f' →
  FieldProps.inside f x y →
  XonixField.getCell f x y ≠ Some UNCLAIMED →
  XonixField.getCell f' x y = Some CLAIMED.
Proof.
  intros Hwf Hrun Hin Hne.
  destruct (FieldMore.claim_outcome es f Hwf) as (f1 & Hrun1 & _ & Hw & Hh & Hcells).
  assert (f1 = f') as -> by congruence.
  destruct (FieldFacts.index_inside f x y Hin) as (Hr & _).
  rewrite FieldMore.getCell_cellAt in Hne by done.
  rewrite FieldMore.getCell_cellAt by (unfold FieldProps.inside; by rewrite Hw, Hh).
  unfold XonixField.efficientIndex in *. rewrite Hw.
  by apply (Hcells _ Hr).
Qed.

Lemma no_trail_after_claim es f f' x y :
  FieldProps.well_formed f → XonixField.claim es f = Some f' →
  XonixField.getCell f' x y ≠ Some CLAIMING.
Proof.
  intros Hwf Hrun.
  destruct (FieldMore.claim_outcome es f Hwf) as (f1 & Hrun1 & _ & Hw & Hh & Hcells).
  assert (f1 = f') as -> by congruence.
  destruct (FieldMore.inside_dec f' x y) as [Hi|Ho].
  - destruct (FieldFacts.index_inside f' x y Hi) as (Hr & _).
    rewrite FieldMore.getCell_cellAt by done.
    assert (Hr' : 0 ≤ XonixField.efficientIndex f' x y < FieldProps.area f).
    { unfold FieldProps.area in *. by rewrite <- Hw, <- Hh. }
    destruct (Hcells _ Hr') as [[Hs|[Hs _]] _]; congruence.
  - by rewrite FieldMore.getCell_outside.
Qed.

(** X17.  The player reaching Claimed ground while the level is in good
    shape: [onCollision] with a collision that names a Claimed cell
    returns; the player stands on that cell and is no longer claiming;
    the cell it left and the cell it reached are Claimed, no cell of the
    grid is Claiming any more, and every cell that was Claimed or
    Claiming is Claimed; the level stays in good shape, the lives are
    unchanged and at most a "won" has been fired. *)
Theorem player_closes_trail (l : t) (c : Collision) :
  shipshape l → names_its_cell l c → collidedCellState c = Some CLAIMED →
  let prev := Entity.position (Player.entity (player l)) in
  ∃ l', PlayerMethods.onCollision l c = Some l'
        ∧ shipshape l'
        ∧ Player.claiming (player l') = false
        ∧ Entity.position (Player.entity (player l'))
          = XY.mk (inject_Z (col_x c)) (inject_Z (col_y c))
        ∧ XonixField.getCell (field l') (XY.xRounded prev) (XY.yRounded prev)
          = Some CLAIMED
        ∧ XonixField.getCell (field l') (col_x c) (col_y c) = Some CLAIMED
        ∧ (∀ x y, XonixField.getCell (field l') x y ≠ Some CLAIMING)
        ∧ (∀ x y, XonixField.getCell (field l) x y = Some CLAIMED
                  ∨ XonixField.getCell (field l) x y = Some CLAIMING →
                  XonixField.getCell (field l') x y = Some CLAIMED)
        ∧ Player.lives (player l') = Player.lives (player l)
        ∧ (emitted l' = emitted l ∨ emitted l' = Won :: emitted l).
Proof.
  intros Hl Hn Hs prev.
  destruct (ShapeFacts.player_onCollision_kept l c Hl Hn) as (l' & Hrun & Hl' & _).
  exists l'. split; [done|]. split; [done|].
  unfold PlayerMethods.onCollision in Hrun. rewrite Hs in Hrun.
  unfold PlayerMethods.this_position in Hrun. fold prev in Hrun.
  set (f1 := XonixField.setCellByXY CLAIMING (XY.xRounded prev) (XY.yRounded prev)
               (field l)) in *.
  unfold claim in Hrun.
  cbn [field enemies PlayerMethods.set_position with_player with_field] in Hrun.
  destruct (XonixField.claim (enemies l) f1) as [f'|] eqn:Hclaim; [|done].
  pose proof (shape_player l Hl) as Hprev. fold prev in Hprev.
  assert (Hxy := ShapeFacts.named_inside l c _ Hn Hs ltac:(done)).
  assert (Hwf1 : FieldProps.well_formed f1).
  { apply FieldProps.cons_wf, FieldFacts.setCellByXY_consistent;
      [done|by apply FieldFacts.isOut_false|by apply shape_field]. }
  assert (Hinside1 : ∀ a b, FieldProps.inside f1 a b ↔ FieldProps.inside (field l) a b)
    by done.
  assert (Hwritten : XonixField.getCell f1 (XY.xRounded prev) (XY.yRounded prev)
                     = Some CLAIMING).
  { rewrite FieldMore.getCell_cellAt by by apply Hinside1.
    unfold f1, XonixField.setCellByXY. rewrite FieldFacts.cellAt_setCellDirect.
    by destruct (decide (_ = _)). }
  assert (Hothers : ∀ a b s, XonixField.getCell (field l) a b = Some s →
                             s = CLAIMED ∨ s = CLAIMING →
                             XonixField.getCell f1 a b ≠ Some UNCLAIMED).
  { intros a b s Hab Hor.
    assert (Hin : FieldProps.inside (field l) a b).
    { apply FieldFacts.getCell_inside in Hab; [by destruct Hab|by destruct Hor as [-> | ->]]. }
    rewrite FieldMore.getCell_cellAt in Hab by done.
    rewrite FieldMore.getCell_cellAt by by apply Hinside1.
    unfold f1, XonixField.setCellByXY.
    change (XonixField.efficientIndex (XonixField.setCellDirect _ _ _) a b)
      with (XonixField.efficientIndex (field l) a b).
    rewrite FieldFacts.cellAt_setCellDirect.
    destruct (decide (_ = _)); [done|]. rewrite Hab. destruct Hor as [-> | ->]; done. }
  simpl in Hrun. injection Hrun as <-.
  assert (Hfield : field (PlayerMethods.set_claiming
                     (if js_gt (XonixField.claimedRatio f') (claimRatioWin l)
                      then win (with_field (PlayerMethods.set_position
                                  (with_field l f1) (col_x c) (col_y c)) f')
                      else with_field (PlayerMethods.set_position
                                  (with_field l f1) (col_x c) (col_y c)) f') false) = f').
  { by destruct (js_gt _ _). }
  rewrite Hfield.
  split; [by destruct (js_gt _ _)|]. split; [by destruct (js_gt _ _)|].
  split.
  { apply (claimed_after_claim (enemies l) f1); [done|done|by apply Hinside1|].
    by rewrite Hwritten. }
  split.
  { apply (claimed_after_claim (enemies l) f1); [done|done|by apply Hinside1|].
    by apply (Hothers _ _ CLAIMED); [apply Hn|left]. }
  split; [intros x y; by apply (no_trail_after_claim (enemies l) f1)|].
  split.
  { intros x y Hor.
    assert (Hin : FieldProps.inside (field l) x y).
    { destruct Hor as [H|H]; apply FieldFacts.getCell_inside in H; by destruct H. }
    apply (claimed_after_claim (enemies l) f1); [done|done|by apply Hinside1|].
    destruct Hor as [H|H]; [by apply (Hothers _ _ CLAIMED); [|left]
                           |by apply (Hothers _ _ CLAIMING); [|right]]. }
  split; [by destruct (js_gt _ _)|].
  destruct (js_gt _ _); [by right|by left].
Qed.

Lemma player_closes_trail_witness :
  ∃ l', PlayerMethods.onCollision
          (XonixLevel.new (XonixField.setCellByXY CLAIMED 1 0 (XonixField.new 2 1))
             [] Player.new)
          (mkCollision 1 0 (Some UNCLAIMED) (Some CLAIMED) None) = Some l'
        ∧ XonixField.getCell (field l') 0 0 = Some CLAIMED.
Proof.
  destruct (player_closes_trail
              (XonixLevel.new (XonixField.setCellByXY CLAIMED 1 0 (XonixField.new 2 1))
                 [] Player.new)
              (mkCollision 1 0 (Some UNCLAIMED) (Some CLAIMED) None))
    as (l' & Hrun & _ & _ & _ & Hprev & _).
  - apply ShapeFacts.new_shipshape.
    + apply FieldFacts.arises_consistent, FieldProps.arises_set;
        [apply FieldProps.arises_new|done|reflexivity].
    + vm_compute. intuition congruence.
    + vm_compute. intuition congruence.
    + constructor.
  - intros s Hs. simpl in Hs. injection Hs as <-. reflexivity.
  - reflexivity.
  - exists l'. split; [exact Hrun|exact Hprev].
Defined.

Lemma enemy_onCollision_field i l c :
  field (EnemyMethods.onCollision i l c) = field l
  ∨ field (EnemyMethods.onCollision i l c) = XonixField.clearClaiming (field l).
Proof.
  unfold EnemyMethods.onCollision.
  destruct (EntityMethods.get l (TheEnemy i)) as [e|]; [|by left].
  destruct (_ || _); [|by left].
  right. rewrite LevelFacts.die_eq. cbv zeta. by destruct (_ <? 0).
Qed.

Lemma claimed_count_erased f x y :
  XonixField.getCell f x y = Some CLAIMED →
  XonixField.count_get
    (XonixField.cellCount (XonixField.setCellByXY UNCLAIMED x y f)) CLAIMED
  = XonixField.count_get (XonixField.cellCount f) CLAIMED - 1.
Proof.
  intros Hs. apply FieldFacts.getCell_inside in Hs; [|done]. destruct Hs as [_ Hs].
  unfold XonixField.setCellByXY, XonixField.setCellDirect.
  unfold FieldProps.cellAt in Hs. rewrite Hs. simpl. lia.
Qed.

(** X18.  A destroyer hitting a Claimed cell while the level is in good
    shape turns that cell Unclaimed: the count of Claimed drops by one
    below what it was before the collision, no other cell is touched
    beyond what the enemy's own [onCollision] did, and the level stays in
    good shape.  An enemy that is no destroyer leaves the count of
    Claimed as it was. *)
Theorem destroyer_erases (i : nat) (l : t) (c : Collision) :
  shipshape l → names_its_cell l c → collidedCellState c = Some CLAIMED →
  let bounced := EnemyMethods.onCollision i l c in
  let l' := DestroyerMethods.onCollision i l c in
  shipshape l'
  ∧ XonixField.getCell (field l') (col_x c) (col_y c) = Some UNCLAIMED
  ∧ (∀ x y, (x, y) ≠ (col_x c, col_y c) →
            XonixField.getCell (field l') x y = XonixField.getCell (field bounced) x y)
  ∧ XonixField.count_get (XonixField.cellCount (field l')) CLAIMED
    = XonixField.count_get (XonixField.cellCount (field l)) CLAIMED - 1
  ∧ XonixField.count_get (XonixField.cellCount (field bounced)) CLAIMED
    = XonixField.count_get (XonixField.cellCount (field l)) CLAIMED
  ∧ enemies l' = enemies bounced ∧ player l' = player bounced
  ∧ emitted l' = emitted bounced.
Proof.
  intros Hl Hn Hs bounced l'.
  pose proof (ShapeFacts.destroyer_onCollision_kept i l c Hl Hn) as (Hl' & _).
  pose proof (ShapeFacts.enemy_onCollision_kept i l c Hl) as Hk. fold bounced in Hk.
  assert (Hin := ShapeFacts.named_inside l c _ Hn Hs ltac:(done)).
  assert (Hin1 := ShapeFacts.kept_inside _ _ _ _ Hk Hin).
  assert (Hstate : XonixField.getCell (field bounced) (col_x c) (col_y c) = Some CLAIMED
                   ∧ XonixField.count_get (XonixField.cellCount (field bounced)) CLAIMED
                     = XonixField.count_get (XonixField.cellCount (field l)) CLAIMED).
  { destruct (enemy_onCollision_field i l c) as [Hf|Hf]; fold bounced in Hf; rewrite Hf.
    - split; [by apply Hn|done].
    - split; [|by apply FieldMore.cleared_claimed_count, shape_field].
      rewrite FieldMore.cleared_getCell by by apply FieldProps.cons_wf, shape_field.
      rewrite (Hn _ Hs). by destruct (decide (Some CLAIMED = Some CLAIMING)). }
  destruct Hstate as [Hcell Hcount].
  assert (Hl'eq : l' = with_field bounced
                         (XonixField.setCellByXY UNCLAIMED (col_x c) (col_y c)
                            (field bounced))).
  { unfold l', DestroyerMethods.onCollision. fold bounced.
    by rewrite bool_decide_eq_true_2. }
  split; [done|]. rewrite Hl'eq.
  cbn [field with_field enemies player emitted].
  split; [by apply FieldMore.getCell_written|].
  split; [intros x y Hne; by apply FieldMore.getCell_elsewhere|].
  split; [by rewrite claimed_count_erased, Hcount|done].
Qed.

Lemma destroyer_erases_witness :
  XonixField.getCell
    (field (DestroyerMethods.onCollision 0
              (XonixLevel.new (XonixField.setCellByXY CLAIMED 1 0 (XonixField.new 2 1))
                 [XonixLevelBuilder.spawn Enemy.IsDestroyer 0 0] Player.new)
              (mkCollision 1 0 (Some UNCLAIMED) (Some CLAIMED) None))) 1 0
  = Some UNCLAIMED.
Proof.
  apply (destroyer_erases 0
           (XonixLevel.new (XonixField.setCellByXY CLAIMED 1 0 (XonixField.new 2 1))
              [XonixLevelBuilder.spawn Enemy.IsDestroyer 0 0] Player.new)
           (mkCollision 1 0 (Some UNCLAIMED) (Some CLAIMED) None)).
  - apply ShapeFacts.new_shipshape.
    + apply FieldFacts.arises_consistent, FieldProps.arises_set;
        [apply FieldProps.arises_new|done|reflexivity].
    + vm_compute. intuition congruence.
    + vm_compute. intuition congruence.
    + repeat constructor; vm_compute; congruence.
  - intros s Hs. simpl in Hs. injection Hs as <-. reflexivity.
  - reflexivity.
Defined.

End MovementFacts.

(** * The builder *)

Module BuilderFacts.
Import XonixField FieldProps ShapeProps.

Lemma foldl_flat_map {A B C} (g : A → C → A) (h : B → list C) (a : A) (l : list B) :
  foldl (fun a x => foldl g a (h x)) a l = foldl g a (flat_map h l).
Proof.
  revert a. induction l as [|x l IH]; intros a; [done|].
  simpl. by rewrite foldl_app, IH.
Qed.

Lemma foldl_same {A B} (f g : A → B → A) (a : A) (l : list B) :
  (∀ a x, f a x = g a x) → foldl f a l = foldl g a l.
Proof.
  intros Hfg. revert a. induction l as [|x l IH]; intros a; [done|].
  simpl. by rewrite Hfg, IH.
Qed.

Lemma foldl_two {A B C} (g : A → C → A) (p q : B → C) (a : A) (l : list B) :
  foldl (fun a i => g (g a (p i)) (q i)) a l
  = foldl g a (flat_map (fun i => [p i; q i]) l).
Proof. revert a. induction l as [|x l IH]; intros a; [done|]. simpl. by rewrite IH. Qed.

Lemma writes_claimed (ps : list (Z * Z)) (f : t) :
  consistent f → (∀ p, p ∈ ps → inside f p.1 p.2) →
  let f' := foldl (fun f p => setCellByXY CLAIMED p.1 p.2 f) f ps in
  consistent f' ∧ width f' = width f ∧ height f' = height f
  ∧ ∀ x y, ((x, y) ∈ ps → getCell f' x y = Some CLAIMED)
           ∧ ((x, y) ∉ ps → getCell f' x y = getCell f x y).
Proof.
  revert f. induction ps as [|[a b] ps IH]; intros f Hc Hin; simpl.
  { split_and!; [done..|]. intros x y. split; [by intros ?%elem_of_nil|done]. }
  assert (Hab : inside f a b) by (apply (Hin (a, b)); by left).
  assert (Hc1 : consistent (setCellByXY CLAIMED a b f)).
  { apply FieldFacts.setCellByXY_consistent; [done|by apply FieldFacts.isOut_false|done]. }
  destruct (IH (setCellByXY CLAIMED a b f) Hc1) as (Hc' & Hw & Hh & Hcells).
  { intros p Hp. apply (Hin p). by right. }
  split_and!; [done..|]. intros x y. destruct (Hcells x y) as [Hyes Hno].
  split.
  - intros Hxy. destruct (decide ((x, y) ∈ ps)) as [Hps|Hps]; [by apply Hyes|].
    apply elem_of_cons in Hxy. destruct Hxy as [Hxy|Hxy]; [|done].
    injection Hxy as -> ->. rewrite Hno by done. by apply FieldMore.getCell_written.
  - intros Hxy. apply not_elem_of_cons in Hxy. destruct Hxy as [Hne Hps].
    rewrite Hno by done. by apply FieldMore.getCell_elsewhere.
Qed.

Lemma elem_of_columns (W H k x y : Z) :
  (x, y) ∈ flat_map (fun x => flat_map (fun i => [(x, i); (x, H - i - 1)]) (seqZ 0 k))
                    (seqZ 0 W)
  ↔ 0 ≤ x < W ∧ ((0 ≤ y < k) ∨ (H - k ≤ y < H)).
Proof.
  rewrite list_elem_of_In, in_flat_map. split.
  - intros (x0 & Hx0 & Hin). apply in_flat_map in Hin. destruct Hin as (i & Hi & Hin).
    apply list_elem_of_In, elem_of_seqZ in Hx0.
    apply list_elem_of_In, elem_of_seqZ in Hi.
    simpl in Hin. destruct Hin as [Hin|[Hin|[]]]; injection Hin as <- <-; lia.
  - intros (Hx & Hy). exists x. split; [apply list_elem_of_In, elem_of_seqZ; lia|].
    apply in_flat_map. destruct Hy as [Hy|Hy].
    + exists y. split; [apply list_elem_of_In, elem_of_seqZ; lia|]. by left.
    + exists (H - y - 1). split; [apply list_elem_of_In, elem_of_seqZ; lia|].
      right. left. f_equal. lia.
Qed.

Lemma elem_of_rows (W H k x y : Z) :
  (x, y) ∈ flat_map (fun y => flat_map (fun i => [(i, y); (W - i - 1, y)]) (seqZ 0 k))
                    (seqZ 0 H)
  ↔ 0 ≤ y < H ∧ ((0 ≤ x < k) ∨ (W - k ≤ x < W)).
Proof.
  rewrite list_elem_of_In, in_flat_map. split.
  - intros (y0 & Hy0 & Hin). apply in_flat_map in Hin. destruct Hin as (i & Hi & Hin).
    apply list_elem_of_In, elem_of_seqZ in Hy0.
    apply list_elem_of_In, elem_of_seqZ in Hi.
    simpl in Hin. destruct Hin as [Hin|[Hin|[]]]; injection Hin as <- <-; lia.
  - intros (Hy & Hx). exists y. split; [apply list_elem_of_In, elem_of_seqZ; lia|].
    apply in_flat_map. destruct Hx as [Hx|Hx].
    + exists x. split; [apply list_elem_of_In, elem_of_seqZ; lia|]. by left.
    + exists (W - x - 1). split; [apply list_elem_of_In, elem_of_seqZ; lia|].
      right. left. f_equal. lia.
Qed.

Lemma claimBorder_writes (k : Z) (b : XonixLevelBuilder.t) :
  XonixLevelBuilder.field (XonixLevelBuilder.claimBorder k b)
  = foldl (fun f p => setCellByXY CLAIMED p.1 p.2 f) (XonixLevelBuilder.field b)
      (flat_map (fun x => flat_map (fun i => [(x, i);
                                              (x, height (XonixLevelBuilder.field b) - i - 1)])
                                   (seqZ 0 k))
                (seqZ 0 (width (XonixLevelBuilder.field b)))
       ++ flat_map (fun y => flat_map (fun i => [(i, y);
                                                 (width (XonixLevelBuilder.field b) - i - 1, y)])
                                      (seqZ 0 k))
                   (seqZ 0 (height (XonixLevelBuilder.field b)))).
Proof.
  unfold XonixLevelBuilder.claimBorder. cbv zeta. simpl XonixLevelBuilder.field.
  set (write := fun (f : t) (p : Z * Z) => setCellByXY CLAIMED p.1 p.2 f).
  set (W := width (XonixLevelBuilder.field b)).
  set (H := height (XonixLevelBuilder.field b)).
  rewrite foldl_app, <- !(foldl_flat_map write).
  rewrite (foldl_same _ (fun f y => foldl write f
                           (flat_map (fun i => [(i, y); (W - i - 1, y)]) (seqZ 0 k)))).
  2:{ intros f y. apply (foldl_two write (fun i => (i, y)) (fun i => (W - i - 1, y))). }
  f_equal. apply foldl_same. intros f x.
  apply (foldl_two write (fun i => (x, i)) (fun i => (x, H - i - 1))).
Qed.

(** X19.  [claimBorder(k)] on a builder whose field is consistent and at
    least [k] cells wide and high: afterwards exactly the cells within
    [k] of an edge of the grid are Claimed on top of what the field held,
    every other cell reads as before, the field is consistent with its
    size unchanged, and the rest of the builder is untouched. *)
Theorem claimBorder_frames (k : Z) (b : XonixLevelBuilder.t) :
  consistent (XonixLevelBuilder.field b) →
  k ≤ width (XonixLevelBuilder.field b) → k ≤ height (XonixLevelBuilder.field b) →
  let b' := XonixLevelBuilder.claimBorder k b in
  consistent (XonixLevelBuilder.field b')
  ∧ width (XonixLevelBuilder.field b') = width (XonixLevelBuilder.field b)
  ∧ height (XonixLevelBuilder.field b') = height (XonixLevelBuilder.field b)
  ∧ (∀ x y, inside (XonixLevelBuilder.field b) x y →
            (onBorder (XonixLevelBuilder.field b) k x y →
             getCell (XonixLevelBuilder.field b') x y = Some CLAIMED)
            ∧ (¬ onBorder (XonixLevelBuilder.field b) k x y →
               getCell (XonixLevelBuilder.field b') x y
               = getCell (XonixLevelBuilder.field b) x y))
  ∧ XonixLevelBuilder.enemies b' = XonixLevelBuilder.enemies b
  ∧ XonixLevelBuilder.player b' = XonixLevelBuilder.player b
  ∧ XonixLevelBuilder.defaultPlayerPosition b'
    = XonixLevelBuilder.defaultPlayerPosition b.
Proof.
  intros Hc Hkw Hkh b'. unfold b'. rewrite claimBorder_writes.
  set (f := XonixLevelBuilder.field b) in *.
  match goal with |- context [foldl ?g f ?ps] =>
    destruct (writes_claimed ps f Hc) as (Hc' & Hw & Hh & Hcells) end.
  { intros [x y] Hp. apply elem_of_app in Hp. unfold inside. simpl.
    destruct Hp as [Hp|Hp]; [apply elem_of_columns in Hp|apply elem_of_rows in Hp]; lia. }
  split; [done|]. split; [done|]. split; [done|]. split; [|done].
  intros x y Hin. destruct (Hcells x y) as [Hyes Hno]. unfold inside in Hin.
  split.
  - intros Hb. apply Hyes. unfold onBorder in Hb. apply elem_of_app.
    destruct (decide (y < k ∨ height f - k ≤ y)) as [Hy|Hy].
    + left. apply elem_of_columns. lia.
    + right. apply elem_of_rows. lia.
  - intros Hb. apply Hno. unfold onBorder in Hb. intros Hp. apply Hb.
    apply elem_of_app in Hp.
    destruct Hp as [Hp|Hp]; [apply elem_of_columns in Hp|apply elem_of_rows in Hp]; lia.
Qed.

Lemma claimBorder_frames_witness :
  getCell (XonixLevelBuilder.field
             (XonixLevelBuilder.claimBorder 1
                (XonixLevelBuilder.resize 3 3 XonixLevelBuilder.new))) 2 1
  = Some CLAIMED.
Proof.
  assert (Hc : consistent (XonixLevelBuilder.field
                             (XonixLevelBuilder.resize 3 3 XonixLevelBuilder.new)))
    by apply FieldFacts.new_consistent.
  destruct (claimBorder_frames 1 (XonixLevelBuilder.resize 3 3 XonixLevelBuilder.new) Hc)
    as (_ & _ & _ & Hcells & _).
  - vm_compute. congruence.
  - vm_compute. congruence.
  - apply (Hcells 2 1).
    + vm_compute. intuition congruence.
    + vm_compute. right. left. congruence.
Defined.

End BuilderFacts.

(** * The clock of a level *)

Module ClockFacts.
Import XonixLevel ShapeProps.

Lemma replicate_Lost (k : nat) (e : list Notification) :
  replicate k Lost ++ Lost :: e = Lost :: replicate k Lost ++ e.
Proof. induction k as [|k IH]; [done|]. simpl. by rewrite IH. Qed.

Lemma timerTicks_ticks (n : nat) (l : t) :
  timerTicks n l
  = mk (field l) (enemies l) (player l) (claimRatioWin l) (defaultPlayerPosition l)
       (countdownTime l) (XonixTimer.ticks n (timer l)).1
       (replicate (XonixTimer.ticks n (timer l)).2 Lost ++ emitted l).
Proof.
  revert l. induction n as [|n IH]; intros l; [by destruct l|].
  cbn [timerTicks XonixTimer.ticks]. rewrite IH. unfold timerTick.
  destruct (XonixTimer.tick (timer l)) as [tm1 fired].
  destruct (XonixTimer.ticks n tm1) as [tm2 k] eqn:Hn.
  destruct fired; simpl; rewrite Hn; simpl; [|done].
  by rewrite replicate_Lost.
Qed.

(** X20.  The clock of a level.  After [start(level)] has started the
    timer of a level whose timer was not paused: with a [countdownTime]
    other than 0 the level counts down, nothing is fired while the time
    lasts, and once it has run out the level has lost exactly once,
    however many more seconds pass; with no [countdownTime], or with 0,
    the timer counts up from 0 and the clock never makes the level lose.
    The seconds change nothing else in the level. *)
Theorem level_clock (l : t) (n : nat) :
  XonixTimer.paused (timer l) = false →
  let played := timerTicks n (XonixGame.startTimer l) in
  field played = field l ∧ enemies played = enemies l ∧ player played = player l
  ∧ (∀ k, countdownTime l = Some k → k ≠ 0 →
          (Z.of_nat n ≤ k →
           emitted played = emitted l
           ∧ XonixTimer.seconds (timer played) = k - Z.of_nat n)
          ∧ (Z.max k 0 < Z.of_nat n → emitted played = Lost :: emitted l))
  ∧ (countdownTime l = None ∨ countdownTime l = Some 0 →
     emitted played = emitted l
     ∧ XonixTimer.seconds (timer played) = Z.of_nat n).
Proof.
  intros Hp played. unfold played. rewrite timerTicks_ticks.
  unfold XonixGame.startTimer. cbn [field enemies player emitted timer with_timer].
  split; [done|]. split; [done|]. split; [done|]. split.
  - intros k Hk Hk0. rewrite Hk. simpl default.
    assert ((k =? 0) = false) as -> by by apply Z.eqb_neq.
    simpl negb. rewrite TimerMore.start_running by done. split; intros Hn.
    + by rewrite TimerMore.ticks_down.
    + by rewrite TimerMore.ticks_out.
  - intros Hk.
    assert (XonixTimer.start
              match countdownTime l with
              | Some n0 => negb (n0 =? 0)
              | None => false
              end (default 0 (countdownTime l)) (timer l)
            = XonixTimer.mk 0 (Some (XonixTimer.mkInterval false 1)) false) as ->.
    { destruct Hk as [-> | ->]; simpl; by rewrite TimerMore.start_running. }
    by rewrite TimerMore.ticks_up.
Qed.

Lemma level_clock_witness :
  emitted (timerTicks 5 (XonixGame.startTimer
             (mk (XonixField.new 1 1) [] Player.new (4 # 5) XY.new (Some 2)
                 XonixTimer.new [])))
  = [Lost].
Proof.
  destruct (level_clock (mk (XonixField.new 1 1) [] Player.new (4 # 5) XY.new (Some 2)
                            XonixTimer.new []) 5 eq_refl) as (_ & _ & _ & H & _).
  apply (H 2 eq_refl); [lia|simpl; lia].
Defined.

End ClockFacts.

(** * The trail *)

Module TrailFacts.
Import XonixLevel ShapeProps.

Lemma no_trail_behind l : no_trail (field l) → trail_behind l.
Proof. intros Hn. split; [apply Hn|done]. Qed.

Lemma cleared_no_trail f : FieldProps.well_formed f → no_trail (XonixField.clearClaiming f).
Proof.
  intros Hwf x y. rewrite FieldMore.cleared_getCell by done.
  by destruct (decide (XonixField.getCell f x y = Some CLAIMING)).
Qed.

Lemma die_trail l : shipshape l → kept l (die l) ∧ trail_behind (die l).
Proof.
  intros Hl. split; [by apply ShapeFacts.die_kept|].
  apply no_trail_behind.
  assert (field (die l) = XonixField.clearClaiming (field l)) as ->.
  { rewrite LevelFacts.die_eq. cbv zeta. by destruct (_ <? 0). }
  by apply cleared_no_trail, FieldProps.cons_wf, shape_field.
Qed.

Lemma claim_trail l :
  shipshape l → ∃ l', claim l = Some l' ∧ kept l l' ∧ no_trail (field l').
Proof.
  intros Hl. destruct (ShapeFacts.claim_kept l Hl) as (l' & Hrun & Hk).
  exists l'. split; [done|]. split; [done|].
  unfold claim in Hrun.
  destruct (XonixField.claim (enemies l) (field l)) as [f'|] eqn:Hclaim; [|done].
  simpl in Hrun. injection Hrun as <-.
  assert (field (if js_gt (XonixField.claimedRatio f') (claimRatioWin l)
                 then win (with_field l f') else with_field l f') = f') as ->
    by by destruct (js_gt _ _).
  intros x y. apply (MovementFacts.no_trail_after_claim (enemies l) (field l)); [|done].
  by apply FieldProps.cons_wf, shape_field.
Qed.

Lemma same_trail l l' :
  field l' = field l →
  Entity.position (Player.entity (player l')) = Entity.position (Player.entity (player l)) →
  Player.claiming (player l') = Player.claiming (player l) →
  trail_behind l → trail_behind l'.
Proof. intros Hf Hp Hc [H1 H2]. unfold trail_behind. by rewrite Hf, Hp, Hc. Qed.

Lemma update_trail this onCollision delta l :
  (∀ c, names_its_cell l c →
        ∃ l', onCollision l c = Some l' ∧ kept l l' ∧ trail_behind l') →
  shipshape l → trail_behind l →
  ∃ l', EntityMethods.update this onCollision delta l = Some l'
        ∧ kept l l' ∧ trail_behind l'.
Proof.
  intros Hoc Hl Ht. unfold EntityMethods.update.
  destruct (EntityMethods.get l this) as [e|] eqn:Hget; [|by exists l].
  destruct (EntityMethods.checkCollision _ _ _ _ _ _) as [c|] eqn:Hcc.
  - apply Hoc. by apply ShapeFacts.checkCollision_names in Hcc.
  - apply ShapeFacts.checkCollision_none in Hcc.
    eexists. split; [done|]. split.
    + apply ShapeFacts.put_kept; [done|].
      apply (ShapeFacts.inside_same_state _ _ _ _ _ (shape_field l Hl)
               (ShapeFacts.get_inside l this e Hl Hget) Hcc).
    + destruct this as [|i].
      * simpl in Hget. injection Hget as <-. destruct Ht as [H1 H2].
        split; [|done].
        cbn [EntityMethods.put field with_player player Player.with_entity
             Player.entity Entity.with_position Entity.position].
        unfold XY.xRounded, XY.yRounded in *. cbn [XY.x XY.y]. by rewrite Hcc.
      * by apply (same_trail l).
Qed.

Lemma player_onCollision_claimed l c l' :
  collidedCellState c = Some CLAIMED →
  PlayerMethods.onCollision l c = Some l' →
  ∃ f', XonixField.claim (enemies l)
          (XonixField.setCellByXY CLAIMING
             (XY.xRounded (Entity.position (Player.entity (player l))))
             (XY.yRounded (Entity.position (Player.entity (player l))))
             (field l)) = Some f'
        ∧ field l' = f'.
Proof.
  intros Hs Hrun. unfold PlayerMethods.onCollision in Hrun. rewrite Hs in Hrun.
  unfold PlayerMethods.this_position, claim in Hrun.
  cbn [field enemies PlayerMethods.set_position with_player with_field] in Hrun.
  destruct (XonixField.claim _ _) as [f'|]; [|done].
  exists f'. split; [done|].
  simpl in Hrun. injection Hrun as <-. by destruct (js_gt _ _).
Qed.

Lemma player_onCollision_trail l c :
  shipshape l → trail_behind l → names_its_cell l c →
  ∃ l', PlayerMethods.onCollision l c = Some l' ∧ kept l l' ∧ trail_behind l'.
Proof.
  intros Hl Ht Hn.
  destruct (ShapeFacts.player_onCollision_kept l c Hl Hn) as (l' & Hrun & Hk).
  exists l'. split; [done|]. split; [done|].
  destruct (collidedCellState c) as [[]|] eqn:Hs.
  - unfold PlayerMethods.onCollision in Hrun. rewrite Hs in Hrun.
    injection Hrun as <-. by apply (same_trail l).
  - unfold PlayerMethods.onCollision in Hrun. rewrite Hs in Hrun.
    injection Hrun as <-. split; [|done].
    cbn [PlayerMethods.set_claiming PlayerMethods.set_position field with_player player
         Player.with_claiming Player.with_entity Player.entity Entity.with_position
         Entity.position XY.set].
    unfold XY.xRounded, XY.yRounded, XY.set. cbn [XY.x XY.y].
    rewrite !Qfloor_Z, (Hn _ Hs). done.
  - destruct (player_onCollision_claimed l c l' Hs Hrun) as (f' & Hclaim & Hf).
    apply no_trail_behind. rewrite Hf. intros x y.
    apply (MovementFacts.no_trail_after_claim _ _ _ x y) in Hclaim; [done|].
    apply FieldProps.cons_wf, FieldFacts.setCellByXY_consistent;
      [done|by apply FieldFacts.isOut_false, shape_player|by apply shape_field].
  - unfold PlayerMethods.onCollision in Hrun. rewrite Hs in Hrun.
    injection Hrun as <-.
    apply die_trail, (ShapeFacts.set_claiming_kept l false Hl).
  - unfold PlayerMethods.onCollision in Hrun. rewrite Hs in Hrun.
    by injection Hrun as <-.
Qed.

Lemma player_update_trail delta l :
  shipshape l → trail_behind l →
  ∃ l', PlayerMethods.update delta l = Some l' ∧ kept l l' ∧ trail_behind l'.
Proof.
  intros Hl Ht. unfold PlayerMethods.update.
  destruct (update_trail ThePlayer PlayerMethods.onCollision delta l
              (fun c => player_onCollision_trail l c Hl Ht) Hl Ht)
    as (l1 & -> & Hk1 & Htb).
  pose proof Htb as [Ht1 Ht2]. simpl mbind.
  destruct (Player.claiming (player l1)) eqn:Hclaiming; [|by exists l1].
  destruct (XY.differRounded _ _ _) eqn:Hdiff; [|by exists l1].
  destruct (negb _); [|by exists l1].
  simpl andb. cbv iota.
  assert (Hprev := ShapeFacts.kept_inside l l1 _ _ Hk1 (shape_player l Hl)).
  eexists. split; [done|]. split.
  - eapply ShapeFacts.kept_trans; [exact Hk1|].
    apply ShapeFacts.setCell_kept; [apply Hk1|done|done].
  - split; [|simpl; by rewrite Hclaiming].
    cbn [field with_field player].
    rewrite FieldMore.getCell_elsewhere; [done|done|].
    intros Heq. injection Heq as Hx Hy.
    unfold XY.differRounded, PlayerMethods.this_position in Hdiff.
    rewrite Hx, Hy in Hdiff.
    unfold PlayerMethods.this_position in Hdiff. by rewrite !Z.eqb_refl in Hdiff.
Qed.

Lemma enemy_onCollision_trail i l c :
  shipshape l → trail_behind l →
  kept l (EnemyMethods.onCollision i l c) ∧ trail_behind (EnemyMethods.onCollision i l c).
Proof.
  intros Hl Ht. split; [by apply ShapeFacts.enemy_onCollision_kept|].
  unfold EnemyMethods.onCollision.
  destruct (EntityMethods.get l (TheEnemy i)) as [e|] eqn:Hget; [|done].
  destruct (_ || _); [|by apply (same_trail l)].
  apply die_trail.
  apply (ShapeFacts.put_kept l (TheEnemy i)); [done|].
  apply (ShapeFacts.get_inside l _ e Hl Hget).
Qed.

Lemma erased_trail l x y :
  FieldProps.inside (field l) x y → trail_behind l →
  trail_behind (with_field l (XonixField.setCellByXY UNCLAIMED x y (field l))).
Proof.
  intros Hin [H1 H2].
  assert (Hcell : ∀ a b, XonixField.getCell (field l) a b ≠ Some CLAIMING →
                         XonixField.getCell
                           (XonixField.setCellByXY UNCLAIMED x y (field l)) a b
                         ≠ Some CLAIMING).
  { intros a b Hab. destruct (decide ((a, b) = (x, y))) as [Heq|Hne].
    - injection Heq as -> ->. by rewrite FieldMore.getCell_written.
    - by rewrite FieldMore.getCell_elsewhere. }
  split; simpl; [by apply Hcell|].
  intros Hc a b. by apply Hcell, H2.
Qed.

Lemma enemyOnCollision_trail i l c :
  shipshape l → trail_behind l → names_its_cell l c →
  ∃ l', XonixGame.enemyOnCollision i l c = Some l' ∧ kept l l' ∧ trail_behind l'.
Proof.
  intros Hl Ht Hn. unfold XonixGame.enemyOnCollision.
  destruct (enemy_onCollision_trail i l c Hl Ht) as [Hk Ht1].
  assert (Hd : kept l (DestroyerMethods.onCollision i l c)
               ∧ trail_behind (DestroyerMethods.onCollision i l c)).
  { split; [by apply ShapeFacts.destroyer_onCollision_kept|].
    unfold DestroyerMethods.onCollision.
    destruct (bool_decide (collidedCellState c = Some CLAIMED)) eqn:Hb; [|done].
    apply bool_decide_eq_true in Hb. apply erased_trail; [|done].
    apply (ShapeFacts.kept_inside l); [done|].
    by apply (ShapeFacts.named_inside l c CLAIMED). }
  destruct (Enemy.class <$> enemies l !! i) as [[]|]; eexists; (split; [done|]); done.
Qed.

Lemma forEach_trail delta rs l :
  shipshape l → trail_behind l →
  ∃ l', XonixGame.forEach delta rs l = Some l' ∧ kept l l' ∧ trail_behind l'.
Proof.
  revert l. induction rs as [|r rs IH]; intros l Hl Ht; simpl; [by exists l|].
  assert (∃ l1, XonixGame.updateEntity delta l r = Some l1 ∧ kept l l1 ∧ trail_behind l1)
    as (l1 & -> & Hk1 & Ht1).
  { destruct r as [|i]; simpl.
    - by apply player_update_trail.
    - apply update_trail; [|done..]. intros c. by apply enemyOnCollision_trail. }
  simpl. destruct (IH l1 (proj1 Hk1) Ht1) as (l2 & -> & Hk2 & Ht2).
  exists l2. split; [done|]. split; [by eapply ShapeFacts.kept_trans|done].
Qed.

Lemma happen_trail e l :
  shipshape l → trail_behind l →
  ∃ l', happen e l = Some l' ∧ kept l l' ∧ trail_behind l'.
Proof.
  intros Hl Ht. destruct e as [[]| |]; simpl.
  - by apply forEach_trail.
  - eexists. split; [done|]. by apply die_trail.
  - destruct (claim_trail l Hl) as (l' & Hrun & Hk & Hn).
    exists l'. split; [done|]. split; [done|]. by apply no_trail_behind.
  - eexists. split; [done|]. split; [by apply ShapeFacts.timerTick_kept|].
    apply (same_trail l); [..|done]; unfold timerTick;
      destruct (XonixTimer.tick (timer l)) as [tm []]; done.
  - eexists. split; [done|]. split; [|by apply (same_trail l)].
    apply ShapeFacts.replayer_kept; [done|]. by apply shape_player.
  - eexists. split; [done|]. split; [by apply ShapeFacts.retimer_kept|].
    by apply (same_trail l).
Qed.

(** X21.  The trail stays behind the player.  In a level in good shape
    in which the player's cell is not Claiming, and no cell is Claiming
    unless the player is claiming, both remain true whatever happens:
    after any sequence of ticks, [die], [claim], timer seconds, arrow
    keys and timer starts the player never stands on its own trail, and
    whenever the player is not claiming the grid holds no Claiming cell
    and the count of Claiming is 0. *)
Theorem trail_stays_behind (es : list Event) (l : t) :
  tidy l →
  ∃ l', happenAll es l = Some l'
        ∧ tidy l'
        ∧ (Player.claiming (player l') = false →
           XonixField.count_get (XonixField.cellCount (field l')) CLAIMING = 0).
Proof.
  revert l. induction es as [|e es IH]; intros l [Hl Ht]; cbn [happenAll].
  - exists l. split; [done|]. split; [done|]. intros Hc.
    destruct Ht as [_ Ht]. specialize (Ht Hc).
    pose proof (shape_field l Hl) as Hcons.
    rewrite (FieldProps.cons_match _ Hcons). unfold FieldProps.occurrences.
    rewrite FieldFacts.length_filter_none; [done|].
    intros j Hj Hs. apply FieldFacts.elem_of_seqZ_0 in Hj.
    rewrite (FieldProps.wf_cells_length _ (FieldProps.cons_wf _ Hcons)) in Hj.
    destruct (FieldFacts.inside_index (field l) j
                (FieldProps.wf_width _ (FieldProps.cons_wf _ Hcons)) Hj) as [Hin Hix].
    apply (Ht (j `mod` XonixField.width (field l)) (j `div` XonixField.width (field l))).
    rewrite FieldMore.getCell_cellAt by done. by rewrite Hix.
  - destruct (happen_trail e l Hl Ht) as (l1 & -> & Hk1 & Ht1). simpl mbind.
    apply IH. split; [apply Hk1|done].
Qed.

Lemma trail_stays_behind_witness :
  ∃ l', happenAll [ArrowKey 0 1; Call LevelProps.Tick; Call LevelProps.Tick;
                   Call LevelProps.Tick]
          (XonixLevel.new (XonixField.new 3 3)
             [XonixLevelBuilder.spawn Enemy.IsEnemy 1 1] Player.new) = Some l'
        ∧ tidy l'.
Proof.
  destruct (trail_stays_behind
              [ArrowKey 0 1; Call LevelProps.Tick; Call LevelProps.Tick;
               Call LevelProps.Tick]
              (XonixLevel.new (XonixField.new 3 3)
                 [XonixLevelBuilder.spawn Enemy.IsEnemy 1 1] Player.new))
    as (l' & Hrun & Hl' & _).
  - split.
    + apply ShapeFacts.new_shipshape.
      * apply FieldFacts.new_consistent.
      * vm_compute. intuition congruence.
      * vm_compute. intuition congruence.
      * repeat constructor; vm_compute; congruence.
    + apply no_trail_behind, FieldMore.new_no_trail.
  - exists l'. split; [exact Hrun|exact Hl'].
Defined.

End TrailFacts.

(** * From the builder to a level *)

Module BuiltFacts.
Import XonixField FieldProps ShapeProps.

Lemma claimBorder_written (k : Z) (b : XonixLevelBuilder.t) :
  consistent (XonixLevelBuilder.field b) →
  k ≤ width (XonixLevelBuilder.field b) → k ≤ height (XonixLevelBuilder.field b) →
  let f := XonixLevelBuilder.field b in
  let f' := XonixLevelBuilder.field (XonixLevelBuilder.claimBorder k b) in
  consistent f' ∧ width f' = width f ∧ height f' = height f
  ∧ ∀ x y, getCell f' x y = Some CLAIMED ∨ getCell f' x y = getCell f x y.
Proof.
  intros Hc Hkw Hkh f f'. unfold f'. rewrite BuilderFacts.claimBorder_writes. fold f.
  match goal with |- context [foldl ?g f ?ps] =>
    destruct (BuilderFacts.writes_claimed ps f Hc) as (Hc' & Hw & Hh & Hcells);
    [|split_and!; [done..|]; intros x y; destruct (Hcells x y) as [Hyes Hno];
      destruct (decide ((x, y) ∈ ps)); [left; by apply Hyes|right; by apply Hno]] end.
  intros [x y] Hp. apply elem_of_app in Hp. unfold inside. simpl.
  destruct Hp as [Hp|Hp];
    [apply BuilderFacts.elem_of_columns in Hp|apply BuilderFacts.elem_of_rows in Hp];
    unfold f in *; lia.
Qed.

Lemma spawn_inside f c x y :
  inside f (Qfloor x) (Qfloor y) →
  stands_inside f (Entity.position (Enemy.entity (XonixLevelBuilder.spawn c x y))).
Proof. done. Qed.

Lemma call_sound (c : BuilderCall) (b : XonixLevelBuilder.t) :
  sound b → fits b c → sound (callBuilder c b).
Proof.
  intros (Hc & Hn & He) Hfit. unfold sound.
  destruct c as [w h|k|x y|x y|x y]; cbn [callBuilder fits] in *;
    unfold XonixLevelBuilder.resize, XonixLevelBuilder.setDefaultPlayerPosition,
      XonixLevelBuilder.addEnemy, XonixLevelBuilder.addDestroyer;
    cbn [XonixLevelBuilder.field XonixLevelBuilder.enemies].
  - split; [apply FieldFacts.new_consistent|]. split; [apply FieldMore.new_no_trail|].
    eapply Forall_impl; [exact Hfit|]. intros e Hin.
    unfold stands_inside, inside. destruct (FieldMore.new_frame w h) as [-> ->]. done.
  - destruct Hfit as [Hkw Hkh].
    destruct (claimBorder_written k b Hc Hkw Hkh) as (Hc' & Hw & Hh & Hcells).
    split; [done|]. split.
    + intros x y Hs. destruct (Hcells x y) as [H|H]; [congruence|].
      rewrite H in Hs. by apply (Hn x y).
    + assert (XonixLevelBuilder.enemies (XonixLevelBuilder.claimBorder k b)
              = XonixLevelBuilder.enemies b) as -> by done.
      eapply Forall_impl; [exact He|]. intros e.
      by apply ShapeFacts.stands_size.
  - done.
  - split; [done|]. split; [done|].
    apply Forall_app. split; [done|]. constructor; [|done]. by apply spawn_inside.
  - split; [done|]. split; [done|].
    apply Forall_app. split; [done|]. constructor; [|done]. by apply spawn_inside.
Qed.

Lemma callAll_sound (cs : list BuilderCall) (b : XonixLevelBuilder.t) :
  sound b → fitsAll cs b → sound (callAll cs b).
Proof.
  revert b. induction cs as [|c cs IH]; intros b Hb Hfit; [done|].
  destruct Hfit as [Hc Hcs]. simpl. apply IH; [by apply call_sound|done].
Qed.

Lemma callAll_player (cs : list BuilderCall) (b : XonixLevelBuilder.t) :
  XonixLevelBuilder.player (callAll cs b) = XonixLevelBuilder.player b.
Proof.
  revert b. induction cs as [|c cs IH]; intros b; [done|].
  simpl. rewrite IH. by destruct c.
Qed.

(** X22.  A level built by the builder is fit to play.  Starting from a
    fresh builder, after any sequence of [resize], [claimBorder],
    [setDefaultPlayerPosition], [addEnemy] and [addDestroyer] calls whose
    arguments suit the grid (borders no wider than the grid, enemies
    placed on the grid, the grid resized around the enemies already
    placed), with the default position on the grid at the end, [build]
    gives a level in good shape without any Claiming cell: the player
    stands on the default position with no lives, no speed and not
    claiming, the timer is not started and nothing has been fired. *)
Theorem built_level_tidy (cs : list BuilderCall) :
  let b := callAll cs XonixLevelBuilder.new in
  let l := XonixLevelBuilder.build b in
  fitsAll cs XonixLevelBuilder.new →
  stands_inside (XonixLevelBuilder.field b) (XonixLevelBuilder.defaultPlayerPosition b) →
  tidy l ∧ no_trail (XonixLevel.field l)
  ∧ XonixLevel.field l = XonixLevelBuilder.field b
  ∧ XonixLevel.enemies l = XonixLevelBuilder.enemies b
  ∧ XonixLevel.player l
    = Player.mk (Entity.mk (XonixLevelBuilder.defaultPlayerPosition b) XY.new 0) 0 false
  ∧ XonixLevel.emitted l = [] ∧ XonixLevel.timer l = XonixTimer.new
  ∧ XonixLevel.countdownTime l = None.
Proof.
  intros b l Hfit Hdefault.
  assert (Hnew : sound XonixLevelBuilder.new).
  { split; [apply FieldFacts.new_consistent|]. split; [apply FieldMore.new_no_trail|constructor]. }
  destruct (callAll_sound cs _ Hnew Hfit) as (Hc & Hn & He). fold b in Hc, Hn, He.
  assert (Hshape : shipshape l) by by apply ShapeFacts.build_shipshape.
  split; [split; [done|]; by apply TrailFacts.no_trail_behind|].
  split; [done|]. split; [done|]. split; [done|]. split; [|done].
  unfold l, XonixLevelBuilder.build. simpl.
  unfold b. rewrite callAll_player. simpl. unfold XY.setFrom.
  by destruct (XonixLevelBuilder.defaultPlayerPosition _).
Qed.

Lemma built_level_tidy_witness :
  tidy (XonixLevelBuilder.build
          (callAll [Resize 100 50; ClaimBorder 3; SetDefaultPlayerPosition 50 0;
                    AddEnemy 10 10; AddEnemy 50 23; AddEnemy 0 1; AddDestroyer 40 10]
                   XonixLevelBuilder.new)).
Proof.
  apply (built_level_tidy
           [Resize 100 50; ClaimBorder 3; SetDefaultPlayerPosition 50 0;
            AddEnemy 10 10; AddEnemy 50 23; AddEnemy 0 1; AddDestroyer 40 10]).
  - vm_compute. intuition (try congruence). constructor.
  - vm_compute. intuition congruence.
Defined.

End BuiltFacts.

(** * The game object: its ticks, its clock and its canvas *)

Module GameFacts.
Import ShapeProps GameProps.

Lemma update_total l : ∃ l', XonixGame.update 1 l = Some l'.
Proof. destruct (LifetimeFacts.tick_adds l) as (l' & Hrun & _). by exists l'. Qed.

Lemma draws_well_formed l :
  FieldProps.well_formed (XonixLevel.field l) → Game.draws l = true.
Proof.
  intros Hwf. unfold Game.draws. apply forallb_forall. intros visit Hv.
  unfold XonixField.forEachCell in Hv. apply in_map_iff in Hv.
  destruct Hv as (i & <- & Hi).
  apply list_elem_of_In, FieldFacts.elem_of_seqZ_0 in Hi.
  rewrite (FieldProps.wf_cells_length _ Hwf) in Hi.
  destruct (FieldProps.wf_cells _ Hwf i Hi) as (s & Hs & Hst).
  simpl. unfold FieldProps.cellAt in Hs. rewrite Hs.
  destruct s; [by destruct Hst|done..].
Qed.

Lemma playable_draws l : playable l → Game.draws l = true.
Proof.
  intros [Hl|(Hf & _)]; apply draws_well_formed.
  - by apply FieldProps.cons_wf, shape_field.
  - rewrite Hf. apply FieldProps.cons_wf, FieldFacts.new_consistent.
Qed.

Lemma vacant_getCell l x y :
  vacant l → XonixField.getCell (XonixLevel.field l) x y = Some OUT_OF_BOUNDS.
Proof.
  intros (Hf & _). rewrite Hf. apply FieldMore.getCell_outside.
  unfold FieldProps.inside. destruct (FieldMore.new_frame 0 0) as [-> _]. lia.
Qed.

Lemma vacant_checkCollision l cx cy nx ny :
  vacant l → EntityMethods.checkCollision l ThePlayer cx cy nx ny = None.
Proof.
  intros Hv.
  unfold EntityMethods.checkCollision, EntityMethods.checkCollisions,
    EntityMethods.checkCollisionForPosition, EntityMethods.cellPredicate,
    EntityMethods.cellProvider, EntityMethods.entityProvider, XonixLevel.entities.
  rewrite !(vacant_getCell l) by done.
  rewrite bool_decide_eq_true_2 by done. cbn [negb or_else].
  destruct Hv as (_ & -> & _). cbn [length seq map find].
  repeat match goal with
  | |- context [EntityMethods.standsAt ?l ?x ?y ?r] =>
      destruct (EntityMethods.standsAt l x y r)
  end; cbn [EntityMethods.entityPredicate or_else];
    rewrite ?bool_decide_eq_true_2 by done; done.
Qed.

Lemma vacant_update l : vacant l → ∃ l', XonixGame.update 1 l = Some l' ∧ vacant l'.
Proof.
  intros Hv. pose proof Hv as (Hf & He & Hc).
  unfold XonixGame.update, XonixLevel.entities. rewrite He.
  cbn [length seq map XonixGame.forEach XonixGame.updateEntity].
  unfold PlayerMethods.update, EntityMethods.update.
  cbn [EntityMethods.get]. cbv zeta.
  rewrite vacant_checkCollision by done.
  cbn [mbind option_bind EntityMethods.put XonixLevel.player XonixLevel.with_player
       Player.claiming Player.with_entity].
  rewrite Hc. cbn [andb]. eexists. split; [reflexivity|].
  split_and!; done.
Qed.

Lemma playable_update l :
  playable l → ∃ l', XonixGame.update 1 l = Some l' ∧ playable l'.
Proof.
  intros [Hl|Hv].
  - destruct (ShapeFacts.forEach_kept 1 (XonixLevel.entities l) l Hl) as (l' & Hrun & Hl' & _).
    exists l'. split; [done|by left].
  - destruct (vacant_update l Hv) as (l' & Hrun & Hv'). exists l'. split; [done|by right].
Qed.

Lemma playable_timer l tm : playable l → playable (XonixLevel.with_timer l tm).
Proof.
  intros [Hl|(Hf & He & Hc)]; [left; by apply ShapeFacts.retimer_kept|by right].
Qed.

Lemma playable_arrow x y l : playable l → playable (XonixGame.arrowListener x y l).
Proof.
  intros [Hl|(Hf & He & Hc)]; [left|by right].
  apply (ShapeFacts.replayer_kept l); [done|]. by apply shape_player.
Qed.

Lemma playable_arrows n x y l :
  playable l → playable (Nat.iter n (XonixGame.arrowListener x y) l).
Proof. intros Hl. induction n as [|n IH]; [done|]. simpl. by apply playable_arrow. Qed.

Lemma playable_second l : playable l → playable (XonixLevel.timerTick l).
Proof.
  intros [Hl|(Hf & He & Hc)]; [left; by apply ShapeFacts.timerTick_kept|right].
  unfold XonixLevel.timerTick. by destruct (XonixTimer.tick _) as [tm []].
Qed.

Lemma playable_empty : playable XonixLevel.empty.
Proof. by right. Qed.

Lemma tickThenSchedule_playable g :
  Game.ctx g = true → playable (Game.level g) →
  ∃ g', Game.tickThenSchedule g = Some (Game.Returned g')
        ∧ Game.ctx g' = true ∧ playable (Game.level g')
        ∧ XonixGame.update 1 (Game.level g) = Some (Game.level g')
        ∧ Game.nextUpdate g' = Some (S (Game.handles g))
        ∧ Game.timeouts g' = Game.timeouts g ++ [S (Game.handles g)]
        ∧ Game.handles g' = S (Game.handles g)
        ∧ Game.paused g' = Game.paused g
        ∧ Game.listeners g' = Game.listeners g.
Proof.
  intros Hctx Hl. unfold Game.tickThenSchedule, Game.tick. rewrite Hctx.
  destruct (playable_update _ Hl) as (l' & -> & Hl'). simpl.
  rewrite (playable_draws l' Hl'). eexists. split; [reflexivity|]. by simpl.
Qed.

Lemma occur_playable e g :
  Game.ctx g = true → playable (Game.level g) → startsPlayable e →
  ∃ g', occur e g = Some (Game.Returned g')
        ∧ Game.ctx g' = true ∧ playable (Game.level g').
Proof.
  intros Hctx Hl He. destruct e as [arg| | | |h|code|]; simpl.
  - unfold Game.start.
    set (held := if negb (Game.isStopped g) then Game.stopped g else Game.level g).
    set (g1 := if negb (Game.isStopped g) then Game.stop g else g).
    assert (Hctx1 : Game.ctx g1 = true) by (unfold g1; by destruct (negb _)).
    assert (Hheld : playable held).
    { unfold held. destruct (negb _); [by apply playable_timer|done]. }
    cbn [Game.with_level Game.ctx Game.level]. rewrite Hctx1.
    match goal with |- context [Game.run ?g2] =>
      destruct (tickThenSchedule_playable (Game.with_paused g2 false)) as (g' & Hrun & ? & ? & _)
    end; [done| |].
    + cbn [Game.with_paused Game.with_level Game.level].
      apply playable_timer. destruct arg as [|l]; [done|by left].
    + exists g'. unfold Game.run. by rewrite Hrun.
  - eexists. split; [done|]. split; [done|]. by apply playable_timer.
  - eexists. split; [done|]. split; [done|]. apply playable_empty.
  - destruct (tickThenSchedule_playable (Game.with_paused g false)) as (g' & Hrun & ? & ? & _);
      [done..|].
    exists g'. unfold Game.run. by rewrite Hrun.
  - unfold Game.timeout. destruct (decide (h ∈ Game.timeouts g)); [|by exists g].
    match goal with |- context [Game.tickThenSchedule ?g2] =>
      destruct (tickThenSchedule_playable g2) as (g' & Hrun & ? & ? & _)
    end; [done..|]. by exists g'.
  - eexists. split; [done|]. unfold Game.keydown.
    destruct (Game.arrowOf code) as [[x y]|]; [|done].
    split; [done|]. by apply playable_arrows.
  - eexists. split; [done|]. split; [done|]. by apply playable_second.
Qed.

(** X23.  A game with a canvas never throws.  When the level it holds is
    in good shape (or is the empty level a new or stopped game holds) and
    every level handed to [start] is in good shape, then whatever the
    order of [start], [pause], [stop], [run], timeouts firing, key
    presses and timer seconds, every call returns: no "No canvas", and no
    "No color for state" while the field is drawn; the level held stays
    in good shape or empty. *)
Theorem game_never_throws (es : list GameEvent) (g : Game.t) :
  Game.ctx g = true → playable (Game.level g) → Forall startsPlayable es →
  ∃ g', occurAll es g = Some (g', false)
        ∧ Game.ctx g' = true ∧ playable (Game.level g').
Proof.
  revert g. induction es as [|e es IH]; intros g Hctx Hl Hes; simpl.
  { by exists g. }
  apply Forall_cons in Hes as [He Hes].
  destruct (occur_playable e g Hctx Hl He) as (g1 & -> & Hctx1 & Hl1). simpl.
  destruct (IH g1 Hctx1 Hl1 Hes) as (g2 & -> & Hctx2 & Hl2). simpl.
  by exists g2.
Qed.

Lemma game_never_throws_witness :
  ∃ g', occurAll [Start Game.Held; Timeout 1; Keydown Game.ArrowRight; Timeout 2; Second;
                  Pause; Run; Stop; Run]
          (Game.mk (XonixLevel.new (XonixField.setCellByXY CLAIMED 2 0 (XonixField.new 3 1))
                      [XonixLevelBuilder.spawn Enemy.IsDestroyer 1 0] Player.new)
                   true None false [] 0 0) = Some (g', false).
Proof.
  destruct (game_never_throws
              [Start Game.Held; Timeout 1; Keydown Game.ArrowRight; Timeout 2; Second;
               Pause; Run; Stop; Run]
              (Game.mk (XonixLevel.new
                          (XonixField.setCellByXY CLAIMED 2 0 (XonixField.new 3 1))
                          [XonixLevelBuilder.spawn Enemy.IsDestroyer 1 0] Player.new)
                       true None false [] 0 0))
    as (g' & Hrun & _).
  - reflexivity.
  - left. apply ShapeFacts.new_shipshape.
    + apply FieldFacts.arises_consistent, FieldProps.arises_set;
        [apply FieldProps.arises_new|done|reflexivity].
    + vm_compute. intuition congruence.
    + vm_compute. intuition congruence.
    + repeat constructor; vm_compute; congruence.
  - repeat constructor.
  - exists g'. exact Hrun.
Defined.

Lemma die_clock l : XonixLevel.timer (XonixLevel.die l) = XonixLevel.timer l.
Proof. rewrite LevelFacts.die_eq. cbv zeta. by destruct (_ <? 0). Qed.

Lemma claim_clock l l' :
  XonixLevel.claim l = Some l' → XonixLevel.timer l' = XonixLevel.timer l.
Proof.
  unfold XonixLevel.claim. destruct (XonixField.claim _ _) as [f|]; [|done].
  simpl. intros [= <-]. by destruct (js_gt _ _).
Qed.

Lemma put_clock l r e : XonixLevel.timer (EntityMethods.put l r e) = XonixLevel.timer l.
Proof. by destruct r. Qed.

Lemma update_clock this onCollision delta l l' :
  (∀ c l1, onCollision l c = Some l1 → XonixLevel.timer l1 = XonixLevel.timer l) →
  EntityMethods.update this onCollision delta l = Some l' →
  XonixLevel.timer l' = XonixLevel.timer l.
Proof.
  intros Hoc. unfold EntityMethods.update.
  destruct (EntityMethods.get l this) as [e|]; [|by intros [= <-]].
  destruct (EntityMethods.checkCollision _ _ _ _ _ _) as [c|]; [apply Hoc|].
  intros [= <-]. apply put_clock.
Qed.

Lemma player_onCollision_clock l c l' :
  PlayerMethods.onCollision l c = Some l' → XonixLevel.timer l' = XonixLevel.timer l.
Proof.
  unfold PlayerMethods.onCollision.
  destruct (collidedCellState c) as [[]|]; try (by intros [= <-]).
  - destruct (XonixLevel.claim _) as [l1|] eqn:Hclaim; [|done].
    simpl. intros [= <-]. by apply claim_clock in Hclaim.
  - intros [= <-]. by rewrite die_clock.
Qed.

Lemma player_update_clock delta l l' :
  PlayerMethods.update delta l = Some l' → XonixLevel.timer l' = XonixLevel.timer l.
Proof.
  unfold PlayerMethods.update.
  destruct (EntityMethods.update _ _ _ _) as [l1|] eqn:Hrun; [|done].
  apply update_clock in Hrun; [|apply player_onCollision_clock].
  simpl. destruct (_ && _); intros [= <-]; done.
Qed.

Lemma enemy_onCollision_clock i l c :
  XonixLevel.timer (EnemyMethods.onCollision i l c) = XonixLevel.timer l.
Proof.
  unfold EnemyMethods.onCollision.
  destruct (EntityMethods.get l (TheEnemy i)) as [e|]; [|done].
  destruct (_ || _); [rewrite die_clock|]; apply put_clock.
Qed.

Lemma enemyOnCollision_clock i l c l' :
  XonixGame.enemyOnCollision i l c = Some l' → XonixLevel.timer l' = XonixLevel.timer l.
Proof.
  unfold XonixGame.enemyOnCollision, DestroyerMethods.onCollision.
  destruct (Enemy.class <$> _) as [[]|]; intros [= <-];
    try destruct (bool_decide _); apply enemy_onCollision_clock.
Qed.

Lemma forEach_clock delta rs l l' :
  XonixGame.forEach delta rs l = Some l' → XonixLevel.timer l' = XonixLevel.timer l.
Proof.
  revert l. induction rs as [|r rs IH]; intros l; simpl; [by intros [= <-]|].
  destruct (XonixGame.updateEntity delta l r) as [l1|] eqn:Hone; [|done].
  simpl. intros Hrest. rewrite (IH _ Hrest).
  destruct r as [|i]; simpl in Hone.
  - by apply player_update_clock in Hone.
  - apply update_clock in Hone; [done|]. intros c l2. apply enemyOnCollision_clock.
Qed.

Lemma tickThenSchedule_shape g :
  ∃ o, Game.tickThenSchedule g = Some o
       ∧ XonixLevel.timer (Game.level (Game.after o)) = XonixLevel.timer (Game.level g)
       ∧ Game.ctx (Game.after o) = Game.ctx g
       ∧ Game.nextUpdate (Game.after o) = Some (S (Game.handles g))
       ∧ Game.timeouts (Game.after o) = Game.timeouts g ++ [S (Game.handles g)]
       ∧ Game.handles (Game.after o) = S (Game.handles g)
       ∧ Game.paused (Game.after o) = Game.paused g
       ∧ Game.listeners (Game.after o) = Game.listeners g.
Proof.
  unfold Game.tickThenSchedule, Game.tick. destruct (Game.ctx g) eqn:Hctx.
  - destruct (update_total (Game.level g)) as (l' & Hrun). rewrite Hrun. simpl.
    apply forEach_clock in Hrun.
    destruct (Game.draws l'); eexists; (split; [reflexivity|]); by simpl.
  - simpl. eexists. split; [reflexivity|]. by simpl.
Qed.

Lemma timerTicks_still n l :
  XonixTimer.tick (XonixLevel.timer l) = (XonixLevel.timer l, false) →
  ShapeProps.timerTicks n l = l.
Proof.
  intros Htick.
  assert (Hone : XonixLevel.timerTick l = l).
  { unfold XonixLevel.timerTick. rewrite Htick. by destruct l. }
  induction n as [|n IH]; [done|]. simpl. by rewrite Hone.
Qed.

Lemma tick_not_running tm :
  XonixTimer.paused tm = true ∨ XonixTimer.interval tm = None →
  XonixTimer.tick tm = (tm, false).
Proof.
  intros H. unfold XonixTimer.tick, XonixTimer.callback.
  destruct (XonixTimer.interval tm) as [iv|]; [|done].
  destruct H as [->|H]; done.
Qed.

Lemma cleared_chain g :
  single_chain g → Game.clearTimeout (Game.nextUpdate g) (Game.timeouts g) = [].
Proof.
  intros [Hc _]. rewrite Hc. destruct (Game.nextUpdate g) as [h|]; [|done].
  simpl. rewrite filter_cons_False by (intros Hn; by apply Hn). done.
Qed.

Lemma scheduled_chain g :
  Game.timeouts g = [] →
  ∃ o, Game.tickThenSchedule g = Some o ∧ single_chain (Game.after o)
       ∧ Game.isRunning (Game.after o) = true
       ∧ Game.paused (Game.after o) = Game.paused g
       ∧ Game.listeners (Game.after o) = Game.listeners g
       ∧ Game.ctx (Game.after o) = Game.ctx g.
Proof.
  intros Hnone.
  destruct (tickThenSchedule_shape g) as (o & Hrun & _ & Hctx & Hnext & Htimeouts & Hh & Hp & Hl).
  exists o. split; [done|]. split.
  - split.
    + by rewrite Htimeouts, Hnext, Hnone.
    + intros h. rewrite Htimeouts, Hnone, Hh. intros Hin%list_elem_of_singleton. lia.
  - unfold Game.isRunning. by rewrite Hnext.
Qed.

Lemma occur_single e g :
  single_chain g → (e = Run → Game.isRunning g = false) →
  ∃ o, occur e g = Some o ∧ single_chain (Game.after o).
Proof.
  intros Hg Hrun. pose proof (cleared_chain g Hg) as Hclear.
  assert (Hidle : Game.isRunning g = false → Game.timeouts g = []).
  { destruct Hg as [Hc _]. unfold Game.isRunning. rewrite Hc.
    by destruct (Game.nextUpdate g). }
  destruct e as [arg| | | |h|code|]; simpl.
  - unfold Game.start.
    set (g1 := if negb (Game.isStopped g) then Game.stop g else g).
    assert (Game.timeouts g1 = [] ∧ Game.nextUpdate g1 = None) as [Hnone Hnext].
    { unfold g1. destruct (negb (Game.isStopped g)) eqn:Hs; [done|].
      apply negb_false_iff in Hs. unfold Game.isStopped in Hs.
      apply andb_true_iff in Hs as [Hs _]. apply negb_true_iff in Hs.
      split; [by apply Hidle|]. unfold Game.isRunning in Hs.
      by destruct (Game.nextUpdate g). }
    cbn [Game.with_level Game.ctx Game.level].
    destruct (Game.ctx g1).
    + match goal with |- context [Game.run ?g2] =>
        destruct (scheduled_chain (Game.with_paused g2 false)) as (o & Hrun' & Hc & _)
      end; [done|]. exists o. by split.
    + eexists. split; [done|]. split; simpl; [by rewrite Hnone, Hnext|].
      rewrite Hnone. by intros h ?%elem_of_nil.
  - eexists. split; [done|]. split; simpl; [done|]. rewrite Hclear. by intros h ?%elem_of_nil.
  - eexists. split; [done|]. split; simpl; [done|]. rewrite Hclear. by intros h ?%elem_of_nil.
  - destruct (scheduled_chain (Game.with_paused g false)) as (o & Hrun' & Hc & _).
    { by apply Hidle, Hrun. }
    exists o. by split.
  - unfold Game.timeout. destruct (decide (h ∈ Game.timeouts g)) as [Hin|]; [|by exists (Game.Returned g)].
    match goal with |- context [Game.tickThenSchedule ?g2] =>
      destruct (scheduled_chain g2) as (o & Hrun' & Hc & _)
    end.
    { simpl. destruct Hg as [Hc _]. rewrite Hc in Hin. rewrite Hc.
      destruct (Game.nextUpdate g) as [h0|]; [|by apply elem_of_nil in Hin].
      apply list_elem_of_singleton in Hin as ->.
      rewrite filter_cons_False by (intros Hn; by apply Hn). done. }
    exists o. by split.
  - eexists. split; [done|]. unfold Game.keydown.
    by destruct (Game.arrowOf code) as [[x y]|].
  - eexists. split; [done|]. done.
Qed.

(** X24.  One chain of ticks.  On a game whose only timeout is the one
    [nextUpdate] names, any sequence of [start], [pause], [stop],
    timeouts firing, key presses and timer seconds, and of [run] calls
    made while the game is not running, returns or throws and leaves at
    most one timeout set, the one [nextUpdate] names: the game ticks
    once per interval, [pause] and [stop] leave no tick behind, and a
    game that is not running has no tick to come. *)
Theorem one_chain_of_ticks (es : list GameEvent) (g : Game.t) :
  single_chain g → orderly es g →
  ∃ r, occurAll es g = Some r
       ∧ single_chain r.1
       ∧ (Game.isRunning r.1 = false → Game.timeouts r.1 = []).
Proof.
  revert g. induction es as [|e es IH]; intros g Hg Hes; simpl.
  { exists (g, false). split; [done|]. split; [done|].
    destruct Hg as [Hc _]. simpl. unfold Game.isRunning. rewrite Hc.
    by destruct (Game.nextUpdate g). }
  destruct Hes as [He Hes].
  destruct (occur_single e g Hg He) as (o & Hrun & Ho). rewrite Hrun in Hes. rewrite Hrun. simpl.
  destruct (IH _ Ho Hes) as (r & -> & Hr). simpl. eexists. split; [done|]. done.
Qed.

Lemma one_chain_of_ticks_witness :
  ∃ r, occurAll [Start Game.Held; Timeout 1; Pause; Run; Stop] Game.new = Some r
       ∧ single_chain r.1.
Proof.
  destruct (one_chain_of_ticks [Start Game.Held; Timeout 1; Pause; Run; Stop] Game.new)
    as (r & Hrun & Hr & _).
  - split; [reflexivity|]. intros h Hh. by apply elem_of_nil in Hh.
  - vm_compute. intuition congruence.
  - exists r. split; [exact Hrun|exact Hr].
Defined.

(** X25.  [run()] on a game that is running starts a second chain of
    ticks that [pause] cannot stop.  After [run] two timeouts are set;
    [pause] clears the newer one only, so the game reports paused and not
    running while the older timeout is still set, and when it fires the
    game ticks and reports running again, paused all the while. *)
Theorem run_while_running_leaks (g : Game.t) (h : nat) :
  single_chain g → Game.nextUpdate g = Some h →
  ∃ o, Game.run g = Some o
       ∧ Game.timeouts (Game.after o) = [h; S (Game.handles g)]
       ∧ let frozen := Game.pause (Game.after o) in
         Game.isPaused frozen = true ∧ Game.isRunning frozen = false
         ∧ Game.timeouts frozen = [h]
         ∧ ∃ o', Game.timeout h frozen = Some o'
                 ∧ Game.isRunning (Game.after o') = true
                 ∧ Game.isPaused (Game.after o') = true
                 ∧ (Game.ctx g = true →
                    XonixGame.update 1 (Game.level frozen)
                    = Some (Game.level (Game.after o'))).
Proof.
  intros [Hc Hb] Hnext. rewrite Hnext in Hc.
  assert (Hh : (h ≤ Game.handles g)%nat) by (apply Hb; rewrite Hc; by left).
  unfold Game.run.
  destruct (tickThenSchedule_shape (Game.with_paused g false))
    as (o & Hrun & _ & Hctx & Hn & Ht & Hhs & Hp & Hl).
  cbn [Game.with_paused Game.handles Game.timeouts Game.paused Game.ctx] in *.
  rewrite Hc in Ht. simpl in Ht.
  exists o. split; [done|]. split; [done|]. cbv zeta.
  split; [done|]. split; [done|].
  assert (Hfrozen : Game.timeouts (Game.pause (Game.after o)) = [h]).
  { unfold Game.pause. cbn [Game.timeouts]. rewrite Hn, Ht. simpl.
    rewrite filter_cons_True by lia.
    rewrite filter_cons_False by (intros Hne; by apply Hne). done. }
  split; [done|].
  unfold Game.timeout. rewrite Hfrozen.
  destruct (decide (h ∈ [h])) as [_|Hne]; [|destruct Hne; by left].
  match goal with |- context [Game.tickThenSchedule ?g2] =>
    destruct (tickThenSchedule_shape g2) as (o' & Hrun' & _ & Hctx' & Hn' & _ & _ & Hp' & _);
    pose proof Hrun' as Hrun''; unfold Game.tickThenSchedule, Game.tick in Hrun''
  end.
  cbn [Game.ctx Game.pause Game.paused Game.level] in *.
  exists o'. split; [done|]. split; [unfold Game.isRunning; by rewrite Hn'|].
  split; [done|]. intros Hcg. rewrite Hctx, Hcg in Hrun''.
  destruct (XonixGame.update 1 _) as [l'|]; [|done]. simpl in Hrun''.
  destruct (Game.draws l'); injection Hrun'' as <-; done.
Qed.

Lemma run_while_running_leaks_witness :
  ∃ o, Game.run (Game.mk XonixLevel.empty true (Some 1%nat) false [1%nat] 1 1) = Some o
       ∧ Game.timeouts (Game.after o) = [1%nat; 2%nat].
Proof.
  destruct (run_while_running_leaks
              (Game.mk XonixLevel.empty true (Some 1%nat) false [1%nat] 1 1) 1)
    as (o & Hrun & Ht & _).
  - split; [reflexivity|]. simpl. intros h Hh. apply list_elem_of_singleton in Hh. lia.
  - reflexivity.
  - exists o. split; [exact Hrun|exact Ht].
Defined.

(** X26.  After [pause()] the clock of the level does not come back.
    Resuming with [run()] makes the game run again, not paused, but
    leaves the level's timer paused; starting again with the same level
    stops that timer while it is paused and then only resumes it, with
    no schedule live, at 0.  Either way, however many seconds pass, the
    timer never counts and never makes the level lose. *)
Theorem clock_after_pause (g : Game.t) :
  ∃ o, Game.run (Game.pause g) = Some o
       ∧ Game.isRunning (Game.after o) = true ∧ Game.isPaused (Game.after o) = false
       ∧ XonixLevel.timer (Game.level (Game.after o))
         = XonixTimer.pause (XonixLevel.timer (Game.level g))
       ∧ (∀ n, timerTicks n (Game.level (Game.after o)) = Game.level (Game.after o))
       ∧ (Game.ctx g = true →
          ∃ o', Game.start Game.Held (Game.pause g) = Some o'
                ∧ Game.isRunning (Game.after o') = true
                ∧ Game.isPaused (Game.after o') = false
                ∧ XonixLevel.timer (Game.level (Game.after o')) = XonixTimer.mk 0 None false
                ∧ ∀ n, timerTicks n (Game.level (Game.after o')) = Game.level (Game.after o')).
Proof.
  unfold Game.run.
  destruct (tickThenSchedule_shape (Game.with_paused (Game.pause g) false))
    as (o & Hrun & Htimer & _ & Hn & _ & _ & Hp & _).
  exists o. split; [done|].
  split; [unfold Game.isRunning; by rewrite Hn|]. split; [done|]. split; [done|].
  split.
  { intros n. apply timerTicks_still, tick_not_running. left. by rewrite Htimer. }
  intros Hctx. unfold Game.start.
  cbn [Game.isStopped Game.isRunning Game.isPaused Game.pause Game.nextUpdate
       Game.paused negb andb Game.with_level Game.stop Game.ctx Game.level Game.stopped].
  rewrite Hctx.
  match goal with |- context [Game.run ?g2] =>
    destruct (tickThenSchedule_shape (Game.with_paused g2 false))
      as (o' & Hrun' & Htimer' & _ & Hn' & _ & _ & Hp' & _)
  end.
  exists o'. split; [done|].
  split; [unfold Game.isRunning; by rewrite Hn'|]. split; [done|].
  assert (Ht : XonixLevel.timer (Game.level (Game.after o')) = XonixTimer.mk 0 None false).
  { rewrite Htimer'. done. }
  split; [done|].
  intros n. apply timerTicks_still, tick_not_running. right. by rewrite Ht.
Qed.

(** X27.  [start(level)] with and without a canvas.  Without one it
    throws "No canvas", but only after it has stopped a game that was
    not stopped and has taken the level: the game then holds that level,
    is not running, has added no listener and has not started the
    level's timer.  With a canvas it always ends running and not paused,
    with one more [keydown] listener, holding what the first update
    makes of the level with its timer started; it returns whenever the
    level is in good shape. *)
Theorem start_with_or_without_canvas (arg : Game.LevelArg) (g : Game.t) :
  let taken := match arg with
               | Game.Other l => l
               | Game.Held => if Game.isStopped g then Game.level g else Game.stopped g
               end in
  ∃ o, Game.start arg g = Some o
       ∧ (Game.ctx g = false →
          threw o = true ∧ Game.level (Game.after o) = taken
          ∧ Game.isRunning (Game.after o) = false
          ∧ Game.isPaused (Game.after o) = Game.isPaused g
          ∧ Game.listeners (Game.after o) = Game.listeners g)
       ∧ (Game.ctx g = true →
          Game.isRunning (Game.after o) = true ∧ Game.isPaused (Game.after o) = false
          ∧ Game.isStopped (Game.after o) = false
          ∧ Game.listeners (Game.after o) = S (Game.listeners g)
          ∧ XonixGame.update 1 (XonixGame.startTimer taken)
            = Some (Game.level (Game.after o))
          ∧ (playable taken → threw o = false)).
Proof.
  intros taken. unfold Game.start.
  set (g1 := if negb (Game.isStopped g) then Game.stop g else g).
  assert (Hctx1 : Game.ctx g1 = Game.ctx g) by (unfold g1; by destruct (negb _)).
  assert (Hl1 : Game.listeners g1 = Game.listeners g) by (unfold g1; by destruct (negb _)).
  assert (Hp1 : Game.paused g1 = Game.paused g) by (unfold g1; by destruct (negb _)).
  assert (Hn1 : Game.nextUpdate g1 = None).
  { unfold g1. destruct (negb (Game.isStopped g)) eqn:Hs; [done|].
    apply negb_false_iff in Hs. unfold Game.isStopped, Game.isRunning in Hs.
    by destruct (Game.nextUpdate g). }
  assert (Htaken : match arg with
                   | Game.Held => if negb (Game.isStopped g) then Game.stopped g
                                  else Game.level g
                   | Game.Other level => level
                   end = taken).
  { unfold taken. destruct arg; [|done]. by destruct (Game.isStopped g). }
  rewrite Htaken. cbn [Game.with_level Game.ctx Game.level]. rewrite Hctx1.
  destruct (Game.ctx g) eqn:Hctx.
  - unfold Game.run.
    match goal with |- context [Game.tickThenSchedule ?g2] =>
      destruct (tickThenSchedule_shape g2)
        as (o & Hrun & _ & _ & Hn & _ & _ & Hp & Hl);
      pose proof Hrun as Hrun'; unfold Game.tickThenSchedule, Game.tick in Hrun'
    end.
    cbn [Game.with_paused Game.with_level Game.ctx Game.level Game.paused Game.listeners]
      in *.
    exists o. split; [done|]. split; [done|]. intros _.
    assert (Hr : Game.isRunning (Game.after o) = true)
      by (unfold Game.isRunning; by rewrite Hn).
    split; [done|]. split; [done|].
    split; [unfold Game.isStopped; by rewrite Hr|].
    split; [by rewrite Hl, Hl1|].
    destruct (XonixGame.update 1 (XonixGame.startTimer taken)) as [l'|] eqn:Hup; [|done].
    simpl in Hrun'. split.
    + destruct (Game.draws l'); injection Hrun' as <-; done.
    + intros Hplay.
      destruct (playable_update (XonixGame.startTimer taken)) as (l2 & Hup2 & Hl2).
      { by apply playable_timer. }
      assert (l2 = l') as -> by congruence.
      rewrite (playable_draws l' Hl2) in Hrun'. by injection Hrun' as <-.
  - eexists. split; [done|]. split; [|done]. intros _. simpl.
    split; [done|]. split; [done|].
    split; [unfold Game.isRunning; simpl; by rewrite Hn1|]. done.
Qed.

End GameFacts.
